(** * The VLC event manager (src/misc/events.c)

    A shallow embedding of the event manager of [src/misc/events.c]: the
    registry of listener groups from [vlc_event_manager_init] to
    [vlc_event_manager_fini], [__vlc_event_attach], [vlc_event_detach]
    and the dispatch loop of [vlc_event_send], with the heap blocks the C
    code allocates and frees, the diagnostics it emits and the callbacks
    it invokes.

    The model is sequential, one thread.  [object_lock] is part of the
    state: taking it while it is held is a deadlock.  Reentrancy (a callback
    calling back into the same manager while [vlc_event_send] is running) is
    modelled: what a callback does is the sequence of API calls it makes on
    the manager; it leaves the event it is handed as it is. *)

From Stdlib Require Import ZArith Lia.
From stdpp Require Import base option list strings gmap.

Local Open Scope Z_scope.

(** ** Data model *)

(** Pointers are addresses; [malloc] returning [NULL] is [None]. *)
Abbreviation loc := Z (only parsing).

(** Return codes of the API. The numeric values of vlc/vlc.h are not
    needed: the code only returns them. *)
Inductive vlc_status : Set :=
| VLC_SUCCESS
| VLC_ENOMEM
| VLC_EGENERIC.

(** [vlc_event_type_t] is an enumeration; a callback ([vlc_event_callback_t])
    is a function pointer and user data a [void *]. *)
Abbreviation vlc_event_type_t := Z (only parsing).
Abbreviation vlc_event_callback_t := Z (only parsing).

(** Modelled from the spec: [vlc_event_t] is declared in vlc_events.h, which
    is not part of the sources.  An event has "an event-type key, a payload
    owned entirely by the caller (opaque to the manager), and a source
    field"; the source uses the fields [type] and [p_obj].  The record
    fields carry the prefix [ev_] because the manager has a [p_obj] too. *)
Record vlc_event_t : Set := mk_event {
  ev_type  : vlc_event_type_t;
  ev_p_obj : Z;
  ev_u     : Z
}.

Record vlc_event_listener_t : Set := mk_listener {
  p_user_data : Z;
  pf_callback : vlc_event_callback_t
}.

(** [DECL_ARRAY(struct vlc_event_listener_t * ) listeners]: an array of
    pointers to listeners. *)
Record vlc_event_listeners_group_t : Set := mk_group {
  event_type : vlc_event_type_t;
  listeners  : list loc
}.

(** Modelled from the spec: [vlc_event_manager_t] is declared in
    vlc_events.h.  The manager "owns an ordered collection of CategoryGroup,
    one lock, a reference to its owner and a reference to a parent
    diagnostic context"; the source names the fields [p_obj],
    [p_parent_object], [object_lock] and [listeners_groups] (an array of
    pointers to groups).  [object_lock] is [true] while the mutex is held. *)
Record vlc_event_manager_t : Set := mk_em {
  p_obj            : Z;
  p_parent_object  : Z;
  object_lock      : bool;
  listeners_groups : list loc
}.

(** What a heap block holds: the two structures the file allocates. *)
Inductive block : Set :=
| BListener (l : vlc_event_listener_t)
| BGroup (g : vlc_event_listeners_group_t).

(** What the outside world observes: the callbacks invoked (with the event
    as it was handed over and the user data) and the messages sent to the
    parent object. *)
Inductive effect : Set :=
| Call (func : vlc_event_callback_t) (ev : vlc_event_t) (user_data : Z)
| MsgErr (obj : Z) (msg : string)
| MsgWarn (obj : Z) (msg : string).

Record world : Type := mk_world {
  heap : gmap Z block;
  em   : vlc_event_manager_t;
  log  : list effect
}.

(** What a callback may do to the manager it was called from: the API of
    this file, except init and fini. *)
Inductive action : Set :=
| ActRegister (event_type : vlc_event_type_t)
| ActAttach (event_type : vlc_event_type_t) (cb : vlc_event_callback_t) (data : Z)
| ActDetach (event_type : vlc_event_type_t) (cb : vlc_event_callback_t) (data : Z)
| ActSend (ev : vlc_event_t).

(** ** A state monad with undefined behaviour, deadlock and fuel

    A computation returns a value and a state ([Ret]), dereferences or
    frees a pointer that is not allocated or unlocks a mutex that is not
    held ([Undef]), waits for a mutex that its own thread holds
    ([Deadlock]), or has used up the fuel of the dispatch loop
    ([Timeout]). *)

Inductive outcome (A : Type) : Type :=
| Ret (a : A) (w : world)
| Undef
| Deadlock
| Timeout.
Arguments Ret {A} a w.
Arguments Undef {A}.
Arguments Deadlock {A}.
Arguments Timeout {A}.

Definition M (A : Type) : Type := world → outcome A.

Definition ret {A} (a : A) : M A := fun w => Ret a w.

Definition bind {A B} (m : M A) (k : A → M B) : M B :=
  fun w => match m w with
           | Ret a w' => k a w'
           | Undef => Undef
           | Deadlock => Deadlock
           | Timeout => Timeout
           end.

Declare Scope em_scope.
Delimit Scope em_scope with em.
Notation "'do' x <- m ; k" := (bind m (fun x => k))
  (at level 10, x name, m at level 100, k at level 200) : em_scope.
Notation "'do' '_' <- m ; k" := (bind m (fun _ => k))
  (at level 10, m at level 100, k at level 200) : em_scope.
Local Open Scope em_scope.

Definition get_em : M vlc_event_manager_t := fun w => Ret (em w) w.
Definition put_em (m : vlc_event_manager_t) : M unit :=
  fun w => Ret tt (mk_world (heap w) m (log w)).
Definition emit (e : effect) : M unit :=
  fun w => Ret tt (mk_world (heap w) (em w) (log w ++ [e])).

(** Modelled from the spec: [vlc_mutex_lock] and [vlc_mutex_unlock] are not
    part of the sources.  The manager has "a single mutual-exclusion lock",
    released around a callback so that the callback can call back "without
    deadlocking": the mutex is not recursive, taking it while it is held
    never returns; releasing it while it is free is undefined. *)
Definition set_lock (b : bool) (m : vlc_event_manager_t)
    : vlc_event_manager_t :=
  mk_em (p_obj m) (p_parent_object m) b (listeners_groups m).

Definition with_lock (b : bool) (w : world) : world :=
  mk_world (heap w) (set_lock b (em w)) (log w).

Definition vlc_mutex_lock : M unit :=
  fun w => if object_lock (em w) then Deadlock else Ret tt (with_lock true w).

Definition vlc_mutex_unlock : M unit :=
  fun w => if object_lock (em w) then Ret tt (with_lock false w) else Undef.

(** Destroying a mutex that is held is undefined. *)
Definition vlc_mutex_destroy : M unit :=
  fun w => if object_lock (em w) then Undef else Ret tt w.

(** The array of the groups of the manager. *)
Definition put_groups (gs : list Z) : M unit :=
  fun w => Ret tt (mk_world (heap w)
                     (mk_em (p_obj (em w)) (p_parent_object (em w))
                        (object_lock (em w)) gs)
                     (log w)).

(** ** Reading a state *)

Definition group_at (h : gmap Z block) (g : Z)
    : option vlc_event_listeners_group_t :=
  match h !! g with
  | Some (BGroup x) => Some x
  | _ => None
  end.

Definition listener_at (h : gmap Z block) (l : Z)
    : option vlc_event_listener_t :=
  match h !! l with
  | Some (BListener x) => Some x
  | _ => None
  end.

(** The first group of type [t] in the array [gs], as the loops of
    [vlc_event_send] and [__vlc_event_attach] find it: the scan reads every
    group before it. *)
Fixpoint find_group (h : gmap Z block) (gs : list Z) (t : vlc_event_type_t)
    : option Z :=
  match gs with
  | [] => None
  | g :: gs' =>
      match group_at h g with
      | Some grp => if event_type grp =? t then Some g else find_group h gs' t
      | None => None
      end
  end.

(** The index of the first listener with callback [cb] and user data [d],
    as the inner loop of [vlc_event_detach] finds it. *)
Fixpoint find_listener (h : gmap Z block) (ls : list Z)
    (cb : vlc_event_callback_t) (d : Z) : option nat :=
  match ls with
  | [] => None
  | l :: ls' =>
      match listener_at h l with
      | Some x =>
          if (pf_callback x =? cb) && (p_user_data x =? d) then Some 0%nat
          else S <$> find_listener h ls' cb d
      | None => None
      end
  end.

Definition listeners_of (h : gmap Z block) (g : Z) : list Z :=
  match group_at h g with
  | Some grp => listeners grp
  | None => []
  end.

Definition type_of (h : gmap Z block) (g : Z) : vlc_event_type_t :=
  match group_at h g with
  | Some grp => event_type grp
  | None => 0
  end.

(** The listeners of a group, in the order of its array. *)
Definition entries_of (h : gmap Z block) (g : Z)
    : list vlc_event_listener_t :=
  omap (listener_at h) (listeners_of h g).

Definition all_listeners (h : gmap Z block) (gs : list Z) : list Z :=
  gs ≫= listeners_of h.

(** The registered categories, in registration order: every group pointer
    of the manager with the type of its group. *)
Definition categories (w : world) : list (Z * vlc_event_type_t) :=
  map (fun g => (g, type_of (heap w) g)) (listeners_groups (em w)).

(** The invocations of the callback [f], in order. *)
Definition calls_to (f : vlc_event_callback_t) (l : list effect) : list effect :=
  List.filter (fun e => match e with Call f' _ _ => f' =? f | _ => false end) l.

(** What a dispatch to the listeners [xs] of an event [ev] logs. *)
Definition dispatch_log (ev : vlc_event_t) (xs : list vlc_event_listener_t)
    : list effect :=
  map (fun x => Call (pf_callback x) ev (p_user_data x)) xs.

(** ** Well-formed states

    The mutex is free, every pointer the manager holds points to a live
    block of the right kind, no block is referenced twice, and a group that
    is not the first of its type has no listener.
    [vlc_event_manager_init] establishes this and every operation keeps it
    (see [reachable_wf]). *)
Definition wf (w : world) : Prop :=
  let h := heap w in
  let gs := listeners_groups (em w) in
  object_lock (em w) = false
  ∧ Forall (fun g => is_Some (group_at h g)) gs
  ∧ Forall (fun l => is_Some (listener_at h l)) (all_listeners h gs)
  ∧ NoDup gs
  ∧ NoDup (all_listeners h gs)
  ∧ Forall (fun g => listeners_of h g = []
                     ∨ find_group h gs (type_of h g) = Some g) gs.

#[global] Instance wf_dec w : Decision (wf w).
Proof. unfold wf. apply _. Defined.

(** The event as [vlc_event_send] leaves it. *)
Definition stamp (m : vlc_event_manager_t) (ev : vlc_event_t) : vlc_event_t :=
  mk_event (ev_type ev) (p_obj m) (ev_u ev).

Section EventManager.

(** ** The environment *)

(** [malloc] is any allocator; it may fail. *)
Variable malloc : gmap Z block → option Z.

(** The code behind a callback pointer: what [func( p_event, user_data )]
    does to the manager, as the sequence of API calls it makes. *)
Variable callback_body :
  vlc_event_callback_t → vlc_event_t → Z → list action.

(** ** Memory *)

(** [malloc] followed by the initialisation of the fields. *)
Definition alloc (b : block) : M (option Z) :=
  fun w => match malloc (heap w) with
           | None => Ret None w
           | Some l => Ret (Some l) (mk_world (<[l:=b]> (heap w)) (em w) (log w))
           end.

Definition free (l : Z) : M unit :=
  fun w => match heap w !! l with
           | Some _ => Ret tt (mk_world (delete l (heap w)) (em w) (log w))
           | None => Undef
           end.

Definition load_group (g : Z) : M vlc_event_listeners_group_t :=
  fun w => match heap w !! g with
           | Some (BGroup x) => Ret x w
           | _ => Undef
           end.

Definition load_listener (l : Z) : M vlc_event_listener_t :=
  fun w => match heap w !! l with
           | Some (BListener x) => Ret x w
           | _ => Undef
           end.

Definition store_group (g : Z) (x : vlc_event_listeners_group_t) : M unit :=
  fun w => match heap w !! g with
           | Some (BGroup _) =>
               Ret tt (mk_world (<[g:=BGroup x]> (heap w)) (em w) (log w))
           | _ => Undef
           end.

(** Modelled from the spec: the macros of vlc_arrays.h ([DECL_ARRAY],
    [ARRAY_INIT], [ARRAY_APPEND], [ARRAY_REMOVE], [FOREACH_ARRAY],
    [FOREACH_END]) are not part of the sources.  The container is "a
    generic ordered, appendable, removable sequence": an array is a list,
    [ARRAY_INIT] the empty list, [ARRAY_APPEND( a, x )] is [a ++ [x]] and
    [ARRAY_REMOVE( a, pos )] deletes the element at index [pos].
    [FOREACH_ARRAY( item, a )] is the loop
    [for( fe_idx = 0; fe_idx < a.i_size; fe_idx++ ) item = a.p_elems[fe_idx]]
    over the array itself ([vlc_event_detach] uses its [fe_idx]); the file
    makes no copy of an array anywhere. *)
Definition ARRAY_APPEND (a : list Z) (x : Z) : list Z := a ++ [x].
Definition ARRAY_REMOVE (a : list Z) (pos : nat) : list Z := delete pos a.

(** ** init, fini, register *)

Definition vlc_event_manager_init (p_obj' p_parent_obj : Z) : M vlc_status :=
  do _ <- put_em (mk_em p_obj' p_parent_obj false []);
  ret VLC_SUCCESS.

Fixpoint fini_listeners (ls : list Z) : M unit :=
  match ls with
  | [] => ret tt
  | listener :: ls' => do _ <- free listener; fini_listeners ls'
  end.

Fixpoint fini_groups (gs : list Z) : M unit :=
  match gs with
  | [] => ret tt
  | listeners_group :: gs' =>
      do grp <- load_group listeners_group;
      do _ <- fini_listeners (listeners grp);
      do _ <- free listeners_group;
      fini_groups gs'
  end.

Definition vlc_event_manager_fini : M unit :=
  do _ <- vlc_mutex_destroy;
  do m <- get_em;
  fini_groups (listeners_groups m).

Definition vlc_event_manager_register_event_type
    (event_type' : vlc_event_type_t) : M vlc_status :=
  do p <- alloc (BGroup (mk_group event_type' []));
  match p with
  | None => ret VLC_ENOMEM
  | Some listeners_group =>
      do _ <- vlc_mutex_lock;
      do m <- get_em;
      do _ <- put_groups (ARRAY_APPEND (listeners_groups m) listeners_group);
      do _ <- vlc_mutex_unlock;
      ret VLC_SUCCESS
  end.

(** ** attach *)

(** The loop of [__vlc_event_attach] over the groups, run with the mutex
    held: [true] when a group was found, the listener appended to it and
    the mutex released. *)
Fixpoint attach_groups (gs : list Z) (event_type' : vlc_event_type_t)
    (listener : Z) : M bool :=
  match gs with
  | [] => ret false
  | listeners_group :: gs' =>
      do grp <- load_group listeners_group;
      if event_type grp =? event_type' then
        do _ <- store_group listeners_group
                  (mk_group (event_type grp)
                     (ARRAY_APPEND (listeners grp) listener));
        do _ <- vlc_mutex_unlock;
        ret true
      else attach_groups gs' event_type' listener
  end.

(** [DEBUG_EVENT] is not defined, so [psz_debug_name] is discarded and
    left out. *)
Definition __vlc_event_attach (event_type' : vlc_event_type_t)
    (pf_callback' : vlc_event_callback_t) (p_user_data' : Z) : M vlc_status :=
  do p <- alloc (BListener (mk_listener p_user_data' pf_callback'));
  match p with
  | None => ret VLC_ENOMEM
  | Some listener =>
      do _ <- vlc_mutex_lock;
      do m <- get_em;
      do found <- attach_groups (listeners_groups m) event_type' listener;
      if found : bool then ret VLC_SUCCESS
      else
        do _ <- vlc_mutex_unlock;
        do _ <- emit (MsgErr (p_parent_object m)
                        "Can't attach to an object event manager event");
        do _ <- free listener;
        ret VLC_EGENERIC
  end.

(** ** detach *)

(** The inner loop of [vlc_event_detach]: the index and the pointer of
    the first listener with this callback and this user data. *)
Fixpoint detach_listeners (ls : list Z) (fe_idx : nat)
    (pf_callback' : vlc_event_callback_t) (p_user_data' : Z)
    : M (option (nat * Z)) :=
  match ls with
  | [] => ret None
  | listener :: ls' =>
      do x <- load_listener listener;
      if (pf_callback x =? pf_callback') && (p_user_data x =? p_user_data')
      then ret (Some (fe_idx, listener))
      else detach_listeners ls' (S fe_idx) pf_callback' p_user_data'
  end.

(** The outer loop, run with the mutex held: [true] when a listener was
    found, removed and freed and the mutex released.  There is no [break]
    after the inner loop, a group of this type without a matching listener
    does not end the scan. *)
Fixpoint detach_groups (gs : list Z) (event_type' : vlc_event_type_t)
    (pf_callback' : vlc_event_callback_t) (p_user_data' : Z) : M bool :=
  match gs with
  | [] => ret false
  | listeners_group :: gs' =>
      do grp <- load_group listeners_group;
      if event_type grp =? event_type' then
        do r <- detach_listeners (listeners grp) 0 pf_callback' p_user_data';
        match r with
        | Some (fe_idx, listener) =>
            do _ <- store_group listeners_group
                      (mk_group (event_type grp)
                         (ARRAY_REMOVE (listeners grp) fe_idx));
            do _ <- free listener;
            do _ <- vlc_mutex_unlock;
            ret true
        | None => detach_groups gs' event_type' pf_callback' p_user_data'
        end
      else detach_groups gs' event_type' pf_callback' p_user_data'
  end.

Definition vlc_event_detach (event_type' : vlc_event_type_t)
    (pf_callback' : vlc_event_callback_t) (p_user_data' : Z) : M vlc_status :=
  do _ <- vlc_mutex_lock;
  do m <- get_em;
  do found <- detach_groups (listeners_groups m) event_type'
                pf_callback' p_user_data';
  if found : bool then ret VLC_SUCCESS
  else
    do _ <- vlc_mutex_unlock;
    do _ <- emit (MsgWarn (p_parent_object m)
                    "Can't detach to an object event manager event");
    ret VLC_EGENERIC.

(** ** send *)

(** What a callback does, given how a nested [vlc_event_send] runs. *)
Definition run_action (send : vlc_event_t → M vlc_event_t) (a : action)
    : M unit :=
  match a with
  | ActRegister t =>
      do _ <- vlc_event_manager_register_event_type t; ret tt
  | ActAttach t cb d => do _ <- __vlc_event_attach t cb d; ret tt
  | ActDetach t cb d => do _ <- vlc_event_detach t cb d; ret tt
  | ActSend ev => do _ <- send ev; ret tt
  end.

Fixpoint run_actions (send : vlc_event_t → M vlc_event_t)
    (acts : list action) : M unit :=
  match acts with
  | [] => ret tt
  | a :: acts' => do _ <- run_action send a; run_actions send acts'
  end.

(** The outer loop of [vlc_event_send]: the first group of the type of
    the event is handed to the inner loop, then [break]. *)
Fixpoint send_groups (loop : Z → vlc_event_t → nat → M unit)
    (gs : list Z) (p_event : vlc_event_t) : M unit :=
  match gs with
  | [] => ret tt
  | listeners_group :: gs' =>
      do grp <- load_group listeners_group;
      if event_type grp =? ev_type p_event
      then loop listeners_group p_event 0%nat
      else send_groups loop gs' p_event
  end.

(** [vlc_event_send] around its inner loop; the event is an in-out
    argument, the value returned is the event as the caller finds it. *)
Definition send_with (loop : Z → vlc_event_t → nat → M unit)
    (p_event : vlc_event_t) : M vlc_event_t :=
  do m <- get_em;
  let p_event := stamp m p_event in
  do _ <- vlc_mutex_lock;
  do m <- get_em;
  do _ <- send_groups loop (listeners_groups m) p_event;
  do _ <- vlc_mutex_unlock;
  ret p_event.

(** The inner loop, from index [fe_idx] on, entered and left with the
    mutex held.  Every iteration reads [listeners_group->listeners] again:
    the callback ran in between, with the mutex released.  One unit of fuel
    is spent per callback invoked. *)
Fixpoint send_listeners (fuel : nat) (listeners_group : Z)
    (p_event : vlc_event_t) (fe_idx : nat) {struct fuel} : M unit :=
  do grp <- load_group listeners_group;
  match listeners grp !! fe_idx with
  | None => ret tt
  | Some listener =>
      match fuel with
      | O => fun _ => Timeout
      | S fuel' =>
          do x <- load_listener listener;
          let func := pf_callback x in
          let user_data := p_user_data x in
          do _ <- vlc_mutex_unlock;
          do _ <- emit (Call func p_event user_data);
          do _ <- run_actions (send_with (send_listeners fuel'))
                    (callback_body func p_event user_data);
          do _ <- vlc_mutex_lock;
          send_listeners fuel' listeners_group p_event (S fe_idx)
      end
  end.

Definition vlc_event_send (fuel : nat) (p_event : vlc_event_t)
    : M vlc_event_t :=
  send_with (send_listeners fuel) p_event.

(** One [__vlc_event_attach] to the same type for every listener of [xs],
    in the order of the list; the return codes, in the same order. *)
Fixpoint attach_each (event_type' : vlc_event_type_t)
    (xs : list vlc_event_listener_t) : M (list vlc_status) :=
  match xs with
  | [] => ret []
  | x :: xs' =>
      do s <- __vlc_event_attach event_type' (pf_callback x) (p_user_data x);
      do ss <- attach_each event_type' xs';
      ret (s :: ss)
  end.

(** The states of a manager: what [vlc_event_manager_init] leaves, followed
    by any sequence of register, attach, detach and send (with the
    reentrant calls of the callbacks). *)
Inductive reachable : world → Prop :=
| reach_init p parent w s w' :
    vlc_event_manager_init p parent w = Ret s w' → reachable w'
| reach_call fuel a w w' :
    reachable w →
    run_action (vlc_event_send fuel) a w = Ret tt w' → reachable w'.

End EventManager.

(** ** A concrete environment *)

(** An allocator that never fails and never returns [NULL]. *)
Definition fresh_malloc (h : gmap Z block) : option Z :=
  Some (fresh ({[0]} ∪ dom h)).

(** An allocator out of memory. *)
Definition no_malloc (h : gmap Z block) : option Z := None.

(** Callbacks that leave the manager alone. *)
Definition inert_body (f : vlc_event_callback_t) (ev : vlc_event_t) (d : Z)
    : list action := [].

(** The callback at address 100 detaches itself, the others are inert. *)
Definition self_detach_body (f : vlc_event_callback_t) (ev : vlc_event_t)
    (d : Z) : list action :=
  if f =? 100 then [ActDetach (ev_type ev) f d] else [].

Definition world_of {A} (o : outcome A) (default : world) : world :=
  match o with
  | Ret _ w => w
  | _ => default
  end.

(** A manager owned by object 55, reporting to object 66. *)
Definition w_init : world :=
  world_of (vlc_event_manager_init 55 66 (mk_world ∅ (mk_em 0 0 false []) []))
           (mk_world ∅ (mk_em 0 0 false []) []).

(** Category 1 registered. *)
Definition w_reg : world :=
  world_of (vlc_event_manager_register_event_type fresh_malloc 1 w_init) w_init.

(** Listeners A = (100, 7) and B = (200, 8) attached to it, in this order. *)
Definition w_A : world :=
  world_of (__vlc_event_attach fresh_malloc 1 100 7 w_reg) w_reg.
Definition w_AB : world :=
  world_of (__vlc_event_attach fresh_malloc 1 200 8 w_A) w_A.

(** Category 1 registered a second time, then A attached. *)
Definition w_reg2 : world :=
  world_of (vlc_event_manager_register_event_type fresh_malloc 1 w_reg) w_reg.
Definition w_dup : world :=
  world_of (__vlc_event_attach fresh_malloc 1 100 7 w_reg2) w_reg2.

(** A attached twice to category 1. *)
Definition w_AA : world :=
  world_of (__vlc_event_attach fresh_malloc 1 100 7 w_A) w_A.

(** The log entries added between two states. *)
Definition new_log (w w' : world) : list effect :=
  drop (length (log w)) (log w').

(** Snapshot dispatch, for a state [w] between two calls where the first
    group of type [T] holds the listeners A = ([A], [dA]) and B = ([B],
    [dB]) in this order and where the callback of A calls
    [vlc_event_detach( T, A, dA )]: a send of [ev] returns and has invoked
    the callback of B exactly once. *)
Definition snapshot_dispatch (malloc : gmap Z block → option Z)
    (callback_body : vlc_event_callback_t → vlc_event_t → Z → list action)
    (w : world) (T A dA B dB : Z) (ev : vlc_event_t) : Prop :=
  ∀ g la lb,
    object_lock (em w) = false →
    find_group (heap w) (listeners_groups (em w)) T = Some g →
    listeners_of (heap w) g = [la; lb] →
    listener_at (heap w) la = Some (mk_listener dA A) →
    listener_at (heap w) lb = Some (mk_listener dB B) →
    ev_type ev = T →
    callback_body A (stamp (em w) ev) dA = [ActDetach T A dA] →
    ∃ fuel ev' w',
      vlc_event_send malloc callback_body fuel ev w = Ret ev' w'
      ∧ length (calls_to B (new_log w w')) = 1%nat.

(** Attach, then send, without a condition on the callbacks: in a
    well-formed state [w] where [T] is registered, once
    [__vlc_event_attach( T, cb, d )] has succeeded, a send of [ev] of type
    [T] returns and has invoked [cb] exactly once, with [d] and with the
    event whose source is the owner of the manager. *)
Definition invoked_once_after_attach (malloc : gmap Z block → option Z)
    (callback_body : vlc_event_callback_t → vlc_event_t → Z → list action)
    (w : world) (T cb d : Z) (ev : vlc_event_t) : Prop :=
  ∀ g w1,
    wf w →
    find_group (heap w) (listeners_groups (em w)) T = Some g →
    __vlc_event_attach malloc T cb d w = Ret VLC_SUCCESS w1 →
    ev_type ev = T →
    ∃ fuel ev' w2,
      vlc_event_send malloc callback_body fuel ev w1 = Ret ev' w2
      ∧ ev_p_obj ev' = p_obj (em w)
      ∧ calls_to cb (new_log w1 w2) = [Call cb ev' d].

(** The same pair attached twice, without a condition on the callbacks:
    once both calls have succeeded, a send of [ev] of type [T] returns and
    has invoked [cb] exactly twice. *)
Definition invoked_twice_after_two_attaches
    (malloc : gmap Z block → option Z)
    (callback_body : vlc_event_callback_t → vlc_event_t → Z → list action)
    (w : world) (T cb d : Z) (ev : vlc_event_t) : Prop :=
  ∀ g w1 w2,
    wf w →
    find_group (heap w) (listeners_groups (em w)) T = Some g →
    __vlc_event_attach malloc T cb d w = Ret VLC_SUCCESS w1 →
    __vlc_event_attach malloc T cb d w1 = Ret VLC_SUCCESS w2 →
    ev_type ev = T →
    ∃ fuel ev' w3,
      vlc_event_send malloc callback_body fuel ev w2 = Ret ev' w3
      ∧ calls_to cb (new_log w2 w3) = [Call cb ev' d; Call cb ev' d].

(** ** The blocks of a manager *)

(** The pointers the manager holds: its groups and their listeners. *)
Definition owned (w : world) : list Z :=
  listeners_groups (em w) ++ all_listeners (heap w) (listeners_groups (em w)).

(** The heap without the blocks of the manager. *)
Definition frame (w : world) : gmap Z block := foldr delete (heap w) (owned w).

(** A later state of the same manager: well-formed, with the groups of [w]
    at the head of its array. *)
Definition later (w w' : world) : Prop :=
  wf w'
  ∧ listeners_groups (em w) `prefix_of` listeners_groups (em w').

(** A call that goes right: it returns a result that satisfies [P], or
    the dispatch loop is out of fuel. *)
Definition safe {A} (P : A → world → Prop) (o : outcome A) : Prop :=
  match o with
  | Ret a w => P a w
  | Timeout => True
  | Undef | Deadlock => False
  end.

(** The callback at address 100 attaches the listener (200, 8) to the type
    of the event, the others are inert. *)
Definition attach_other_body (f : vlc_event_callback_t) (ev : vlc_event_t)
    (d : Z) : list action :=
  if f =? 100 then [ActAttach (ev_type ev) 200 8] else [].

(** Every callback attaches itself once more to the type of the event. *)
Definition self_attach_body (f : vlc_event_callback_t) (ev : vlc_event_t)
    (d : Z) : list action :=
  [ActAttach (ev_type ev) f d].

(** The callback at address 100 sends an event of type 2, the others are
    inert. *)
Definition resend_body (f : vlc_event_callback_t) (ev : vlc_event_t)
    (d : Z) : list action :=
  if f =? 100 then [ActSend (mk_event 2 0 0)] else [].

(** The callback at address 300 sends an event of type 1, the others are
    inert. *)
Definition relay_body (f : vlc_event_callback_t) (ev : vlc_event_t)
    (d : Z) : list action :=
  if f =? 300 then [ActSend (mk_event 1 0 0)] else [].

(** Category 2 registered after A and B were attached to category 1, then
    C = (300, 9) attached to category 2. *)
Definition w_AB2 : world :=
  world_of (vlc_event_manager_register_event_type fresh_malloc 2 w_AB) w_AB.
Definition w_AB2C : world :=
  world_of (__vlc_event_attach fresh_malloc 2 300 9 w_AB2) w_AB2.

Section Lifetime.

Variable malloc : gmap Z block → option Z.
Variable callback_body :
  vlc_event_callback_t → vlc_event_t → Z → list action.

(** The states of a manager set up on the heap [h0]: as [reachable], with
    the heap [vlc_event_manager_init] was called on. *)
Inductive reachable_from (h0 : gmap Z block) : world → Prop :=
| from_init p parent w s w' :
    heap w = h0 →
    vlc_event_manager_init p parent w = Ret s w' → reachable_from h0 w'
| from_call fuel a w w' :
    reachable_from h0 w →
    run_action malloc (vlc_event_send malloc callback_body fuel) a w
    = Ret tt w' →
    reachable_from h0 w'.

End Lifetime.

(** ** Properties *)

Section Properties.

(** What [malloc] returns is not allocated yet. *)
Variable malloc : gmap Z block → option Z.
Hypothesis malloc_fresh : ∀ h l, malloc h = Some l → h !! l = None.
Variable callback_body :
  vlc_event_callback_t → vlc_event_t → Z → list action.

Local Abbreviation register := (vlc_event_manager_register_event_type malloc).
Local Abbreviation attach := (__vlc_event_attach malloc).
Local Abbreviation send := (vlc_event_send malloc callback_body).
Local Abbreviation loop := (send_listeners malloc callback_body).
Local Abbreviation reachable := (reachable malloc callback_body).

Implicit Types (h : gmap Z block) (w : world) (g l : Z) (gs ls : list Z).

(** *** The mutex *)

Lemma set_lock_id m b : object_lock m = b → set_lock b m = m.
Proof. intros <-. by destruct m. Qed.

Lemma set_lock_set_lock a b m : set_lock a (set_lock b m) = set_lock a m.
Proof. done. Qed.

Lemma with_lock_id w b : object_lock (em w) = b → with_lock b w = w.
Proof. intros H. unfold with_lock. rewrite set_lock_id by done. by destruct w. Qed.

Lemma with_lock_with_lock a b w : with_lock a (with_lock b w) = with_lock a w.
Proof. done. Qed.

Lemma lock_free w :
  object_lock (em w) = false → vlc_mutex_lock w = Ret tt (with_lock true w).
Proof. unfold vlc_mutex_lock. by intros ->. Qed.

Lemma unlock_held w :
  object_lock (em w) = true → vlc_mutex_unlock w = Ret tt (with_lock false w).
Proof. unfold vlc_mutex_unlock. by intros ->. Qed.

Lemma lock_Ret w w' :
  vlc_mutex_lock w = Ret tt w' ↔
  object_lock (em w) = false ∧ w' = with_lock true w.
Proof.
  unfold vlc_mutex_lock. destruct (object_lock (em w)); split; try done.
  - by intros [? ?].
  - by intros [= <-].
  - by intros [_ ->].
Qed.

Lemma unlock_Ret w w' :
  vlc_mutex_unlock w = Ret tt w' ↔
  object_lock (em w) = true ∧ w' = with_lock false w.
Proof.
  unfold vlc_mutex_unlock. destruct (object_lock (em w)); split; try done.
  - by intros [= <-].
  - by intros [_ ->].
  - by intros [? ?].
Qed.

(** *** Heap reads *)

Lemma group_at_Some h g grp :
  group_at h g = Some grp ↔ h !! g = Some (BGroup grp).
Proof.
  unfold group_at. destruct (h !! g) as [[]|]; split; congruence.
Qed.

Lemma listener_at_Some h l x :
  listener_at h l = Some x ↔ h !! l = Some (BListener x).
Proof.
  unfold listener_at. destruct (h !! l) as [[]|]; split; congruence.
Qed.

Lemma group_not_listener h p grp x :
  group_at h p = Some grp → listener_at h p = Some x → False.
Proof.
  rewrite group_at_Some, listener_at_Some. congruence.
Qed.

Lemma load_group_at w g grp :
  group_at (heap w) g = Some grp → load_group g w = Ret grp w.
Proof.
  rewrite group_at_Some. unfold load_group. by intros ->.
Qed.

Lemma load_listener_at w l x :
  listener_at (heap w) l = Some x → load_listener l w = Ret x w.
Proof.
  rewrite listener_at_Some. unfold load_listener. by intros ->.
Qed.

Lemma store_group_at w g grp x :
  group_at (heap w) g = Some grp →
  store_group g x w
  = Ret tt (mk_world (<[g:=BGroup x]> (heap w)) (em w) (log w)).
Proof.
  rewrite group_at_Some. unfold store_group. by intros ->.
Qed.

Lemma free_at w l b :
  heap w !! l = Some b →
  free l w = Ret tt (mk_world (delete l (heap w)) (em w) (log w)).
Proof. unfold free. by intros ->. Qed.

Lemma group_at_insert_ne h p b g :
  p ≠ g → group_at (<[p:=b]> h) g = group_at h g.
Proof. intros. unfold group_at. by rewrite lookup_insert_ne. Qed.

Lemma listener_at_insert_ne h p b l :
  p ≠ l → listener_at (<[p:=b]> h) l = listener_at h l.
Proof. intros. unfold listener_at. by rewrite lookup_insert_ne. Qed.

Lemma group_at_delete_ne h p g :
  p ≠ g → group_at (delete p h) g = group_at h g.
Proof. intros. unfold group_at. by rewrite lookup_delete_ne. Qed.

Lemma listener_at_delete_ne h p l :
  p ≠ l → listener_at (delete p h) l = listener_at h l.
Proof. intros. unfold listener_at. by rewrite lookup_delete_ne. Qed.

Lemma group_at_insert_group h g grp : group_at (<[g:=BGroup grp]> h) g = Some grp.
Proof. unfold group_at. by rewrite lookup_insert_eq. Qed.

Lemma listener_at_insert_listener h l x :
  listener_at (<[l:=BListener x]> h) l = Some x.
Proof. unfold listener_at. by rewrite lookup_insert_eq. Qed.

(** *** The lookup of a group *)

Lemma find_group_Some h gs t g :
  find_group h gs t = Some g →
  g ∈ gs ∧ ∃ grp, group_at h g = Some grp ∧ event_type grp = t.
Proof.
  induction gs as [|g0 gs IH]; simpl; [done|].
  destruct (group_at h g0) as [grp0|] eqn:E0; [|done].
  destruct (event_type grp0 =? t) eqn:Et.
  - intros [= <-]. split; [left|]. exists grp0. split; [done|lia].
  - intros H. destruct (IH H) as [Hin Hg]. split; [by right|done].
Qed.

Lemma find_group_None h gs t g :
  Forall (fun g => is_Some (group_at h g)) gs →
  find_group h gs t = None → g ∈ gs → type_of h g ≠ t.
Proof.
  induction 1 as [|g0 gs [grp0 E0] _ IH]; simpl; [by intros _ ?%elem_of_nil|].
  rewrite E0. destruct (event_type grp0 =? t) eqn:Et; [done|].
  intros H [->|Hin]%elem_of_cons; [|by apply IH].
  unfold type_of. rewrite E0. lia.
Qed.

(** The lookup only depends on the blocks of the groups it reads. *)
Lemma find_group_ext h h' gs t :
  (∀ g, g ∈ gs → is_Some (group_at h g) → group_at h' g = group_at h g) →
  Forall (fun g => is_Some (group_at h g)) gs →
  find_group h' gs t = find_group h gs t.
Proof.
  intros Hext Hval. induction Hval as [|g0 gs Hg0 _ IH]; simpl; [done|].
  rewrite (Hext g0) by (done || left). destruct (group_at h g0); [|done].
  destruct (_ =? _); [done|]. apply IH. intros g Hin. apply Hext. by right.
Qed.

Lemma find_group_ext_Some h h' gs t g :
  (∀ g, is_Some (group_at h g) → group_at h' g = group_at h g) →
  find_group h gs t = Some g → find_group h' gs t = Some g.
Proof.
  intros Hext. induction gs as [|g0 gs IH]; simpl; [done|].
  destruct (group_at h g0) as [grp0|] eqn:E0; [|done].
  rewrite (Hext g0), E0 by (by rewrite E0). destruct (_ =? _); auto.
Qed.

Lemma group_at_alloc h l b g :
  h !! l = None → is_Some (group_at h g) →
  group_at (<[l:=b]> h) g = group_at h g.
Proof.
  intros Hl [grp Hg]. apply group_at_insert_ne. intros ->.
  apply group_at_Some in Hg. congruence.
Qed.

Lemma listener_at_alloc h l b p :
  h !! l = None → is_Some (listener_at h p) →
  listener_at (<[l:=b]> h) p = listener_at h p.
Proof.
  intros Hl [x Hx]. apply listener_at_insert_ne. intros ->.
  apply listener_at_Some in Hx. congruence.
Qed.

(** *** The outer loops of send and attach stop at the first group *)

Lemma send_groups_found lp gs ev w g :
  find_group (heap w) gs (ev_type ev) = Some g →
  send_groups lp gs ev w = lp g ev 0%nat w.
Proof.
  induction gs as [|g0 gs IH]; simpl; [done|].
  destruct (group_at (heap w) g0) as [grp0|] eqn:E0; [|done].
  unfold bind. rewrite (load_group_at _ _ _ E0).
  destruct (_ =? _); [by intros [= ->]|auto].
Qed.

Lemma send_groups_missing lp gs ev w :
  Forall (fun g => is_Some (group_at (heap w) g)) gs →
  find_group (heap w) gs (ev_type ev) = None →
  send_groups lp gs ev w = Ret tt w.
Proof.
  induction 1 as [|g0 gs [grp0 E0] _ IH]; simpl; [done|].
  unfold bind. rewrite E0, (load_group_at _ _ _ E0).
  destruct (_ =? _); [done|auto].
Qed.

Lemma attach_groups_found gs t l w g grp :
  object_lock (em w) = true →
  find_group (heap w) gs t = Some g →
  group_at (heap w) g = Some grp →
  attach_groups gs t l w
  = Ret true (mk_world
                (<[g:=BGroup (mk_group (event_type grp) (listeners grp ++ [l]))]>
                   (heap w))
                (set_lock false (em w)) (log w)).
Proof.
  intros Hlk Hf Hg. induction gs as [|g0 gs IH]; simpl in *; [done|].
  destruct (group_at (heap w) g0) as [grp0|] eqn:E0; [|done].
  unfold bind at 1. rewrite (load_group_at _ _ _ E0).
  destruct (_ =? _); [|auto]. injection Hf as ->.
  assert (grp0 = grp) as -> by congruence.
  unfold bind at 1. rewrite (store_group_at _ _ _ _ E0).
  unfold bind. by rewrite unlock_held.
Qed.

Lemma attach_groups_missing gs t l w :
  Forall (fun g => is_Some (group_at (heap w) g)) gs →
  find_group (heap w) gs t = None →
  attach_groups gs t l w = Ret false w.
Proof.
  induction 1 as [|g0 gs [grp0 E0] _ IH]; simpl; [done|].
  unfold bind. rewrite E0, (load_group_at _ _ _ E0).
  destruct (_ =? _); [done|auto].
Qed.

(** *** attach *)

Lemma attach_enomem t cb d w :
  malloc (heap w) = None → attach t cb d w = Ret VLC_ENOMEM w.
Proof. intros H. unfold __vlc_event_attach, bind, alloc. by rewrite H. Qed.

Lemma attach_found t cb d w l g grp :
  object_lock (em w) = false →
  malloc (heap w) = Some l →
  find_group (heap w) (listeners_groups (em w)) t = Some g →
  group_at (heap w) g = Some grp →
  attach t cb d w
  = Ret VLC_SUCCESS
      (mk_world
         (<[g:=BGroup (mk_group (event_type grp) (listeners grp ++ [l]))]>
            (<[l:=BListener (mk_listener d cb)]> (heap w)))
         (em w) (log w)).
Proof.
  intros Hlk Hm Hf Hg. pose proof (malloc_fresh _ _ Hm) as Hl.
  unfold __vlc_event_attach, bind at 1, alloc. rewrite Hm.
  unfold bind at 1. rewrite lock_free by done.
  unfold bind at 1, get_em. unfold bind at 1.
  rewrite (attach_groups_found _ t l _ g grp); simpl.
  - unfold ret. by rewrite set_lock_set_lock, set_lock_id.
  - done.
  - eapply find_group_ext_Some; [|done]. intros. by apply group_at_alloc.
  - rewrite group_at_alloc; by eauto.
Qed.

Lemma attach_missing t cb d w l :
  object_lock (em w) = false →
  Forall (fun g => is_Some (group_at (heap w) g)) (listeners_groups (em w)) →
  malloc (heap w) = Some l →
  find_group (heap w) (listeners_groups (em w)) t = None →
  attach t cb d w
  = Ret VLC_EGENERIC
      (mk_world (heap w) (em w)
         (log w ++ [MsgErr (p_parent_object (em w))
                      "Can't attach to an object event manager event"])).
Proof.
  intros Hlk Hv Hm Hf. pose proof (malloc_fresh _ _ Hm) as Hl.
  unfold __vlc_event_attach, bind at 1, alloc. rewrite Hm.
  unfold bind at 1. rewrite lock_free by done.
  unfold bind at 1, get_em. unfold bind at 1.
  rewrite attach_groups_missing; simpl.
  - unfold bind, vlc_mutex_unlock, free, emit, ret; simpl.
    rewrite lookup_insert_eq, set_lock_set_lock, set_lock_id by done.
    by rewrite delete_insert_eq, delete_id.
  - eapply Forall_impl; [done|]. intros g Hg; simpl. by rewrite group_at_alloc.
  - rewrite <- Hf. apply find_group_ext; [|done]. intros. by apply group_at_alloc.
Qed.

(** *** detach *)

Lemma find_listener_Some h ls cb d i :
  find_listener h ls cb d = Some i →
  ∃ l x, ls !! i = Some l ∧ listener_at h l = Some x
         ∧ pf_callback x = cb ∧ p_user_data x = d.
Proof.
  revert i. induction ls as [|l0 ls IH]; simpl; intros i; [done|].
  destruct (listener_at h l0) as [x0|] eqn:E0; [|done].
  destruct (_ && _) eqn:Eb.
  - intros [= <-]. exists l0, x0. simpl. apply andb_prop in Eb.
    repeat split; try done; lia.
  - destruct (find_listener h ls cb d) as [j|]; simpl; [|done].
    intros [= <-]. by apply IH.
Qed.

(** Nothing before the listener found has this callback and this data. *)
Lemma find_listener_first h ls cb d i j l x :
  find_listener h ls cb d = Some i → (j < i)%nat →
  ls !! j = Some l → listener_at h l = Some x →
  ¬ (pf_callback x = cb ∧ p_user_data x = d).
Proof.
  revert i j. induction ls as [|l0 ls IH]; simpl; intros i j; [done|].
  destruct (listener_at h l0) as [x0|] eqn:E0; [|done].
  destruct (_ && _) eqn:Eb; [intros [= <-]; lia|].
  destruct (find_listener h ls cb d) as [i'|]; simpl; [|done].
  intros [= <-] Hj. destruct j as [|j]; simpl.
  - intros [= <-]. rewrite E0. intros [= <-] [? ?].
    apply andb_false_iff in Eb. lia.
  - apply (IH i'); [done|lia].
Qed.

Lemma find_listener_None h ls cb d l x :
  Forall (fun l => is_Some (listener_at h l)) ls →
  find_listener h ls cb d = None →
  l ∈ ls → listener_at h l = Some x →
  ¬ (pf_callback x = cb ∧ p_user_data x = d).
Proof.
  induction 1 as [|l0 ls [x0 E0] _ IH]; simpl; [by intros _ ?%elem_of_nil|].
  rewrite E0. destruct (_ && _) eqn:Eb; [done|].
  destruct (find_listener h ls cb d); simpl; [done|].
  intros _ [->|Hin]%elem_of_cons; [|by apply IH].
  rewrite E0. intros [= <-] [? ?]. apply andb_false_iff in Eb. lia.
Qed.

Lemma detach_listeners_found ls k cb d w i :
  find_listener (heap w) ls cb d = Some i →
  ∃ l, ls !! i = Some l
       ∧ detach_listeners ls k cb d w = Ret (Some ((k + i)%nat, l)) w.
Proof.
  revert k i. induction ls as [|l0 ls IH]; simpl; intros k i; [done|].
  destruct (listener_at (heap w) l0) as [x0|] eqn:E0; [|done].
  unfold bind. rewrite (load_listener_at _ _ _ E0).
  destruct (_ && _).
  - intros [= <-]. exists l0. by rewrite Nat.add_0_r.
  - destruct (find_listener (heap w) ls cb d) as [j|] eqn:Ej; simpl; [|done].
    intros [= <-]. destruct (IH (S k) j eq_refl) as (l & Hl & ->).
    exists l. split; [done|]. do 3 f_equal. lia.
Qed.

Lemma detach_listeners_missing ls k cb d w :
  Forall (fun l => is_Some (listener_at (heap w) l)) ls →
  find_listener (heap w) ls cb d = None →
  detach_listeners ls k cb d w = Ret None w.
Proof.
  intros Hv. revert k.
  induction Hv as [|l0 ls [x0 E0] _ IH]; simpl; intros k; [done|].
  unfold bind. rewrite E0, (load_listener_at _ _ _ E0).
  destruct (_ && _); [done|].
  destruct (find_listener (heap w) ls cb d); simpl; [done|]. auto.
Qed.

(** The scan of the groups fails when no group of the type has such a
    listener. *)
Lemma detach_groups_missing gs t cb d w :
  Forall (fun g =>
            is_Some (group_at (heap w) g)
            ∧ (type_of (heap w) g = t →
               Forall (fun l => is_Some (listener_at (heap w) l))
                      (listeners_of (heap w) g)
               ∧ find_listener (heap w) (listeners_of (heap w) g) cb d = None))
         gs →
  detach_groups gs t cb d w = Ret false w.
Proof.
  induction 1 as [|g0 gs [[grp0 E0] H0] _ IH]; simpl; [done|].
  unfold bind. rewrite (load_group_at _ _ _ E0).
  unfold type_of, listeners_of in H0. rewrite E0 in H0.
  destruct (event_type grp0 =? t) eqn:Et; [|done].
  destruct H0 as [Hv Hn]; [lia|]. by rewrite detach_listeners_missing.
Qed.

Lemma detach_groups_found gs t cb d w g grp i :
  object_lock (em w) = true →
  find_group (heap w) gs t = Some g →
  group_at (heap w) g = Some grp →
  find_listener (heap w) (listeners grp) cb d = Some i →
  ∃ l, listeners grp !! i = Some l
       ∧ detach_groups gs t cb d w
         = Ret true
             (mk_world
                (delete l
                   (<[g:=BGroup (mk_group (event_type grp)
                                   (delete i (listeners grp)))]> (heap w)))
                (set_lock false (em w)) (log w)).
Proof.
  intros Hlk Hf Hg Hi.
  destruct (detach_listeners_found _ 0%nat _ _ _ _ Hi) as (l & Hl & Hd).
  exists l. split; [done|].
  destruct (find_listener_Some _ _ _ _ _ Hi) as (l' & x & Hl' & Hx & _).
  assert (l' = l) as -> by congruence.
  induction gs as [|g0 gs IH]; simpl in *; [done|].
  destruct (group_at (heap w) g0) as [grp0|] eqn:E0; [|done].
  unfold bind at 1. rewrite (load_group_at _ _ _ E0).
  destruct (_ =? _); [|auto]. injection Hf as ->.
  assert (grp0 = grp) as -> by congruence.
  unfold bind at 1. rewrite Hd. simpl.
  unfold bind at 1. rewrite (store_group_at _ _ _ _ E0).
  assert (g ≠ l) as Hne by (intros ->; eauto using group_not_listener).
  unfold bind at 1. erewrite free_at; simpl.
  - unfold bind. by rewrite unlock_held.
  - rewrite lookup_insert_ne by done. by apply listener_at_Some.
Qed.

Lemma detach_found t cb d w g grp i :
  object_lock (em w) = false →
  find_group (heap w) (listeners_groups (em w)) t = Some g →
  group_at (heap w) g = Some grp →
  find_listener (heap w) (listeners grp) cb d = Some i →
  ∃ l, listeners grp !! i = Some l
       ∧ vlc_event_detach t cb d w
         = Ret VLC_SUCCESS
             (mk_world
                (delete l
                   (<[g:=BGroup (mk_group (event_type grp)
                                   (delete i (listeners grp)))]> (heap w)))
                (em w) (log w)).
Proof.
  intros Hlk Hf Hg Hi.
  destruct (detach_groups_found (listeners_groups (em w)) t cb d
              (with_lock true w) g grp i) as (l & Hl & Hd); try done.
  exists l. split; [done|].
  unfold vlc_event_detach, bind at 1. rewrite lock_free by done.
  unfold bind at 1, get_em. unfold bind at 1. simpl. rewrite Hd. simpl.
  unfold ret. by rewrite set_lock_set_lock, set_lock_id.
Qed.

(** *** register *)

Lemma register_enomem t w :
  malloc (heap w) = None → register t w = Ret VLC_ENOMEM w.
Proof.
  intros H. unfold vlc_event_manager_register_event_type, bind, alloc.
  by rewrite H.
Qed.

Lemma register_ok t w g :
  object_lock (em w) = false →
  malloc (heap w) = Some g →
  register t w
  = Ret VLC_SUCCESS
      (mk_world (<[g:=BGroup (mk_group t [])]> (heap w))
         (mk_em (p_obj (em w)) (p_parent_object (em w)) false
            (listeners_groups (em w) ++ [g]))
         (log w)).
Proof.
  intros Hlk H. unfold vlc_event_manager_register_event_type, bind at 1, alloc.
  rewrite H. unfold bind at 1. by rewrite lock_free.
Qed.

(** *** The dispatch loop *)

Lemma bind_Ret {A B} (m : M A) (k : A → M B) w b w' :
  bind m k w = Ret b w' ↔ ∃ a w1, m w = Ret a w1 ∧ k a w1 = Ret b w'.
Proof.
  unfold bind. destruct (m w) as [a w1| | |]; split;
    try done; try by intros (? & ? & ? & ?).
  - by exists a, w1.
  - by intros (? & ? & [= <- <-] & ?).
Qed.

Lemma load_group_Ret g w grp w' :
  load_group g w = Ret grp w' ↔ group_at (heap w) g = Some grp ∧ w' = w.
Proof.
  unfold load_group, group_at.
  destruct (heap w !! g) as [[]|]; split; try done; try by intros [? ?].
  - by intros [= <- <-].
  - by intros [[= <-] ->].
Qed.

Lemma load_listener_Ret l w x w' :
  load_listener l w = Ret x w' ↔ listener_at (heap w) l = Some x ∧ w' = w.
Proof.
  unfold load_listener, listener_at.
  destruct (heap w !! l) as [[]|]; split; try done; try by intros [? ?].
  - by intros [= <- <-].
  - by intros [[= <-] ->].
Qed.

Lemma loop_end fuel g ev i w grp :
  group_at (heap w) g = Some grp → listeners grp !! i = None →
  loop fuel g ev i w = Ret tt w.
Proof.
  intros Hg Hi. destruct fuel; simpl; unfold bind;
    by rewrite (load_group_at _ _ _ Hg), Hi.
Qed.

Lemma loop_timeout g ev i w grp l :
  group_at (heap w) g = Some grp → listeners grp !! i = Some l →
  loop 0 g ev i w = Timeout.
Proof.
  intros Hg Hi. simpl; unfold bind. by rewrite (load_group_at _ _ _ Hg), Hi.
Qed.

Lemma loop_step fuel g ev i w grp l x :
  object_lock (em w) = true →
  group_at (heap w) g = Some grp → listeners grp !! i = Some l →
  listener_at (heap w) l = Some x →
  loop (S fuel) g ev i w
  = bind (run_actions malloc (send_with (loop fuel))
            (callback_body (pf_callback x) ev (p_user_data x)))
         (fun _ => bind vlc_mutex_lock (fun _ => loop fuel g ev (S i)))
         (mk_world (heap w) (set_lock false (em w))
            (log w ++ [Call (pf_callback x) ev (p_user_data x)])).
Proof.
  intros Hlk Hg Hi Hx. simpl; unfold bind at 1.
  rewrite (load_group_at _ _ _ Hg), Hi. unfold bind at 1.
  rewrite (load_listener_at _ _ _ Hx). unfold bind at 1.
  by rewrite unlock_held.
Qed.

(** Callbacks that do not call back: the loop invokes the listeners from
    index [i] on, one after the other, and changes nothing else. *)
Lemma loop_inert g ev grp fuel : ∀ i w,
  object_lock (em w) = true →
  group_at (heap w) g = Some grp →
  Forall (fun l => is_Some (listener_at (heap w) l)) (listeners grp) →
  (∀ l x, l ∈ listeners grp → listener_at (heap w) l = Some x →
          callback_body (pf_callback x) ev (p_user_data x) = []) →
  (length (listeners grp) - i ≤ fuel)%nat →
  loop fuel g ev i w
  = Ret tt (mk_world (heap w) (em w)
              (log w ++ dispatch_log ev
                          (omap (listener_at (heap w))
                                (drop i (listeners grp))))).
Proof.
  induction fuel as [|fuel IH]; intros i w Hlk Hg Hv Hb Hlen.
  - erewrite loop_end; [|done|apply lookup_ge_None; lia].
    rewrite drop_ge by lia. simpl. rewrite app_nil_r. by destruct w.
  - destruct (listeners grp !! i) as [l|] eqn:Hi.
    + assert (l ∈ listeners grp) as Hin by (by eapply list_elem_of_lookup_2).
      destruct (proj1 (Forall_forall _ _) Hv l Hin) as [x Hx].
      rewrite (loop_step _ _ _ _ _ _ _ _ Hlk Hg Hi Hx), (Hb l x Hin Hx).
      unfold bind; simpl. unfold vlc_mutex_lock; simpl.
      unfold with_lock; simpl.
      rewrite set_lock_set_lock, set_lock_id by done.
      rewrite IH; simpl; try done.
      * rewrite (drop_S _ _ _ Hi). simpl. rewrite Hx. simpl.
        by rewrite <- app_assoc.
      * lia.
    + rewrite (loop_end _ _ _ _ _ _ Hg Hi).
      apply lookup_ge_None in Hi. rewrite drop_ge by lia. simpl.
      rewrite app_nil_r. by destruct w.
Qed.

(** *** send *)

Lemma send_found fuel ev w g :
  object_lock (em w) = false →
  find_group (heap w) (listeners_groups (em w)) (ev_type ev) = Some g →
  send fuel ev w
  = bind (loop fuel g (stamp (em w) ev) 0%nat)
         (fun _ => bind vlc_mutex_unlock (fun _ => ret (stamp (em w) ev)))
         (with_lock true w).
Proof.
  intros Hlk Hf. unfold vlc_event_send, send_with, bind at 1, get_em.
  unfold bind at 1. rewrite lock_free by done.
  unfold bind at 1. unfold bind at 1.
  by erewrite send_groups_found.
Qed.

Lemma send_missing fuel ev w :
  object_lock (em w) = false →
  Forall (fun g => is_Some (group_at (heap w) g)) (listeners_groups (em w)) →
  find_group (heap w) (listeners_groups (em w)) (ev_type ev) = None →
  send fuel ev w = Ret (stamp (em w) ev) w.
Proof.
  intros Hlk Hv Hf. unfold vlc_event_send, send_with, bind at 1, get_em.
  unfold bind at 1. rewrite lock_free by done.
  unfold bind at 1, bind at 1. rewrite send_groups_missing by done.
  unfold bind, vlc_mutex_unlock, ret; simpl.
  by rewrite with_lock_with_lock, with_lock_id.
Qed.

(** The event handed back only depends on the owner of the manager. *)
Lemma send_event lp ev w ev' w' :
  send_with lp ev w = Ret ev' w' → ev' = stamp (em w) ev.
Proof.
  unfold send_with, get_em. unfold bind at 1.
  intros (? & ? & _ & (? & ? & _ & H)%bind_Ret)%bind_Ret.
  apply bind_Ret in H as (? & ? & _ & (? & ? & _ & [= <- _])%bind_Ret).
  done.
Qed.

(** *** What every operation preserves

    A relation between states that is reflexive and transitive, that every
    invocation record and every API call a callback is allowed to make
    respects, is respected by [vlc_event_send], whatever the callbacks
    do. *)
Section Preservation.

Variable R : world → world → Prop.
Variable allowed : action → Prop.
Hypothesis R_refl : ∀ w, R w w.
Hypothesis R_trans : ∀ w1 w2 w3, R w1 w2 → R w2 w3 → R w1 w3.
Hypothesis R_log : ∀ w e, R w (mk_world (heap w) (em w) (log w ++ [e])).
Hypothesis R_register : ∀ t w s w',
  allowed (ActRegister t) → register t w = Ret s w' → R w w'.
Hypothesis R_attach : ∀ t cb d w s w',
  allowed (ActAttach t cb d) → attach t cb d w = Ret s w' → R w w'.
Hypothesis R_detach : ∀ t cb d w s w',
  allowed (ActDetach t cb d) → vlc_event_detach t cb d w = Ret s w' → R w w'.
Hypothesis body_allowed : ∀ f ev d, Forall allowed (callback_body f ev d).

Lemma send_groups_R lp :
  (∀ g ev i w w', object_lock (em w) = true → lp g ev i w = Ret tt w' →
                  object_lock (em w') = true
                  ∧ R (with_lock false w) (with_lock false w')) →
  ∀ gs ev w w', object_lock (em w) = true →
                send_groups lp gs ev w = Ret tt w' →
                object_lock (em w') = true
                ∧ R (with_lock false w) (with_lock false w').
Proof.
  intros Hlp gs ev. induction gs as [|g0 gs IH]; simpl; intros w w' Hlk.
  - by intros [= <-].
  - intros (grp & w1 & [_ ->]%load_group_Ret & H)%bind_Ret.
    destruct (_ =? _); eauto.
Qed.

Lemma send_with_R lp :
  (∀ g ev i w w', object_lock (em w) = true → lp g ev i w = Ret tt w' →
                  object_lock (em w') = true
                  ∧ R (with_lock false w) (with_lock false w')) →
  ∀ ev w ev' w', send_with lp ev w = Ret ev' w' → R w w'.
Proof.
  intros Hlp ev w ev' w'. unfold send_with, get_em. unfold bind at 1.
  intros ([] & w1 & [Hlk ->]%lock_Ret & H)%bind_Ret.
  unfold bind at 1 in H.
  apply bind_Ret in H as ([] & w2 & H2 & H).
  apply bind_Ret in H as ([] & w3 & [_ ->]%unlock_Ret & [= _ <-]).
  apply send_groups_R in H2 as [_ H2]; [|done..].
  by rewrite with_lock_with_lock, with_lock_id in H2.
Qed.

Lemma run_actions_R sd :
  (∀ ev w ev' w', sd ev w = Ret ev' w' → R w w') →
  ∀ acts w w', Forall allowed acts →
               run_actions malloc sd acts w = Ret tt w' → R w w'.
Proof.
  intros Hsd acts. induction acts as [|a acts IH]; simpl; intros w w' Hal.
  - by intros [= <-].
  - apply Forall_cons in Hal as [Ha Hal].
    intros ([] & w1 & H1 & H2)%bind_Ret.
    apply R_trans with w1; [|by apply IH].
    destruct a; simpl in H1;
      apply bind_Ret in H1 as (s & w2 & H1 & [= <-]); eauto.
Qed.

Lemma loop_R fuel : ∀ g ev i w w',
  object_lock (em w) = true → loop fuel g ev i w = Ret tt w' →
  object_lock (em w') = true ∧ R (with_lock false w) (with_lock false w').
Proof.
  induction fuel as [|fuel IH]; intros g ev i w w' Hlk; simpl.
  - intros (grp & w1 & [_ ->]%load_group_Ret & H)%bind_Ret.
    destruct (listeners grp !! i); [done|]. by injection H as <-.
  - intros (grp & w1 & [_ ->]%load_group_Ret & H)%bind_Ret.
    destruct (listeners grp !! i) as [l|]; [|by injection H as <-].
    apply bind_Ret in H as (x & w2 & [_ ->]%load_listener_Ret & H).
    apply bind_Ret in H as ([] & w2 & [_ ->]%unlock_Ret & H).
    apply bind_Ret in H as ([] & w2 & [= <-] & H).
    apply bind_Ret in H as ([] & w3 & H3 & H).
    apply bind_Ret in H as ([] & w4 & [Hlk3 ->]%lock_Ret & H).
    apply IH in H as [Hlk' H]; [|done]. split; [done|].
    rewrite with_lock_with_lock, (with_lock_id w3) in H by done.
    eapply R_trans; [apply R_log|]. eapply R_trans; [|exact H].
    eapply run_actions_R; [|apply body_allowed|exact H3].
    by apply send_with_R.
Qed.

Lemma send_R fuel ev w ev' w' : send fuel ev w = Ret ev' w' → R w w'.
Proof. apply send_with_R, loop_R. Qed.

End Preservation.

(** *** Well-formedness is an invariant *)

Lemma wf_same w w' : heap w' = heap w → em w' = em w → wf w → wf w'.
Proof. unfold wf. by intros -> ->. Qed.

Lemma wf_group w g :
  wf w → g ∈ listeners_groups (em w) → is_Some (group_at (heap w) g).
Proof. intros (_ & Hg & _) Hin. by apply (proj1 (Forall_forall _ _) Hg). Qed.

Lemma wf_lock w : wf w → object_lock (em w) = false.
Proof. by intros (H & _). Qed.

Lemma wf_groups w :
  wf w →
  Forall (fun g => is_Some (group_at (heap w) g)) (listeners_groups (em w)).
Proof. by intros (_ & H & _). Qed.

Lemma wf_listener w g grp l :
  wf w → g ∈ listeners_groups (em w) → group_at (heap w) g = Some grp →
  l ∈ listeners grp → is_Some (listener_at (heap w) l).
Proof.
  intros (_ & _ & Hl & _) Hin Hg Hlin.
  apply (proj1 (Forall_forall _ _) Hl). apply list_elem_of_bind.
  exists g. split; [|done]. unfold listeners_of. by rewrite Hg.
Qed.

Lemma wf_listeners w g grp :
  wf w → g ∈ listeners_groups (em w) → group_at (heap w) g = Some grp →
  Forall (fun l => is_Some (listener_at (heap w) l)) (listeners grp).
Proof. intros. apply Forall_forall. intros l ?. by eapply wf_listener. Qed.

(** A group with listeners is the first of its type. *)
Lemma wf_orphan w g grp :
  wf w → g ∈ listeners_groups (em w) → group_at (heap w) g = Some grp →
  find_group (heap w) (listeners_groups (em w)) (event_type grp) ≠ Some g →
  listeners grp = [].
Proof.
  intros (_ & _ & _ & _ & _ & Ho) Hin Hg Hf.
  destruct (proj1 (Forall_forall _ _) Ho g Hin) as [H|H];
    unfold listeners_of, type_of in H; rewrite Hg in H; done.
Qed.

Lemma find_group_types h h' gs t :
  Forall (fun g => event_type <$> group_at h' g = event_type <$> group_at h g)
         gs →
  find_group h' gs t = find_group h gs t.
Proof.
  induction 1 as [|g0 gs H0 _ IH]; simpl; [done|].
  destruct (group_at h' g0) as [a|], (group_at h g0) as [b|];
    simpl in H0; try done.
  injection H0 as ->. by rewrite IH.
Qed.

Lemma find_group_app h gs gs' t g :
  find_group h gs t = Some g → find_group h (gs ++ gs') t = Some g.
Proof.
  induction gs as [|g0 gs IH]; simpl; [done|].
  destruct (group_at h g0); [|done]. destruct (_ =? _); auto.
Qed.

(** Changing the listeners of one group changes one segment of the list of
    all listeners. *)
Lemma all_listeners_split h h' gs g :
  NoDup gs → g ∈ gs →
  (∀ g0, g0 ∈ gs → g0 ≠ g → listeners_of h' g0 = listeners_of h g0) →
  ∃ A B, all_listeners h gs = A ++ listeners_of h g ++ B
         ∧ all_listeners h' gs = A ++ listeners_of h' g ++ B.
Proof.
  intros Hnd Hin Hext.
  destruct (list_elem_of_split _ _ Hin) as (pre & post & ->).
  apply NoDup_app in Hnd as (_ & Hpre & [Hpost _]%NoDup_cons).
  exists (pre ≫= listeners_of h), (post ≫= listeners_of h).
  unfold all_listeners. rewrite !bind_app, !bind_cons. split; [done|].
  f_equal; [|f_equal]; apply Forall_bind_ext, Forall_forall; intros g0 Hg0;
    apply Hext; try (intros ->).
  - apply elem_of_app. by left.
  - by apply (Hpre g); [|left].
  - apply elem_of_app. right. by right.
  - done.
Qed.

(** The listeners of the first group of a type are replaced. *)
Lemma wf_update w h' lg g grp ls' :
  wf w →
  find_group (heap w) (listeners_groups (em w)) (event_type grp) = Some g →
  group_at (heap w) g = Some grp →
  group_at h' g = Some (mk_group (event_type grp) ls') →
  (∀ g0, g0 ∈ listeners_groups (em w) → g0 ≠ g →
         group_at h' g0 = group_at (heap w) g0) →
  (∀ A B, all_listeners (heap w) (listeners_groups (em w))
          = A ++ listeners grp ++ B →
          NoDup (A ++ ls' ++ B)
          ∧ Forall (fun l => is_Some (listener_at h' l)) (A ++ ls' ++ B)) →
  wf (mk_world h' (em w) lg).
Proof.
  intros Hwf Hf Hg Hg' Hext Hls.
  pose proof Hwf as (Hlk & Hv & Hl & Hnd & Hndl & Ho).
  destruct (find_group_Some _ _ _ _ Hf) as [Hin _].
  assert (∀ g0, g0 ∈ listeners_groups (em w) →
            event_type <$> group_at h' g0
            = event_type <$> group_at (heap w) g0) as Hty.
  { intros g0 Hg0. destruct (decide (g0 = g)) as [->|Hne].
    - by rewrite Hg, Hg'.
    - by rewrite Hext. }
  assert (∀ t, find_group h' (listeners_groups (em w)) t
               = find_group (heap w) (listeners_groups (em w)) t) as Hfg.
  { intros t. by apply find_group_types, Forall_forall. }
  destruct (all_listeners_split (heap w) h' _ g Hnd Hin) as (A & B & HA & HB).
  { intros g0 Hg0 Hne. unfold listeners_of. by rewrite Hext. }
  unfold listeners_of in HA, HB. rewrite Hg in HA. rewrite Hg' in HB.
  destruct (Hls A B HA) as [Hnd' Hl'].
  unfold wf; simpl. rewrite HB. repeat split; try done.
  - apply Forall_forall. intros g0 Hg0.
    destruct (decide (g0 = g)) as [->|Hne]; [by rewrite Hg'|].
    rewrite Hext by done. by apply (proj1 (Forall_forall _ _) Hv).
  - apply Forall_forall. intros g0 Hg0. rewrite Hfg.
    destruct (decide (g0 = g)) as [->|Hne].
    + right. unfold type_of. by rewrite Hg'.
    + unfold listeners_of, type_of. rewrite Hext by done.
      apply (proj1 (Forall_forall _ _) Ho g0 Hg0).
Qed.

Lemma perm_snoc_middle (A ls B : list Z) l :
  A ++ (ls ++ [l]) ++ B ≡ₚ l :: (A ++ ls ++ B).
Proof.
  rewrite <- (assoc_L (++) ls [l] B); simpl.
  rewrite (assoc_L (++) A ls (l :: B)).
  rewrite <- Permutation_middle. by rewrite <- (assoc_L (++)).
Qed.

Lemma perm_delete_middle (A ls B : list Z) i l :
  ls !! i = Some l → A ++ ls ++ B ≡ₚ l :: (A ++ delete i ls ++ B).
Proof.
  intros H. rewrite (delete_Permutation ls i l H) at 1. simpl.
  by rewrite <- Permutation_middle.
Qed.

Lemma detach_missing t cb d w :
  wf w →
  match find_group (heap w) (listeners_groups (em w)) t with
  | Some g => find_listener (heap w) (listeners_of (heap w) g) cb d = None
  | None => True
  end →
  vlc_event_detach t cb d w
  = Ret VLC_EGENERIC
      (mk_world (heap w) (em w)
         (log w ++ [MsgWarn (p_parent_object (em w))
                      "Can't detach to an object event manager event"])).
Proof.
  intros Hwf Hf. pose proof (wf_lock _ Hwf) as Hlk.
  unfold vlc_event_detach, bind at 1. rewrite lock_free by done.
  unfold bind at 1, get_em. unfold bind at 1.
  rewrite detach_groups_missing.
  { unfold bind, vlc_mutex_unlock, emit, ret; simpl.
    by rewrite set_lock_set_lock, set_lock_id. }
  simpl. apply Forall_forall. intros g0 Hg0.
  destruct (wf_group _ _ Hwf Hg0) as [grp0 E0]. split; [by exists grp0|].
  intros Ht. destruct (find_group _ _ t) as [g|] eqn:Efg.
  - destruct (decide (g0 = g)) as [->|Hne].
    + split; [|done]. unfold listeners_of. rewrite E0. by eapply wf_listeners.
    + unfold type_of in Ht. rewrite E0 in Ht. unfold listeners_of. rewrite E0.
      rewrite (wf_orphan _ _ _ Hwf Hg0 E0); [done|]. rewrite Ht, Efg. congruence.
  - by destruct (find_group_None _ _ _ _ (wf_groups _ Hwf) Efg Hg0).
Qed.

Lemma wf_init p parent w s w' :
  vlc_event_manager_init p parent w = Ret s w' → wf w'.
Proof.
  intros [= _ <-]. unfold wf; simpl. repeat split; constructor.
Qed.

Lemma wf_register t w s w' : wf w → register t w = Ret s w' → wf w'.
Proof.
  intros Hwf. destruct (malloc (heap w)) as [g|] eqn:Hm.
  2:{ rewrite register_enomem by done. by intros [= _ <-]. }
  rewrite (register_ok _ _ _ (wf_lock _ Hwf) Hm). intros [= _ <-].
  pose proof (malloc_fresh _ _ Hm) as Hg.
  pose proof Hwf as (Hlk & Hv & Hl & Hnd & Hndl & Ho).
  set (h' := <[g:=BGroup (mk_group t [])]> (heap w)).
  assert (∀ g0, g0 ∈ listeners_groups (em w) →
                group_at h' g0 = group_at (heap w) g0) as Hext.
  { intros g0 Hg0. apply group_at_alloc; [done|]. by apply wf_group. }
  assert (g ∉ listeners_groups (em w)) as Hnin.
  { intros Hin. destruct (wf_group _ _ Hwf Hin) as [grp Hgrp].
    apply group_at_Some in Hgrp. congruence. }
  assert (all_listeners h' (listeners_groups (em w) ++ [g])
          = all_listeners (heap w) (listeners_groups (em w))) as Hall.
  { unfold all_listeners. rewrite bind_app, bind_singleton.
    unfold listeners_of at 2. unfold h'. rewrite group_at_insert_group; simpl.
    rewrite app_nil_r. apply Forall_bind_ext, Forall_forall. intros g0 Hg0.
    unfold listeners_of. by rewrite Hext. }
  unfold wf; simpl. fold h'. rewrite Hall. repeat split; try done.
  - apply Forall_app. split.
    + apply Forall_forall. intros g0 Hg0. rewrite Hext by done.
      by apply wf_group.
    + constructor; [|constructor]. unfold h'. by rewrite group_at_insert_group.
  - eapply Forall_impl; [exact Hl|]. intros l [x Hx]; simpl.
    unfold h'. rewrite listener_at_alloc; by eauto.
  - apply NoDup_app. repeat split; try done.
    + intros g0 Hg0 ->%list_elem_of_singleton. done.
    + apply NoDup_singleton.
  - apply Forall_app. split.
    + apply Forall_forall. intros g0 Hg0.
      unfold listeners_of, type_of. rewrite Hext by done.
      destruct (proj1 (Forall_forall _ _) Ho g0 Hg0) as [H|H]; [by left|right].
      apply find_group_app. eapply find_group_ext_Some; [|exact H].
      intros g1 Hg1. by apply group_at_alloc.
    + constructor; [|constructor]. left. unfold listeners_of, h'.
      by rewrite group_at_insert_group.
Qed.

Lemma wf_attach t cb d w s w' : wf w → attach t cb d w = Ret s w' → wf w'.
Proof.
  intros Hwf. destruct (malloc (heap w)) as [l|] eqn:Hm.
  2:{ rewrite attach_enomem by done. by intros [= _ <-]. }
  pose proof (malloc_fresh _ _ Hm) as Hl.
  destruct (find_group (heap w) (listeners_groups (em w)) t) as [g|] eqn:Hf.
  2:{ rewrite (attach_missing _ _ _ _ _ (wf_lock _ Hwf) (wf_groups _ Hwf) Hm Hf).
      intros [= _ <-]. by eapply wf_same. }
  destruct (find_group_Some _ _ _ _ Hf) as (Hin & grp & Hg & <-).
  rewrite (attach_found _ _ _ _ _ _ _ (wf_lock _ Hwf) Hm Hf Hg). intros [= _ <-].
  assert (g ≠ l) as Hgl by (intros ->; apply group_at_Some in Hg; congruence).
  eapply wf_update; [done..| | |].
  - apply group_at_insert_group.
  - intros g0 Hg0 Hne. rewrite group_at_insert_ne by done.
    apply group_at_alloc; [done|]. by apply wf_group.
  - intros A B HAB. destruct Hwf as (_ & _ & Hv & _ & Hnd & _).
    rewrite HAB in Hv, Hnd.
    assert (l ∉ A ++ listeners grp ++ B) as Hnin.
    { intros Hlin. destruct (proj1 (Forall_forall _ _) Hv l Hlin) as [x Hx].
      apply listener_at_Some in Hx. congruence. }
    split.
    + rewrite perm_snoc_middle. by apply NoDup_cons.
    + apply Forall_forall. intros l0 Hl0.
      assert (l0 = l ∨ l0 ∈ A ++ listeners grp ++ B) as [->|Hold].
      { rewrite !elem_of_app in Hl0. rewrite !elem_of_app.
        rewrite list_elem_of_singleton in Hl0. tauto. }
      * rewrite listener_at_insert_ne by done.
        by rewrite listener_at_insert_listener.
      * destruct (proj1 (Forall_forall _ _) Hv l0 Hold) as [x Hx].
        rewrite listener_at_insert_ne
          by (intros <-; eauto using group_not_listener).
        rewrite listener_at_alloc; by eauto.
Qed.

Lemma wf_detach t cb d w s w' :
  wf w → vlc_event_detach t cb d w = Ret s w' → wf w'.
Proof.
  intros Hwf.
  destruct (find_group (heap w) (listeners_groups (em w)) t) as [g|] eqn:Hf.
  2:{ rewrite detach_missing by (done || by rewrite Hf).
      intros [= _ <-]. by eapply wf_same. }
  destruct (find_group_Some _ _ _ _ Hf) as (Hin & grp & Hg & <-).
  destruct (find_listener (heap w) (listeners grp) cb d) as [i|] eqn:Hi.
  2:{ rewrite detach_missing; [|done|].
      - intros [= _ <-]. by eapply wf_same.
      - rewrite Hf. unfold listeners_of. by rewrite Hg. }
  destruct (detach_found _ _ _ _ _ _ _ (wf_lock _ Hwf) Hf Hg Hi) as (l & Hl & ->).
  intros [= _ <-].
  destruct (find_listener_Some _ _ _ _ _ Hi) as (l' & x & Hl' & Hx & _).
  assert (l' = l) as -> by congruence.
  assert (∀ g0, is_Some (group_at (heap w) g0) → l ≠ g0) as Hlg.
  { intros g0 [grp0 Hg0] ->. eauto using group_not_listener. }
  eapply wf_update; [done..| | |].
  - rewrite group_at_delete_ne by eauto. apply group_at_insert_group.
  - intros g0 Hg0 Hne.
    rewrite group_at_delete_ne by (apply Hlg; by apply wf_group).
    by rewrite group_at_insert_ne.
  - intros A B HAB. destruct Hwf as (_ & _ & Hv & _ & Hnd & _).
    rewrite HAB in Hv, Hnd.
    rewrite (perm_delete_middle _ _ _ _ _ Hl) in Hnd.
    apply NoDup_cons in Hnd as [Hnin Hnd]. split; [done|].
    apply Forall_forall. intros l0 Hl0.
    assert (l0 ∈ A ++ listeners grp ++ B) as Hold.
    { rewrite !elem_of_app in Hl0. rewrite !elem_of_app.
      destruct Hl0 as [?|[?%list_elem_of_delete_inv|?]]; tauto. }
    destruct (proj1 (Forall_forall _ _) Hv l0 Hold) as [x0 Hx0].
    rewrite listener_at_delete_ne by (by intros <-).
    rewrite listener_at_insert_ne
      by (intros <-; eauto using group_not_listener).
    by eauto.
Qed.

Lemma wf_send fuel ev w ev' w' : wf w → send fuel ev w = Ret ev' w' → wf w'.
Proof.
  intros Hwf Hs. revert Hwf.
  refine (send_R (fun w w' => wf w → wf w') (fun _ => True)
            _ _ _ _ _ _ _ fuel ev w ev' w' Hs).
  - done.
  - auto.
  - intros w0 e. by apply wf_same.
  - intros ???? _ ??. by eapply wf_register.
  - intros ?????? _ ??. by eapply wf_attach.
  - intros ?????? _ ??. by eapply wf_detach.
  - intros. by apply Forall_forall.
Qed.

Lemma reachable_wf w : reachable w → wf w.
Proof.
  induction 1 as [p parent w s w' H|fuel a w w' _ IH H].
  - by eapply wf_init.
  - destruct a; simpl in H; apply bind_Ret in H as (? & ? & H & [= <-]).
    + by eapply wf_register.
    + by eapply wf_attach.
    + by eapply wf_detach.
    + by eapply wf_send.
Qed.

(** *** A listener that detaches itself *)

Lemma new_log_app w w' (es : list effect) :
  log w' = log w ++ es → new_log w w' = es.
Proof. unfold new_log. intros ->. by rewrite drop_app_length. Qed.

Lemma new_log_mk w h m (es : list effect) :
  new_log w (mk_world h m (log w ++ es)) = es.
Proof. by apply new_log_app. Qed.

Lemma listeners_of_Some h g ls :
  listeners_of h g = ls → ls ≠ [] →
  ∃ grp, group_at h g = Some grp ∧ listeners grp = ls.
Proof.
  unfold listeners_of. destruct (group_at h g) as [grp|]; [by eauto|].
  by intros <-.
Qed.

Lemma send_self_detach w T A dA lb ev g la fuel :
  object_lock (em w) = false →
  find_group (heap w) (listeners_groups (em w)) T = Some g →
  listeners_of (heap w) g = [la; lb] →
  listener_at (heap w) la = Some (mk_listener dA A) →
  ev_type ev = T →
  callback_body A (stamp (em w) ev) dA = [ActDetach T A dA] →
  send (S fuel) ev w
  = Ret (stamp (em w) ev)
      (mk_world (delete la (<[g:=BGroup (mk_group T [lb])]> (heap w)))
         (em w) (log w ++ [Call A (stamp (em w) ev) dA])).
Proof.
  intros Hlk Hf Hls Hla HT Hbody.
  destruct (listeners_of_Some _ _ _ Hls) as (grp & Hg & Hgl); [done|].
  destruct (find_group_Some _ _ _ _ Hf) as (_ & grp' & Hg' & Hty).
  assert (grp' = grp) as -> by congruence.
  rewrite send_found with (g := g) by (done || by rewrite HT).
  unfold bind at 1.
  erewrite (loop_step _ _ _ _ (with_lock true w)); simpl;
    [|done|done|by rewrite Hgl|done].
  cbn [pf_callback p_user_data]. rewrite Hbody.
  rewrite set_lock_set_lock, set_lock_id by done. simpl.
  unfold bind at 1. unfold bind at 1. unfold bind at 1.
  edestruct (detach_found T A dA
               (mk_world (heap w) (em w)
                  (log w ++ [Call A (stamp (em w) ev) dA])) g grp 0%nat)
    as (l & Hl & ->); simpl; try done.
  { rewrite Hgl. simpl. rewrite Hla. simpl. rewrite !Z.eqb_refl. reflexivity. }
  rewrite Hgl in Hl. injection Hl as <-. rewrite Hgl, Hty. simpl.
  unfold bind at 1. rewrite lock_free by done.
  erewrite loop_end; simpl.
  - unfold bind, vlc_mutex_unlock, ret, with_lock; simpl.
    by rewrite set_lock_set_lock, set_lock_id.
  - rewrite group_at_delete_ne by (intros ->; eauto using group_not_listener).
    apply group_at_insert_group.
  - done.
Qed.

(** *** Callbacks that do not call back *)

Lemma omap_ext_in {A B} (f f' : A → option B) (xs : list A) :
  (∀ x, x ∈ xs → f' x = f x) → omap f' xs = omap f xs.
Proof.
  induction xs as [|x xs IH]; intros H; [done|]. csimpl.
  rewrite (H x) by left. rewrite IH; [done|]. intros y Hy. apply H. by right.
Qed.

Lemma omap_valid_length {A B} (f : A → option B) (xs : list A) :
  Forall (fun x => is_Some (f x)) xs → length (omap f xs) = length xs.
Proof.
  induction 1 as [|x xs [y Hy] _ IH]; [done|]. csimpl. rewrite Hy. simpl.
  by f_equal.
Qed.

Lemma calls_to_dispatch cb ev xs :
  calls_to cb (dispatch_log ev xs)
  = dispatch_log ev (List.filter (fun x => pf_callback x =? cb) xs).
Proof.
  induction xs as [|x xs IH]; simpl; [done|].
  destruct (pf_callback x =? cb); simpl; by rewrite IH.
Qed.

Lemma filter_none (xs : list vlc_event_listener_t) cb :
  Forall (fun x => pf_callback x ≠ cb) xs →
  List.filter (fun x => pf_callback x =? cb) xs = [].
Proof.
  induction 1 as [|x xs Hx _ IH]; simpl; [done|].
  destruct (pf_callback x =? cb) eqn:E; [lia|done].
Qed.

Lemma send_inert fuel ev w g :
  wf w →
  find_group (heap w) (listeners_groups (em w)) (ev_type ev) = Some g →
  Forall (fun x => callback_body (pf_callback x) (stamp (em w) ev)
                     (p_user_data x) = [])
         (entries_of (heap w) g) →
  (length (entries_of (heap w) g) ≤ fuel)%nat →
  send fuel ev w
  = Ret (stamp (em w) ev)
      (mk_world (heap w) (em w)
         (log w ++ dispatch_log (stamp (em w) ev) (entries_of (heap w) g))).
Proof.
  intros Hwf Hf Hin Hfuel. pose proof (wf_lock _ Hwf) as Hlk.
  rewrite (send_found _ _ _ _ Hlk Hf).
  destruct (find_group_Some _ _ _ _ Hf) as (Hg & grp & Hgrp & _).
  pose proof (wf_listeners _ _ _ Hwf Hg Hgrp) as Hv.
  unfold entries_of, listeners_of in *. rewrite Hgrp in *.
  rewrite omap_valid_length in Hfuel by done.
  unfold bind at 1. rewrite (loop_inert g _ grp); simpl; try done.
  - unfold bind, vlc_mutex_unlock, ret, with_lock; simpl.
    by rewrite set_lock_set_lock, set_lock_id.
  - intros l x Hl Hx. apply (proj1 (Forall_forall _ _) Hin).
    apply list_elem_of_omap. by exists l.
  - lia.
Qed.

(** *** A listener that detaches itself, and the next send *)

(** C1 (as the code has it): in a well-formed state with the listeners
    [A, B] attached in this order to the first group of type T, when the
    callback of A calls [vlc_event_detach( T, A, dataA )] during a send of
    an event of type T, the send returns after the call of A alone: the
    loop walks the array of the group itself, the removal moves B to index
    0 and the loop goes on at index 1, so the callback of B is not invoked
    by this send.  B stays attached: the state left is well-formed, the
    group is still the first of type T, B is its only listener, on a live
    block; and the next send of an event of type T, when the callback of B
    does not call back into the manager, returns and invokes the callback
    of B, once. *)
Theorem self_detach_skips_next w T A dA B dB ev g la lb fuel :
  wf w →
  find_group (heap w) (listeners_groups (em w)) T = Some g →
  listeners_of (heap w) g = [la; lb] →
  listener_at (heap w) la = Some (mk_listener dA A) →
  listener_at (heap w) lb = Some (mk_listener dB B) →
  ev_type ev = T →
  callback_body A (stamp (em w) ev) dA = [ActDetach T A dA] →
  ∃ w', send (S fuel) ev w = Ret (stamp (em w) ev) w'
        ∧ new_log w w' = [Call A (stamp (em w) ev) dA]
        ∧ (B ≠ A → calls_to B (new_log w w') = [])
        ∧ wf w' ∧ em w' = em w
        ∧ find_group (heap w') (listeners_groups (em w')) T = Some g
        ∧ listeners_of (heap w') g = [lb]
        ∧ listener_at (heap w') lb = Some (mk_listener dB B)
        ∧ ∀ ev2 fuel2,
            ev_type ev2 = T →
            callback_body B (stamp (em w) ev2) dB = [] →
            ∃ w'', send (S fuel2) ev2 w' = Ret (stamp (em w) ev2) w''
                   ∧ new_log w' w'' = [Call B (stamp (em w) ev2) dB]
                   ∧ calls_to B (new_log w' w'')
                     = [Call B (stamp (em w) ev2) dB].
Proof.
  intros Hwf Hf Hls Hla Hlb HT Hbody. pose proof (wf_lock _ Hwf) as Hlk.
  pose proof (send_self_detach w T A dA lb ev g la fuel Hlk Hf Hls Hla HT Hbody)
    as Hs.
  pose proof (wf_send _ _ _ _ _ Hwf Hs) as Hwf'.
  destruct (find_group_Some _ _ _ _ Hf) as (Hin & grp & Hg & Hty).
  assert (g ≠ la) as Hgla by (intros ->; eauto using group_not_listener).
  set (h' := delete la (<[g:=BGroup (mk_group T [lb])]> (heap w))) in Hs, Hwf'.
  assert (group_at h' g = Some (mk_group T [lb])) as Hg'.
  { unfold h'. rewrite group_at_delete_ne by done. apply group_at_insert_group. }
  assert (listeners_of h' g = [lb]) as Hls'.
  { unfold listeners_of. by rewrite Hg'. }
  assert (listener_at h' lb = Some (mk_listener dB B)) as Hlb'.
  { destruct (wf_listener _ g (mk_group T [lb]) lb Hwf' Hin Hg') as [x Hx].
    { simpl. by left. }
    simpl in Hx. unfold h' in Hx |- *.
    assert (la ≠ lb) as Hne.
    { intros ->. unfold listener_at in Hx.
      by rewrite lookup_delete_eq in Hx. }
    rewrite listener_at_delete_ne by done.
    rewrite listener_at_insert_ne
      by (intros <-; eauto using group_not_listener).
    done. }
  assert (find_group h' (listeners_groups (em w)) T = Some g) as Hf'.
  { rewrite <- Hf. apply find_group_types, Forall_forall. intros g0 Hg0.
    destruct (wf_group _ _ Hwf Hg0) as [grp0 E0]. unfold h'.
    rewrite group_at_delete_ne by (intros ->; eauto using group_not_listener).
    destruct (decide (g0 = g)) as [->|Hne].
    - rewrite group_at_insert_group, Hg. simpl. by rewrite Hty.
    - by rewrite group_at_insert_ne. }
  eexists. split; [exact Hs|].
  rewrite (new_log_app _ _ [Call A (stamp (em w) ev) dA]) by done.
  split; [done|]. split.
  { intros Hne. simpl. destruct (A =? B) eqn:E; [lia|done]. }
  split; [done|]. split; [done|]. split; [done|]. split; [done|].
  split; [done|].
  intros ev2 fuel2 HT2 HbB.
  assert (entries_of h' g = [mk_listener dB B]) as Hent.
  { unfold entries_of. rewrite Hls'. simpl. by rewrite Hlb'. }
  eexists. split.
  { apply (send_inert (S fuel2) ev2 _ g Hwf'); simpl.
    - by rewrite HT2.
    - rewrite Hent. by constructor.
    - rewrite Hent. simpl. lia. }
  rewrite new_log_mk. simpl. rewrite Hent. simpl. split; [done|].
  by rewrite Z.eqb_refl.
Qed.

(** *** What a successful attach changes *)

Lemma attach_success t cb d w w1 :
  wf w → attach t cb d w = Ret VLC_SUCCESS w1 →
  ∃ l g grp,
    malloc (heap w) = Some l
    ∧ find_group (heap w) (listeners_groups (em w)) t = Some g
    ∧ group_at (heap w) g = Some grp
    ∧ w1 = mk_world
             (<[g:=BGroup (mk_group (event_type grp) (listeners grp ++ [l]))]>
                (<[l:=BListener (mk_listener d cb)]> (heap w)))
             (em w) (log w).
Proof.
  intros Hwf. destruct (malloc (heap w)) as [l|] eqn:Hm.
  2:{ by rewrite attach_enomem. }
  destruct (find_group (heap w) (listeners_groups (em w)) t) as [g|] eqn:Hf.
  2:{ by rewrite (attach_missing _ _ _ _ _ (wf_lock _ Hwf) (wf_groups _ Hwf) Hm Hf). }
  destruct (find_group_Some _ _ _ _ Hf) as (Hin & grp & Hg & <-).
  rewrite (attach_found _ _ _ _ _ _ _ (wf_lock _ Hwf) Hm Hf Hg). intros [= <-].
  by exists l, g, grp.
Qed.

Lemma attach_view t cb d w w1 g :
  wf w →
  find_group (heap w) (listeners_groups (em w)) t = Some g →
  attach t cb d w = Ret VLC_SUCCESS w1 →
  wf w1 ∧ em w1 = em w ∧ log w1 = log w
  ∧ (∀ t', find_group (heap w1) (listeners_groups (em w)) t'
           = find_group (heap w) (listeners_groups (em w)) t')
  ∧ entries_of (heap w1) g = entries_of (heap w) g ++ [mk_listener d cb]
  ∧ (∀ l0, is_Some (listener_at (heap w) l0) →
           listener_at (heap w1) l0 = listener_at (heap w) l0)
  ∧ ∃ l, heap w !! l = None
         ∧ listeners_of (heap w1) g = listeners_of (heap w) g ++ [l]
         ∧ listener_at (heap w1) l = Some (mk_listener d cb).
Proof.
  intros Hwf Hf Ha. pose proof (wf_attach _ _ _ _ _ _ Hwf Ha) as Hwf1.
  destruct (attach_success _ _ _ _ _ Hwf Ha) as (l & g' & grp & Hm & Hf' & Hg & ->).
  assert (g' = g) as -> by congruence.
  pose proof (malloc_fresh _ _ Hm) as Hl.
  assert (g ≠ l) as Hgl by (intros ->; apply group_at_Some in Hg; congruence).
  destruct (find_group_Some _ _ _ _ Hf) as [Hin _].
  simpl. split_and!; try done.
  - intros t'. apply find_group_types, Forall_forall. intros g0 Hg0.
    destruct (decide (g0 = g)) as [->|Hne].
    + by rewrite group_at_insert_group, Hg.
    + rewrite group_at_insert_ne by done.
      rewrite group_at_alloc; [done..|]. by apply wf_group.
  - unfold entries_of, listeners_of. rewrite group_at_insert_group, Hg. simpl.
    rewrite omap_app. simpl.
    rewrite listener_at_insert_ne, listener_at_insert_listener by done.
    simpl. f_equal. apply omap_ext_in. intros l0 Hl0.
    destruct (wf_listener _ _ _ _ Hwf Hin Hg Hl0) as [x Hx].
    rewrite listener_at_insert_ne
      by (intros <-; eauto using group_not_listener).
    apply listener_at_alloc; by eauto.
  - intros l0 [x Hx].
    rewrite listener_at_insert_ne
      by (intros <-; eauto using group_not_listener).
    apply listener_at_alloc; by eauto.
  - exists l. repeat split; try done.
    + unfold listeners_of. by rewrite group_at_insert_group, Hg.
    + rewrite listener_at_insert_ne by done.
      apply listener_at_insert_listener.
Qed.

Lemma attach_each_view T xs : ∀ w ss w1 g,
  wf w →
  find_group (heap w) (listeners_groups (em w)) T = Some g →
  attach_each malloc T xs w = Ret ss w1 →
  Forall (eq VLC_SUCCESS) ss →
  wf w1 ∧ em w1 = em w ∧ log w1 = log w
  ∧ find_group (heap w1) (listeners_groups (em w)) T = Some g
  ∧ entries_of (heap w1) g = entries_of (heap w) g ++ xs.
Proof.
  induction xs as [|[d cb] xs IH]; simpl; intros w ss w1 g Hwf Hf.
  - intros [= <- <-] _. by rewrite app_nil_r.
  - intros (s & w' & Ha & (ss' & w'' & Hr & [= <- <-])%bind_Ret)%bind_Ret.
    intros [<- Hss]%Forall_cons.
    destruct (attach_view _ _ _ _ _ _ Hwf Hf Ha)
      as (Hwf' & Hem & Hlog & Hfg & Hent & _).
    destruct (IH w' ss' w'' g) as (Hwf1 & Hem1 & Hlog1 & Hf1 & Hent1);
      try done.
    { by rewrite Hem, Hfg. }
    rewrite Hem in *. rewrite Hent1, Hent, <- app_assoc.
    split_and!; try done; congruence.
Qed.

(** *** Attach, then send *)

(** C3 (as the code has it): the claim holds when the listeners of T do
    not call back into the manager, and fails otherwise (see
    [invoked_once_after_attach]).
    In a well-formed state where the first group of type T is [g],
    once [attach( T, cb, d )] has succeeded, a send of an event of type T
    whose listeners do not call back into the manager returns, given fuel
    for every listener.  It invokes the listeners that were there, then
    [cb] with the user data [d], once; every callback gets the event with
    its source set to the owner of the manager.  When no listener of [cb]
    was attached to T before, [cb] is invoked exactly once. *)
Theorem attach_then_send_once T cb d ev w w1 g fuel :
  wf w →
  find_group (heap w) (listeners_groups (em w)) T = Some g →
  attach T cb d w = Ret VLC_SUCCESS w1 →
  ev_type ev = T →
  Forall (fun x => callback_body (pf_callback x) (stamp (em w) ev)
                     (p_user_data x) = [])
         (entries_of (heap w1) g) →
  (length (entries_of (heap w1) g) ≤ fuel)%nat →
  ∃ ev' w2,
    send fuel ev w1 = Ret ev' w2
    ∧ ev_p_obj ev' = p_obj (em w) ∧ ev_type ev' = T ∧ ev_u ev' = ev_u ev
    ∧ new_log w1 w2
      = dispatch_log ev' (entries_of (heap w) g) ++ [Call cb ev' d]
    ∧ (Forall (fun x => pf_callback x ≠ cb) (entries_of (heap w) g) →
       calls_to cb (new_log w1 w2) = [Call cb ev' d]).
Proof.
  intros Hwf Hf Ha HT Hin Hfuel.
  destruct (attach_view _ _ _ _ _ _ Hwf Hf Ha)
    as (Hwf1 & Hem & Hlog & Hfg & Hent & _).
  assert (find_group (heap w1) (listeners_groups (em w1)) (ev_type ev)
          = Some g) as Hf1 by (by rewrite HT, Hem, Hfg).
  eexists _, _. split.
  { apply (send_inert fuel ev w1 g Hwf1 Hf1); [by rewrite Hem|done]. }
  rewrite new_log_mk, Hent, Hem. split_and!; try done.
  - apply map_app.
  - intros Hcb. rewrite calls_to_dispatch.
    rewrite List.filter_app, (filter_none _ _ Hcb). simpl.
    by rewrite Z.eqb_refl.
Qed.

(** C7 (as the code has it): the same attach twice makes two listeners,
    two blocks with the same callback and the same user data at the end of
    the array of the group, whatever the callbacks do.  The count of two
    holds when the listeners of T do not call back into the manager, and
    fails otherwise (see [invoked_twice_after_two_attaches]): under the
    conditions of C3, one send then invokes the listeners that were there
    and [cb] twice, exactly twice when no listener of [cb] was attached
    before. *)
Theorem attach_twice_send_twice T cb d w w1 w2 g :
  wf w →
  find_group (heap w) (listeners_groups (em w)) T = Some g →
  attach T cb d w = Ret VLC_SUCCESS w1 →
  attach T cb d w1 = Ret VLC_SUCCESS w2 →
  (∃ l1 l2,
      l1 ≠ l2
      ∧ listeners_of (heap w2) g = listeners_of (heap w) g ++ [l1; l2]
      ∧ listener_at (heap w2) l1 = Some (mk_listener d cb)
      ∧ listener_at (heap w2) l2 = Some (mk_listener d cb))
  ∧ ∀ ev fuel,
      ev_type ev = T →
      Forall (fun x => callback_body (pf_callback x) (stamp (em w) ev)
                         (p_user_data x) = [])
             (entries_of (heap w2) g) →
      (length (entries_of (heap w2) g) ≤ fuel)%nat →
      ∃ ev' w3,
        send fuel ev w2 = Ret ev' w3
        ∧ new_log w2 w3
          = dispatch_log ev' (entries_of (heap w) g)
            ++ [Call cb ev' d; Call cb ev' d]
        ∧ (Forall (fun x => pf_callback x ≠ cb) (entries_of (heap w) g) →
           calls_to cb (new_log w2 w3) = [Call cb ev' d; Call cb ev' d]).
Proof.
  intros Hwf Hf Ha1 Ha2.
  destruct (attach_view _ _ _ _ _ _ Hwf Hf Ha1)
    as (Hwf1 & Hem1 & Hlog1 & Hfg1 & Hent1 & _ & l1 & Hl1 & Hls1 & Hx1).
  assert (find_group (heap w1) (listeners_groups (em w1)) T = Some g) as Hf1.
  { by rewrite Hem1, Hfg1. }
  destruct (attach_view _ _ _ _ _ _ Hwf1 Hf1 Ha2)
    as (Hwf2 & Hem2 & Hlog2 & Hfg2 & Hent2 & Hfr & l2 & Hl2 & Hls2 & Hx2).
  split.
  - exists l1, l2. split_and!; try done.
    + intros ->. apply listener_at_Some in Hx1. congruence.
    + by rewrite Hls2, Hls1, <- app_assoc.
    + by rewrite Hfr, Hx1 by (by rewrite Hx1).
  - intros ev fuel HT Hin Hfuel.
    assert (find_group (heap w2) (listeners_groups (em w2)) (ev_type ev)
            = Some g) as Hf2 by (by rewrite HT, Hem2, Hfg2).
    eexists _, _. split.
    { apply (send_inert fuel ev w2 g Hwf2 Hf2); [by rewrite Hem2, Hem1|done]. }
    rewrite new_log_mk, Hent2, Hent1, <- app_assoc. simpl. split.
    + apply map_app.
    + intros Hcb. rewrite calls_to_dispatch.
      rewrite List.filter_app, (filter_none _ _ Hcb). simpl.
      by rewrite Z.eqb_refl.
Qed.

(** C8: listeners are invoked in the order of their attach calls.  After
    the attach calls for the listeners [xs], in this order and all
    successful, a send whose listeners do not call back into the manager
    invokes the listeners that were attached before, then those of [xs],
    in the order of the list. *)
Theorem send_in_registration_order T xs ev w ss w1 g fuel :
  wf w →
  find_group (heap w) (listeners_groups (em w)) T = Some g →
  attach_each malloc T xs w = Ret ss w1 →
  Forall (eq VLC_SUCCESS) ss →
  ev_type ev = T →
  Forall (fun x => callback_body (pf_callback x) (stamp (em w) ev)
                     (p_user_data x) = [])
         (entries_of (heap w1) g) →
  (length (entries_of (heap w1) g) ≤ fuel)%nat →
  ∃ ev' w2,
    send fuel ev w1 = Ret ev' w2
    ∧ new_log w1 w2 = dispatch_log ev' (entries_of (heap w) g ++ xs).
Proof.
  intros Hwf Hf Ha Hss HT Hin Hfuel.
  destruct (attach_each_view _ _ _ _ _ _ Hwf Hf Ha Hss)
    as (Hwf1 & Hem & Hlog & Hfg & Hent).
  assert (find_group (heap w1) (listeners_groups (em w1)) (ev_type ev)
          = Some g) as Hf1 by (by rewrite HT, Hem).
  eexists _, _. split.
  { apply (send_inert fuel ev w1 g Hwf1 Hf1); [by rewrite Hem|done]. }
  by rewrite new_log_mk, Hent.
Qed.

(** *** Unregistered types *)

Lemma find_group_unregistered w t :
  wf w →
  Forall (fun g => type_of (heap w) g ≠ t) (listeners_groups (em w)) →
  find_group (heap w) (listeners_groups (em w)) t = None.
Proof.
  intros Hwf Hty. destruct (find_group _ _ t) as [g|] eqn:Hf; [|done].
  destruct (find_group_Some _ _ _ _ Hf) as (Hin & grp & Hg & Ht).
  destruct (proj1 (Forall_forall _ _) Hty g Hin).
  unfold type_of. by rewrite Hg.
Qed.

(** C4: a send of an event whose type matches no registered group returns
    (whatever the fuel) and leaves the whole state as it was: no callback
    is invoked, nothing is reported, no group and no listener changes. *)
Theorem send_unregistered_noop fuel ev w :
  wf w →
  Forall (fun g => type_of (heap w) g ≠ ev_type ev) (listeners_groups (em w)) →
  ∃ ev', send fuel ev w = Ret ev' w.
Proof.
  intros Hwf Hty. exists (stamp (em w) ev).
  apply send_missing; [by apply wf_lock|by apply wf_groups|].
  by apply find_group_unregistered.
Qed.

(** C10: the event a send hands back has the owner of the manager as its
    source and the type and the payload it came with, whatever happened in
    between; when no group has the type of the event, this is all the send
    does. *)
Theorem send_stamps_source fuel ev w :
  wf w →
  (∀ ev' w', send fuel ev w = Ret ev' w' →
             ev' = mk_event (ev_type ev) (p_obj (em w)) (ev_u ev))
  ∧ (Forall (fun g => type_of (heap w) g ≠ ev_type ev)
            (listeners_groups (em w)) →
     send fuel ev w
     = Ret (mk_event (ev_type ev) (p_obj (em w)) (ev_u ev)) w).
Proof.
  intros Hwf. split.
  - intros ev' w' Hs. by apply send_event in Hs.
  - intros Hty. apply send_missing; [by apply wf_lock|by apply wf_groups|].
    by apply find_group_unregistered.
Qed.

(** C5: an attach to a type that matches no registered group, once its
    listener is allocated, reports an error to the parent object, frees the
    listener and returns VLC_EGENERIC; the heap and the manager are as
    before, the block of the listener is not allocated any more. *)
Theorem attach_unregistered t cb d w l :
  wf w →
  Forall (fun g => type_of (heap w) g ≠ t) (listeners_groups (em w)) →
  malloc (heap w) = Some l →
  attach t cb d w
  = Ret VLC_EGENERIC
      (mk_world (heap w) (em w)
         (log w ++ [MsgErr (p_parent_object (em w))
                      "Can't attach to an object event manager event"]))
  ∧ heap w !! l = None.
Proof.
  intros Hwf Hty Hm. split; [|by apply malloc_fresh].
  apply (attach_missing _ _ _ _ l);
    [by apply wf_lock|by apply wf_groups|done|].
  by apply find_group_unregistered.
Qed.

(** C2: in a well-formed state (every state of a manager is one, see
    [reachable_wf]), detach removes from the first group of the type the
    first listener with this callback and this user data, frees
    its block and returns VLC_SUCCESS; one entry goes, whatever comes after
    it.  It warns and returns VLC_EGENERIC, leaving heap and manager as they
    were, exactly when no group has the type or the first group of the type
    has no such listener. *)
Theorem detach_first_match t cb d w :
  wf w →
  let h := heap w in
  let gs := listeners_groups (em w) in
  let warned :=
    mk_world h (em w)
      (log w ++ [MsgWarn (p_parent_object (em w))
                   "Can't detach to an object event manager event"]) in
  (∀ g i,
      find_group h gs t = Some g →
      find_listener h (listeners_of h g) cb d = Some i →
      ∃ l, listeners_of h g !! i = Some l
           ∧ listener_at h l = Some (mk_listener d cb)
           ∧ (∀ j l' x, (j < i)%nat → listeners_of h g !! j = Some l' →
                        listener_at h l' = Some x →
                        ¬ (pf_callback x = cb ∧ p_user_data x = d))
           ∧ vlc_event_detach t cb d w
             = Ret VLC_SUCCESS
                 (mk_world
                    (delete l
                       (<[g:=BGroup (mk_group t (delete i (listeners_of h g)))]>
                          h))
                    (em w) (log w)))
  ∧ (∀ g,
      find_group h gs t = Some g →
      find_listener h (listeners_of h g) cb d = None →
      (∀ l x, l ∈ listeners_of h g → listener_at h l = Some x →
              ¬ (pf_callback x = cb ∧ p_user_data x = d))
      ∧ vlc_event_detach t cb d w = Ret VLC_EGENERIC warned)
  ∧ (find_group h gs t = None →
      (∀ g, g ∈ gs → type_of h g ≠ t)
      ∧ vlc_event_detach t cb d w = Ret VLC_EGENERIC warned)
  ∧ ((∃ w', vlc_event_detach t cb d w = Ret VLC_EGENERIC w') ↔
     find_group h gs t = None
     ∨ ∃ g, find_group h gs t = Some g
            ∧ find_listener h (listeners_of h g) cb d = None).
Proof.
  intros Hwf h gs warned.
  assert (∀ g i,
            find_group h gs t = Some g →
            find_listener h (listeners_of h g) cb d = Some i →
            ∃ w', vlc_event_detach t cb d w = Ret VLC_SUCCESS w') as Hok.
  { intros g i Hf Hi.
    destruct (find_group_Some _ _ _ _ Hf) as (Hin & grp & Hg & Ht).
    unfold listeners_of in Hi. rewrite Hg in Hi.
    destruct (detach_found _ _ _ _ _ _ _ (wf_lock _ Hwf) Hf Hg Hi)
      as (l & _ & Hd).
    by eexists. }
  assert (find_group h gs t = None
          ∨ (∃ g, find_group h gs t = Some g
                  ∧ find_listener h (listeners_of h g) cb d = None) →
          vlc_event_detach t cb d w = Ret VLC_EGENERIC warned) as Hko.
  { intros [Hf|(g & Hf & Hi)]; (apply detach_missing; [done|]);
      fold h gs; by rewrite Hf. }
  split; [|split; [|split]].
  - intros g i Hf Hi.
    destruct (find_group_Some _ _ _ _ Hf) as (Hin & grp & Hg & Ht).
    assert (listeners_of h g = listeners grp) as Hls.
    { unfold listeners_of. by rewrite Hg. }
    rewrite Hls in *.
    destruct (detach_found _ _ _ _ _ _ _ (wf_lock _ Hwf) Hf Hg Hi) as (l & Hl & Hd).
    destruct (find_listener_Some _ _ _ _ _ Hi)
      as (l' & [d' cb'] & Hl' & Hx & Hcb & Hd').
    assert (l' = l) as -> by congruence. simpl in Hcb, Hd'. subst cb' d'.
    exists l. split_and!; try done.
    + intros j l' x Hj Hl'' Hx'. by eapply find_listener_first.
    + by rewrite Hd, Ht.
  - intros g Hf Hi.
    destruct (find_group_Some _ _ _ _ Hf) as (Hin & grp & Hg & Ht).
    split.
    + intros l x Hl Hx.
      apply (find_listener_None h (listeners_of h g) cb d l x); try done.
      unfold listeners_of. rewrite Hg. by apply (wf_listeners w g).
    + apply detach_missing; [done|]. fold h gs. by rewrite Hf.
  - intros Hf. split.
    + intros g Hg. eapply find_group_None; [by apply wf_groups|done..].
    + apply detach_missing; [done|]. fold h gs. by rewrite Hf.
  - split; [|by eauto].
    intros [w' Hd].
    destruct (find_group h gs t) as [g|] eqn:Hf; [|by left].
    destruct (find_listener h (listeners_of h g) cb d) as [i|] eqn:Hi;
      [|by eauto].
    destruct (Hok g i) as [w'' Hd']; [done..|]. congruence.
Qed.


(** *** The registered categories *)

Lemma categories_same w w' :
  em w' = em w →
  Forall (fun g => event_type <$> group_at (heap w') g
                   = event_type <$> group_at (heap w) g)
         (listeners_groups (em w)) →
  categories w' = categories w.
Proof.
  intros Hem Hty. unfold categories. rewrite Hem.
  apply map_ext_Forall. eapply Forall_impl; [exact Hty|].
  intros g Hg; simpl in *. unfold type_of.
  destruct (group_at (heap w') g), (group_at (heap w) g);
    simpl in Hg; congruence.
Qed.

Lemma categories_register t w s w' :
  wf w → register t w = Ret s w' →
  match s with
  | VLC_SUCCESS =>
      (∃ g, malloc (heap w) = Some g
            ∧ (g ∉ listeners_groups (em w))
            ∧ categories w' = categories w ++ [(g, t)])
  | _ => categories w' = categories w
  end.
Proof.
  intros Hwf. destruct (malloc (heap w)) as [g|] eqn:Hm.
  2:{ rewrite register_enomem by done. intros H. by simplify_eq. }
  rewrite (register_ok _ _ _ (wf_lock _ Hwf) Hm). intros H. simplify_eq.
  pose proof (malloc_fresh _ _ Hm) as Hg.
  assert (g ∉ listeners_groups (em w)) as Hnin.
  { intros Hin. destruct (wf_group _ _ Hwf Hin) as [grp Hgrp].
    apply group_at_Some in Hgrp. congruence. }
  exists g. split_and!; try done. unfold categories; simpl.
  rewrite map_app; simpl. unfold type_of at 2.
  rewrite group_at_insert_group; simpl. f_equal.
  apply map_ext_Forall, Forall_forall. intros g0 Hg0. unfold type_of.
  rewrite group_at_alloc; [done..|]. by apply wf_group.
Qed.

Lemma categories_attach t cb d w s w' :
  wf w → attach t cb d w = Ret s w' → categories w' = categories w.
Proof.
  intros Hwf. destruct (malloc (heap w)) as [l|] eqn:Hm.
  2:{ rewrite attach_enomem by done. by intros [= _ <-]. }
  pose proof (malloc_fresh _ _ Hm) as Hl.
  destruct (find_group (heap w) (listeners_groups (em w)) t) as [g|] eqn:Hf.
  2:{ rewrite (attach_missing _ _ _ _ _ (wf_lock _ Hwf) (wf_groups _ Hwf) Hm Hf). by intros [= _ <-]. }
  destruct (find_group_Some _ _ _ _ Hf) as (Hin & grp & Hg & <-).
  rewrite (attach_found _ _ _ _ _ _ _ (wf_lock _ Hwf) Hm Hf Hg). intros [= _ <-].
  apply categories_same; [done|]. apply Forall_forall. intros g0 Hg0; simpl.
  destruct (decide (g0 = g)) as [->|Hne].
  - by rewrite group_at_insert_group, Hg.
  - rewrite group_at_insert_ne by done.
    rewrite group_at_alloc; [done..|]. by apply wf_group.
Qed.

Lemma categories_detach t cb d w s w' :
  wf w → vlc_event_detach t cb d w = Ret s w' → categories w' = categories w.
Proof.
  intros Hwf.
  destruct (find_group (heap w) (listeners_groups (em w)) t) as [g|] eqn:Hf.
  2:{ rewrite detach_missing by (done || by rewrite Hf). by intros [= _ <-]. }
  destruct (find_group_Some _ _ _ _ Hf) as (Hin & grp & Hg & <-).
  destruct (find_listener (heap w) (listeners grp) cb d) as [i|] eqn:Hi.
  2:{ rewrite detach_missing; [by intros [= _ <-]|done|].
      rewrite Hf. unfold listeners_of. by rewrite Hg. }
  destruct (detach_found _ _ _ _ _ _ _ (wf_lock _ Hwf) Hf Hg Hi) as (l & Hl & ->).
  destruct (find_listener_Some _ _ _ _ _ Hi) as (l' & x & Hl' & Hx & _).
  assert (l' = l) as -> by congruence.
  intros [= _ <-].
  apply categories_same; [done|]. apply Forall_forall. intros g0 Hg0; simpl.
  destruct (wf_group _ _ Hwf Hg0) as [grp0 Hgrp0].
  rewrite group_at_delete_ne by (intros ->; eauto using group_not_listener).
  destruct (decide (g0 = g)) as [->|Hne].
  - by rewrite group_at_insert_group, Hg.
  - by rewrite group_at_insert_ne.
Qed.

Lemma categories_send_prefix fuel ev w ev' w' :
  wf w → send fuel ev w = Ret ev' w' →
  wf w' ∧ categories w `prefix_of` categories w'.
Proof.
  intros Hwf Hs. revert Hwf.
  refine (send_R
            (fun w w' => wf w → wf w' ∧ categories w `prefix_of` categories w')
            (fun _ => True) _ _ _ _ _ _ _ fuel ev w ev' w' Hs).
  - done.
  - intros w1 w2 w3 H12 H23 H1. destruct (H12 H1) as [H2 Hp12].
    destruct (H23 H2) as [H3 Hp23]. split; [done|by etrans].
  - intros w0 e Hwf0. split; [by eapply wf_same|done].
  - intros t w0 s w0' _ Hr Hwf0. split; [by eapply wf_register|].
    pose proof (categories_register _ _ _ _ Hwf0 Hr) as H.
    destruct s; try (by rewrite H).
    destruct H as (g & _ & _ & ->). by apply prefix_app_r.
  - intros t cb d w0 s w0' _ Ha Hwf0. split; [by eapply wf_attach|].
    by rewrite (categories_attach _ _ _ _ _ _ Hwf0 Ha).
  - intros t cb d w0 s w0' _ Hd Hwf0. split; [by eapply wf_detach|].
    by rewrite (categories_detach _ _ _ _ _ _ Hwf0 Hd).
  - intros. by apply Forall_forall.
Qed.

Lemma categories_send_same fuel ev w ev' w' :
  (∀ f e u t, ActRegister t ∉ callback_body f e u) →
  wf w → send fuel ev w = Ret ev' w' →
  wf w' ∧ categories w' = categories w.
Proof.
  intros Hnr Hwf Hs. revert Hwf.
  refine (send_R
            (fun w w' => wf w → wf w' ∧ categories w' = categories w)
            (fun a => ∀ t, a ≠ ActRegister t)
            _ _ _ _ _ _ _ fuel ev w ev' w' Hs).
  - done.
  - intros w1 w2 w3 H12 H23 H1. destruct (H12 H1) as [H2 Hp12].
    destruct (H23 H2) as [H3 Hp23]. split; [done|congruence].
  - intros w0 e Hwf0. split; [by eapply wf_same|done].
  - intros t w0 s w0' Hal. by destruct (Hal t).
  - intros t cb d w0 s w0' _ Ha Hwf0. split; [by eapply wf_attach|].
    by rewrite (categories_attach _ _ _ _ _ _ Hwf0 Ha).
  - intros t cb d w0 s w0' _ Hd Hwf0. split; [by eapply wf_detach|].
    by rewrite (categories_detach _ _ _ _ _ _ Hwf0 Hd).
  - intros f e u. apply Forall_forall. intros a Ha t ->. by eapply Hnr.
Qed.

(** C9: the sequence of registered categories only grows at its end.  A
    successful register appends one group, a failed one changes nothing;
    attach and detach keep the sequence as it is; a send keeps it when no
    callback registers a type, and otherwise what the callbacks register
    comes after the categories that were there. *)
Theorem categories_append_only w :
  wf w →
  (∀ t s w', register t w = Ret s w' →
     match s with
     | VLC_SUCCESS =>
         (∃ g, malloc (heap w) = Some g
               ∧ (g ∉ listeners_groups (em w))
               ∧ categories w' = categories w ++ [(g, t)])
     | _ => categories w' = categories w
     end)
  ∧ (∀ t cb d s w', attach t cb d w = Ret s w' →
                    categories w' = categories w)
  ∧ (∀ t cb d s w', vlc_event_detach t cb d w = Ret s w' →
                    categories w' = categories w)
  ∧ (∀ fuel ev ev' w', send fuel ev w = Ret ev' w' →
                       categories w `prefix_of` categories w')
  ∧ ((∀ f e u t, ActRegister t ∉ callback_body f e u) →
     ∀ fuel ev ev' w', send fuel ev w = Ret ev' w' →
                       categories w' = categories w).
Proof.
  intros Hwf. split_and!.
  - intros t s w'. by apply categories_register.
  - intros t cb d s w'. by apply categories_attach.
  - intros t cb d s w'. by apply categories_detach.
  - intros fuel ev ev' w' Hs. by eapply categories_send_prefix.
  - intros Hnr fuel ev ev' w' Hs. by eapply categories_send_same.
Qed.

Lemma register_twice t w w1 w2 :
  wf w →
  register t w = Ret VLC_SUCCESS w1 →
  register t w1 = Ret VLC_SUCCESS w2 →
  ∃ g1 g2, g1 ≠ g2
           ∧ categories w2 = categories w ++ [(g1, t); (g2, t)]
           ∧ listeners_of (heap w2) g1 = []
           ∧ listeners_of (heap w2) g2 = [].
Proof.
  intros Hwf H1 H2.
  pose proof (wf_register _ _ _ _ Hwf H1) as Hwf1.
  pose proof (categories_register _ _ _ _ Hwf H1) as (g1 & Hm1 & _ & Hc1).
  pose proof (categories_register _ _ _ _ Hwf1 H2) as (g2 & Hm2 & _ & Hc2).
  rewrite (register_ok _ _ _ (wf_lock _ Hwf) Hm1) in H1.
  rewrite (register_ok _ _ _ (wf_lock _ Hwf1) Hm2) in H2.
  injection H1 as <-. injection H2 as <-. simpl in *.
  pose proof (malloc_fresh _ _ Hm2) as Hfr.
  assert (g2 ≠ g1) as Hne by (intros ->; by rewrite lookup_insert_eq in Hfr).
  exists g1, g2. split_and!; [done| | |].
  - by rewrite Hc2, Hc1, <- app_assoc.
  - unfold listeners_of.
    by rewrite group_at_insert_ne, group_at_insert_group by done.
  - unfold listeners_of. by rewrite group_at_insert_group.
Qed.

(** C6: registering a type again is not refused and not merged: whenever
    the group can be allocated, register appends a new group without
    listeners, whether or not the type has a group already.  Attach and
    send stop at the first group of the type, so in every state of a
    manager a group that is not the first of its type has no listener. *)
Theorem duplicate_registration t w :
  reachable w →
  (∀ g, malloc (heap w) = Some g →
        (g ∉ listeners_groups (em w))
        ∧ register t w
          = Ret VLC_SUCCESS
              (mk_world (<[g:=BGroup (mk_group t [])]> (heap w))
                 (mk_em (p_obj (em w)) (p_parent_object (em w)) false
                    (listeners_groups (em w) ++ [g]))
                 (log w)))
  ∧ (∀ g cb d l,
        find_group (heap w) (listeners_groups (em w)) t = Some g →
        malloc (heap w) = Some l →
        attach t cb d w
        = Ret VLC_SUCCESS
            (mk_world
               (<[g:=BGroup (mk_group t (listeners_of (heap w) g ++ [l]))]>
                  (<[l:=BListener (mk_listener d cb)]> (heap w)))
               (em w) (log w)))
  ∧ (∀ g fuel ev,
        ev_type ev = t →
        find_group (heap w) (listeners_groups (em w)) t = Some g →
        send fuel ev w
        = bind (loop fuel g (stamp (em w) ev) 0%nat)
               (fun _ => bind vlc_mutex_unlock
                           (fun _ => ret (stamp (em w) ev)))
               (with_lock true w))
  ∧ (∀ g, g ∈ listeners_groups (em w) →
          type_of (heap w) g = t →
          find_group (heap w) (listeners_groups (em w)) t ≠ Some g →
          listeners_of (heap w) g = [])
  ∧ (∀ w1 w2,
        register t w = Ret VLC_SUCCESS w1 →
        register t w1 = Ret VLC_SUCCESS w2 →
        ∃ g1 g2, g1 ≠ g2
                 ∧ categories w2 = categories w ++ [(g1, t); (g2, t)]
                 ∧ listeners_of (heap w2) g1 = []
                 ∧ listeners_of (heap w2) g2 = []).
Proof.
  intros Hwf%reachable_wf.
  split_and!; [..|intros w1 w2; by apply register_twice].
  - intros g Hm. split; [|by apply register_ok; [apply wf_lock|]].
    intros Hin. destruct (wf_group _ _ Hwf Hin) as [grp Hgrp].
    apply group_at_Some in Hgrp. apply malloc_fresh in Hm. congruence.
  - intros g cb d l Hf Hm.
    destruct (find_group_Some _ _ _ _ Hf) as (_ & grp & Hg & <-).
    rewrite (attach_found _ _ _ _ _ _ _ (wf_lock _ Hwf) Hm Hf Hg).
    unfold listeners_of. by rewrite Hg.
  - intros g fuel ev <- Hf. by apply send_found; [apply wf_lock|].
  - intros g Hin Hty Hf. destruct (wf_group _ _ Hwf Hin) as [grp Hg].
    unfold type_of, listeners_of in *. rewrite Hg in *.
    eapply wf_orphan; try done. by rewrite Hty.
Qed.

(** *** No undefined behaviour, no deadlock *)

Lemma safe_bind {A B} (Q : A → world → Prop) (P : B → world → Prop)
    (m : M A) (k : A → M B) w :
  safe Q (m w) → (∀ a w1, Q a w1 → safe P (k a w1)) → safe P (bind m k w).
Proof. unfold bind. destruct (m w); simpl; auto. Qed.

Lemma safe_Ret {A} (P : A → world → Prop) o a w :
  safe P o → o = Ret a w → P a w.
Proof. by intros H ->. Qed.

Lemma later_refl w : wf w → later w w.
Proof. by split. Qed.

Lemma later_trans w1 w2 w3 : later w1 w2 → later w2 w3 → later w1 w3.
Proof. intros [_ H12] [H3 H23]. split; [done|by etrans]. Qed.

Lemma later_same w w' : heap w' = heap w → em w' = em w → wf w → later w w'.
Proof. intros Hh He Hwf. split; [by eapply wf_same|by rewrite He]. Qed.

Lemma register_Ret t w :
  wf w → ∃ s w', register t w = Ret s w' ∧ later w w'.
Proof.
  intros Hwf. destruct (malloc (heap w)) as [g|] eqn:Hm.
  - eexists _, _. split; [by apply register_ok; [apply wf_lock|]|].
    split; [|by apply prefix_app_r].
    eapply wf_register; [done|]. by apply register_ok; [apply wf_lock|].
  - exists VLC_ENOMEM, w. split; [by apply register_enomem|by apply later_refl].
Qed.

Lemma attach_Ret t cb d w :
  wf w → ∃ s w', attach t cb d w = Ret s w' ∧ later w w'.
Proof.
  intros Hwf.
  assert (∀ s w', attach t cb d w = Ret s w' → em w' = em w →
                  ∃ s w', attach t cb d w = Ret s w' ∧ later w w') as Hgo.
  { intros s w' Ha He. exists s, w'. split; [done|].
    split; [by eapply wf_attach|by rewrite He]. }
  destruct (malloc (heap w)) as [l|] eqn:Hm.
  2:{ by eapply Hgo; [apply attach_enomem|]. }
  destruct (find_group (heap w) (listeners_groups (em w)) t) as [g|] eqn:Hf.
  2:{ by eapply Hgo; [apply (attach_missing _ _ _ _ l);
                       [apply wf_lock|apply wf_groups|..]|]. }
  destruct (find_group_Some _ _ _ _ Hf) as (_ & grp & Hg & _).
  by eapply Hgo; [apply (attach_found _ _ _ _ l g grp); [apply wf_lock|..]|].
Qed.

Lemma detach_Ret t cb d w :
  wf w → ∃ s w', vlc_event_detach t cb d w = Ret s w' ∧ later w w'.
Proof.
  intros Hwf.
  assert (∀ s w', vlc_event_detach t cb d w = Ret s w' → em w' = em w →
                  ∃ s w', vlc_event_detach t cb d w = Ret s w' ∧ later w w')
    as Hgo.
  { intros s w' Ha He. exists s, w'. split; [done|].
    split; [by eapply wf_detach|by rewrite He]. }
  destruct (find_group (heap w) (listeners_groups (em w)) t) as [g|] eqn:Hf.
  2:{ eapply Hgo; [apply detach_missing; [done|by rewrite Hf]|done]. }
  destruct (find_group_Some _ _ _ _ Hf) as (_ & grp & Hg & _).
  destruct (find_listener (heap w) (listeners grp) cb d) as [i|] eqn:Hi.
  2:{ eapply Hgo; [apply detach_missing; [done|]|done].
      rewrite Hf. unfold listeners_of. by rewrite Hg. }
  destruct (detach_found _ _ _ _ _ _ _ (wf_lock _ Hwf) Hf Hg Hi) as (l & _ & Hd).
  by eapply Hgo.
Qed.

Lemma run_actions_safe sd :
  (∀ ev w, wf w → safe (fun _ w' => later w w') (sd ev w)) →
  ∀ acts w, wf w →
            safe (fun _ w' => later w w') (run_actions malloc sd acts w).
Proof.
  intros Hsd acts. induction acts as [|a acts IH]; simpl; intros w Hwf.
  - by apply later_refl.
  - apply safe_bind with (Q := fun _ w' => later w w').
    + destruct a; simpl.
      * destruct (register_Ret event_type0 w Hwf) as (s & w' & H & Hl).
        unfold bind. by rewrite H.
      * destruct (attach_Ret event_type0 cb data w Hwf) as (s & w' & H & Hl).
        unfold bind. by rewrite H.
      * destruct (detach_Ret event_type0 cb data w Hwf) as (s & w' & H & Hl).
        unfold bind. by rewrite H.
      * eapply safe_bind; [by apply Hsd|]. by intros.
    + intros [] w1 Hl. pose proof Hl as [Hwf1 _].
      specialize (IH w1 Hwf1). destruct (run_actions _ _ _ _); simpl in *; try done.
      by eapply later_trans.
Qed.

Lemma send_with_safe lp :
  (∀ g ev i w,
      object_lock (em w) = true → wf (with_lock false w) →
      g ∈ listeners_groups (em w) →
      safe (fun _ w' => object_lock (em w') = true
                        ∧ later (with_lock false w) (with_lock false w'))
           (lp g ev i w)) →
  ∀ ev w, wf w → safe (fun _ w' => later w w') (send_with lp ev w).
Proof.
  intros Hlp ev w Hwf. pose proof (wf_lock _ Hwf) as Hlk.
  assert (with_lock false (with_lock true w) = w) as Hw.
  { rewrite with_lock_with_lock. by apply with_lock_id. }
  unfold send_with, bind at 1, get_em.
  unfold bind at 1. rewrite lock_free by done.
  unfold bind at 1, bind at 1.
  cbn [em with_lock listeners_groups set_lock].
  destruct (find_group (heap w) (listeners_groups (em w)) (ev_type ev))
    as [g|] eqn:Hf.
  - rewrite (send_groups_found _ _ (stamp (em w) ev) (with_lock true w) g Hf).
    destruct (find_group_Some _ _ _ _ Hf) as [Hin _].
    specialize (Hlp g (stamp (em w) ev) 0%nat (with_lock true w) eq_refl).
    rewrite Hw in Hlp. specialize (Hlp Hwf Hin).
    destruct (lp _ _ _ _) as [[] w'| | |]; simpl in *; try done.
    destruct Hlp as [Hlk' Hl]. unfold bind. by rewrite unlock_held.
  - rewrite (send_groups_missing _ _ (stamp (em w) ev) (with_lock true w));
      [|exact (wf_groups _ Hwf)|done].
    unfold bind. rewrite unlock_held by done. simpl. rewrite Hw.
    by apply later_refl.
Qed.

Lemma loop_safe fuel : ∀ g ev i w,
  object_lock (em w) = true → wf (with_lock false w) →
  g ∈ listeners_groups (em w) →
  safe (fun _ w' => object_lock (em w') = true
                    ∧ later (with_lock false w) (with_lock false w'))
       (loop fuel g ev i w).
Proof.
  induction fuel as [|fuel IH]; intros g ev i w Hlk Hwf Hin.
  - destruct (wf_group _ _ Hwf Hin) as [grp Hg]. simpl in Hg.
    destruct (listeners grp !! i) as [l|] eqn:Hi.
    + by rewrite (loop_timeout _ _ _ _ _ _ Hg Hi).
    + rewrite (loop_end _ _ _ _ _ _ Hg Hi). simpl.
      split; [done|by apply later_refl].
  - destruct (wf_group _ _ Hwf Hin) as [grp Hg]. simpl in Hg.
    destruct (listeners grp !! i) as [l|] eqn:Hi.
    2:{ rewrite (loop_end _ _ _ _ _ _ Hg Hi). simpl.
        split; [done|by apply later_refl]. }
    destruct (wf_listener _ _ _ l Hwf Hin Hg) as [x Hx].
    { by eapply list_elem_of_lookup_2. }
    simpl in Hx. rewrite (loop_step _ _ _ _ _ _ _ _ Hlk Hg Hi Hx).
    set (w1 := mk_world (heap w) (set_lock false (em w)) (log w ++ _)).
    assert (later (with_lock false w) w1) as Hl1 by (by apply later_same).
    pose proof Hl1 as [Hwf1 _].
    eapply safe_bind.
    { apply run_actions_safe; [|exact Hwf1].
      apply send_with_safe. intros. by apply IH. }
    intros [] w2 Hl2; simpl in Hl2. pose proof Hl2 as [Hwf2 Hp2].
    unfold bind. rewrite lock_free by (by apply wf_lock).
    assert (with_lock false (with_lock true w2) = w2) as Hw2.
    { rewrite with_lock_with_lock. by apply with_lock_id, wf_lock. }
    specialize (IH g ev (S i) (with_lock true w2) eq_refl).
    rewrite Hw2 in IH. specialize (IH Hwf2).
    destruct (loop fuel g ev (S i) (with_lock true w2)) as [[] w3| | |];
      simpl in *; try done.
    + destruct IH as [Hlk3 Hl3].
      * destruct Hl1 as [_ Hp1]. simpl in Hp1.
        eapply elem_of_prefix; [|exact Hp2]. done.
      * split; [done|]. eapply later_trans; [exact Hl1|].
        by eapply later_trans.
    + apply IH. destruct Hl1 as [_ Hp1]. simpl in Hp1.
      eapply elem_of_prefix; [|exact Hp2]. done.
    + apply IH. destruct Hl1 as [_ Hp1]. simpl in Hp1.
      eapply elem_of_prefix; [|exact Hp2]. done.
Qed.

Lemma send_safe fuel ev w :
  wf w → safe (fun _ w' => later w w') (send fuel ev w).
Proof. apply send_with_safe. intros. by apply loop_safe. Qed.

Lemma run_action_safe fuel a w :
  wf w → safe (fun _ w' => later w w') (run_action malloc (send fuel) a w).
Proof.
  intros Hwf.
  pose proof (run_actions_safe (send fuel) (send_safe fuel) [a] w Hwf) as H.
  simpl in H. unfold bind in H.
  destruct (run_action malloc (send fuel) a w) as [[] w'| | |]; done.
Qed.

(** X5: in a well-formed state, no call of register, attach, detach or
    send, whatever the callbacks do in a send, has undefined behaviour (a
    pointer that is not allocated, a mutex released while free) or waits
    for the mutex of the manager while holding it; a call that returns
    leaves a well-formed state, with the mutex free.  Register, attach and
    detach always return. *)
Theorem calls_never_go_wrong w a fuel :
  wf w →
  run_action malloc (send fuel) a w ≠ Undef
  ∧ run_action malloc (send fuel) a w ≠ Deadlock
  ∧ (∀ w', run_action malloc (send fuel) a w = Ret tt w' →
           wf w' ∧ object_lock (em w') = false)
  ∧ ((∀ ev, a ≠ ActSend ev) →
     ∃ w', run_action malloc (send fuel) a w = Ret tt w').
Proof.
  intros Hwf. pose proof (run_action_safe fuel a w Hwf) as H.
  split_and!.
  - intros E. by rewrite E in H.
  - intros E. by rewrite E in H.
  - intros w' E. rewrite E in H. destruct H as [H _].
    split; [done|by apply wf_lock].
  - intros Hns. destruct a; simpl.
    + destruct (register_Ret event_type0 w Hwf) as (s & w' & E & _).
      exists w'. unfold bind. by rewrite E.
    + destruct (attach_Ret event_type0 cb data w Hwf) as (s & w' & E & _).
      exists w'. unfold bind. by rewrite E.
    + destruct (detach_Ret event_type0 cb data w Hwf) as (s & w' & E & _).
      exists w'. unfold bind. by rewrite E.
    + by destruct (Hns ev).
Qed.

(** X6: every state of a manager, from [vlc_event_manager_init] on and
    between any two calls, has the mutex free, every group pointer of the
    manager and every listener pointer of a group on a live block of its
    kind, no group and no listener referenced twice, and listeners only in
    the first group of a type. *)
Theorem manager_invariant w :
  reachable w →
  let h := heap w in
  let gs := listeners_groups (em w) in
  object_lock (em w) = false
  ∧ (∀ g, g ∈ gs → ∃ grp, h !! g = Some (BGroup grp))
  ∧ (∀ g l, g ∈ gs → l ∈ listeners_of h g → ∃ x, h !! l = Some (BListener x))
  ∧ NoDup gs
  ∧ NoDup (all_listeners h gs)
  ∧ (∀ g l, g ∈ gs → l ∈ listeners_of h g →
            find_group h gs (type_of h g) = Some g).
Proof.
  intros Hwf%reachable_wf h gs.
  pose proof Hwf as (Hlk & Hv & Hl & Hnd & Hndl & Ho).
  split_and!; try done.
  - intros g Hg. destruct (wf_group _ _ Hwf Hg) as [grp Hgrp].
    exists grp. by apply group_at_Some.
  - intros g l Hg Hlin.
    destruct (proj1 (Forall_forall _ _) Hl l) as [x Hx].
    { apply list_elem_of_bind. by exists g. }
    exists x. by apply listener_at_Some.
  - intros g l Hg Hlin.
    destruct (proj1 (Forall_forall _ _) Ho g Hg) as [H|H]; [|done].
    fold h in H. rewrite H in Hlin. by apply elem_of_nil in Hlin.
Qed.

(** *** The blocks of the manager, and fini *)

Lemma elem_of_owned w k :
  k ∈ owned w ↔
  k ∈ listeners_groups (em w)
  ∨ ∃ g, g ∈ listeners_groups (em w) ∧ k ∈ listeners_of (heap w) g.
Proof.
  unfold owned, all_listeners. rewrite elem_of_app, list_elem_of_bind.
  split; intros [?|(g & ? & ?)]; eauto.
Qed.

Lemma lookup_frame w k :
  frame w !! k = if decide (k ∈ owned w) then None else heap w !! k.
Proof.
  unfold frame. destruct (decide (k ∈ owned w)).
  - by apply lookup_foldr_delete.
  - by apply lookup_foldr_delete_not_elem_of.
Qed.

(** What the manager holds is allocated: a group block for a group, a
    listener block for a listener. *)
Lemma owned_group w g :
  wf w → g ∈ listeners_groups (em w) → ∃ grp, heap w !! g = Some (BGroup grp).
Proof.
  intros Hwf Hg. destruct (wf_group _ _ Hwf Hg) as [grp Hgrp].
  exists grp. by apply group_at_Some.
Qed.

Lemma owned_listener w g l :
  wf w → g ∈ listeners_groups (em w) → l ∈ listeners_of (heap w) g →
  ∃ x, heap w !! l = Some (BListener x).
Proof.
  intros (_ & _ & Hl & _) Hg Hlin.
  destruct (proj1 (Forall_forall _ _) Hl l) as [x Hx].
  { apply list_elem_of_bind. by exists g. }
  exists x. by apply listener_at_Some.
Qed.

Lemma owned_allocated w k : wf w → k ∈ owned w → is_Some (heap w !! k).
Proof.
  intros Hwf [Hg|(g & Hg & Hl)]%elem_of_owned.
  - destruct (owned_group _ _ Hwf Hg) as [grp ->]. by eexists.
  - destruct (owned_listener _ _ _ Hwf Hg Hl) as [x ->]. by eexists.
Qed.

Lemma fini_listeners_freed ls : ∀ w,
  NoDup ls → Forall (fun l => is_Some (heap w !! l)) ls →
  fini_listeners ls w
  = Ret tt (mk_world (foldr delete (heap w) ls) (em w) (log w)).
Proof.
  induction ls as [|l ls IH]; simpl; intros w Hnd Hv.
  - by destruct w.
  - apply NoDup_cons in Hnd as [Hnin Hnd].
    apply Forall_cons in Hv as [[b Hb] Hv].
    unfold bind. rewrite (free_at _ _ _ Hb). rewrite IH; simpl.
    + by rewrite delete_foldr_delete.
    + done.
    + eapply Forall_impl; [apply Forall_forall; intros l' Hl'; exact Hl'|].
      intros l' Hl'. simpl.
      rewrite lookup_delete_ne by (by intros ->).
      by apply (proj1 (Forall_forall _ _) Hv).
Qed.

Lemma fini_groups_freed gs : ∀ w,
  NoDup gs → NoDup (all_listeners (heap w) gs) →
  Forall (fun g => is_Some (group_at (heap w) g)) gs →
  Forall (fun l => is_Some (listener_at (heap w) l))
         (all_listeners (heap w) gs) →
  fini_groups gs w
  = Ret tt (mk_world
              (foldr delete (heap w) (gs ++ all_listeners (heap w) gs))
              (em w) (log w)).
Proof.
  clear callback_body.
  induction gs as [|g gs IH]; intros w Hnd Hndl Hv Hl.
  - simpl. by destruct w.
  - apply NoDup_cons in Hnd as [Hnin Hnd].
    apply Forall_cons in Hv as [[grp Hg] Hv].
    assert (all_listeners (heap w) (g :: gs)
            = listeners grp ++ all_listeners (heap w) gs) as Hcons.
    { unfold all_listeners. rewrite bind_cons. unfold listeners_of at 1.
      by rewrite Hg. }
    rewrite Hcons in Hndl, Hl |- *.
    apply NoDup_app in Hndl as (Hndg & Hdisj & Hndr).
    apply Forall_app in Hl as [Hlg Hlr].
    assert (∀ g0, is_Some (group_at (heap w) g0) → g0 ∉ listeners grp) as Hgl.
    { intros g0 [grp0 Hg0] Hlin.
      destruct (proj1 (Forall_forall _ _) Hlg g0 Hlin) as [x Hx].
      eauto using group_not_listener. }
    cbn [fini_groups].
    unfold bind at 1. rewrite (load_group_at _ _ _ Hg).
    unfold bind at 1. rewrite fini_listeners_freed; [|done|].
    2:{ eapply Forall_impl; [exact Hlg|]. intros l [x Hx]; simpl.
        apply listener_at_Some in Hx. by rewrite Hx. }
    set (h1 := foldr delete (heap w) (listeners grp)).
    assert (∀ k, k ∉ listeners grp → h1 !! k = heap w !! k) as Hh1.
    { intros k Hk. by apply lookup_foldr_delete_not_elem_of. }
    unfold bind at 1. erewrite free_at.
    2:{ cbn [heap]. rewrite Hh1 by (apply Hgl; by rewrite Hg).
        by apply group_at_Some. }
    cbn [heap em log].
    set (h2 := delete g h1).
    assert (∀ g0, g0 ∈ gs → group_at h2 g0 = group_at (heap w) g0) as Hg2.
    { intros g0 Hg0. unfold h2. rewrite group_at_delete_ne by (by intros ->).
      unfold group_at. rewrite Hh1; [done|]. apply Hgl.
      by apply (proj1 (Forall_forall _ _) Hv). }
    assert (all_listeners h2 gs = all_listeners (heap w) gs) as Hall.
    { apply Forall_bind_ext, Forall_forall. intros g0 Hg0.
      unfold listeners_of. by rewrite Hg2. }
    rewrite IH; cbn [heap em log]; rewrite ?Hall; try done.
    + f_equal. f_equal. apply map_eq. intros k.
      destruct (decide (k ∈ (g :: gs) ++ listeners grp
                            ++ all_listeners (heap w) gs)) as [Hk|Hk].
      * rewrite (lookup_foldr_delete _ ((g :: gs) ++ _)) by done.
        destruct (decide (k ∈ gs ++ all_listeners (heap w) gs)) as [Hk'|Hk'].
        { by rewrite lookup_foldr_delete. }
        rewrite lookup_foldr_delete_not_elem_of by done.
        unfold h2. destruct (decide (k = g)) as [->|Hne].
        { by rewrite lookup_delete_eq. }
        rewrite lookup_delete_ne by done. unfold h1.
        apply lookup_foldr_delete.
        rewrite !elem_of_app, elem_of_cons in Hk.
        rewrite elem_of_app in Hk'. tauto.
      * rewrite (lookup_foldr_delete_not_elem_of _ ((g :: gs) ++ _)) by done.
        rewrite !elem_of_app, elem_of_cons in Hk.
        rewrite lookup_foldr_delete_not_elem_of
          by (rewrite elem_of_app; tauto).
        unfold h2. rewrite lookup_delete_ne by (intros ->; tauto).
        apply Hh1. tauto.
    + apply Forall_forall. intros g0 Hg0. rewrite Hg2 by done.
      by apply (proj1 (Forall_forall _ _) Hv).
    + apply Forall_forall. intros l Hlin.
      destruct (proj1 (Forall_forall _ _) Hlr l Hlin) as [x Hx].
      exists x. unfold h2.
      rewrite listener_at_delete_ne
        by (intros <-; eauto using group_not_listener).
      unfold listener_at. rewrite Hh1.
      * apply listener_at_Some in Hx. by rewrite Hx.
      * intros Hlg'. by apply (Hdisj l).
Qed.

Lemma fini_frame w :
  wf w → vlc_event_manager_fini w = Ret tt (mk_world (frame w) (em w) (log w)).
Proof.
  intros (Hlk & Hv & Hl & Hnd & Hndl & _).
  unfold vlc_event_manager_fini, bind at 1, vlc_mutex_destroy. rewrite Hlk.
  unfold bind, get_em. by rewrite fini_groups_freed.
Qed.

(** X2: in a well-formed state [vlc_event_manager_fini] returns, having
    freed every group of the manager and every listener of every group,
    and nothing else: a block of the manager is not allocated afterwards,
    any other block is as it was.  The manager record, with its array of
    group pointers, and the log are as they were. *)
Theorem fini_frees_every_block w :
  wf w →
  ∃ h', vlc_event_manager_fini w = Ret tt (mk_world h' (em w) (log w))
        ∧ (∀ g, g ∈ listeners_groups (em w) → h' !! g = None)
        ∧ (∀ g l, g ∈ listeners_groups (em w) →
                  l ∈ listeners_of (heap w) g → h' !! l = None)
        ∧ (∀ k, k ∉ owned w → h' !! k = heap w !! k)
        ∧ dom h' = dom (heap w) ∖ list_to_set (owned w).
Proof.
  intros Hwf. exists (frame w). split; [by apply fini_frame|]. split_and!.
  - intros g Hg. rewrite lookup_frame, decide_True; [done|].
    apply elem_of_owned. by left.
  - intros g l Hg Hl. rewrite lookup_frame, decide_True; [done|].
    apply elem_of_owned. right. by exists g.
  - intros k Hk. by rewrite lookup_frame, decide_False.
  - apply set_eq. intros k.
    rewrite elem_of_difference, !elem_of_dom, elem_of_list_to_set, lookup_frame.
    destruct (decide (k ∈ owned w)) as [Hk|Hk].
    + split; [by intros [? ?]|by intros [_ ?]].
    + split; [by intros ?|by intros [? _]].
Qed.

(** *** The operations touch the blocks of the manager only *)

Lemma frame_same w w' : heap w' = heap w → em w' = em w → frame w' = frame w.
Proof. unfold frame, owned. by intros -> ->. Qed.

(** The frame is kept by a step that allocates or frees blocks of the
    manager and changes no other block. *)
Lemma frame_step w w' :
  wf w → wf w' →
  (∀ k, k ∈ owned w → k ∉ owned w' → heap w' !! k = None) →
  (∀ k, k ∈ owned w' → k ∉ owned w → heap w !! k = None) →
  (∀ k, k ∉ owned w → k ∉ owned w' → heap w' !! k = heap w !! k) →
  frame w' = frame w.
Proof.
  intros Hwf Hwf' Hfree Hnew Hsame. apply map_eq. intros k.
  rewrite !lookup_frame.
  destruct (decide (k ∈ owned w')), (decide (k ∈ owned w)); auto.
  symmetry. auto.
Qed.

Lemma frame_register t w s w' :
  wf w → register t w = Ret s w' → frame w' = frame w.
Proof.
  intros Hwf Hr. pose proof (wf_register _ _ _ _ Hwf Hr) as Hwf'.
  revert Hr Hwf'. destruct (malloc (heap w)) as [g|] eqn:Hm.
  2:{ rewrite register_enomem by done. by intros [= _ <-]. }
  rewrite (register_ok _ _ _ (wf_lock _ Hwf) Hm). intros [= _ <-] Hwf'.
  pose proof (malloc_fresh _ _ Hm) as Hg.
  assert (∀ k, k ∈ owned w → k ≠ g) as Hne.
  { intros k [b Hb]%(owned_allocated _ _ Hwf) ->. congruence. }
  assert (∀ g0, g0 ∈ listeners_groups (em w) →
                listeners_of (<[g:=BGroup (mk_group t [])]> (heap w)) g0
                = listeners_of (heap w) g0) as Hls.
  { intros g0 Hg0. unfold listeners_of.
    rewrite group_at_alloc; [done..|]. by apply wf_group. }
  assert (∀ k, k ∈ owned w → k ∈ owned (mk_world
            (<[g:=BGroup (mk_group t [])]> (heap w))
            (mk_em (p_obj (em w)) (p_parent_object (em w)) false
               (listeners_groups (em w) ++ [g])) (log w))) as Hin.
  { intros k. rewrite !elem_of_owned; simpl.
    intros [Hk|(g0 & Hg0 & Hk)].
    - left. apply elem_of_app. by left.
    - right. exists g0. split; [apply elem_of_app; by left|].
      by rewrite Hls. }
  apply frame_step; try done.
  - intros k Hk Hk'. destruct Hk'. by apply Hin.
  - intros k Hk Hk'. simpl in *. destruct (decide (k = g)) as [->|Hkg]; [done|].
    destruct Hk'. apply elem_of_owned in Hk. simpl in Hk.
    apply elem_of_owned. destruct Hk as [Hk|(g0 & Hg0 & Hk)].
    + apply elem_of_app in Hk as [Hk|Hk%list_elem_of_singleton]; [by left|done].
    + apply elem_of_app in Hg0 as [Hg0|Hg0%list_elem_of_singleton].
      * right. exists g0. by rewrite <- Hls.
      * subst g0. unfold listeners_of in Hk. rewrite group_at_insert_group in Hk.
        by apply elem_of_nil in Hk.
  - intros k Hk Hk'. simpl. apply lookup_insert_ne. intros <-.
    apply Hk'. apply elem_of_owned. left. simpl. apply elem_of_app. right.
    by apply list_elem_of_singleton.
Qed.

Lemma frame_attach t cb d w s w' :
  wf w → attach t cb d w = Ret s w' → frame w' = frame w.
Proof.
  intros Hwf Ha. pose proof (wf_attach _ _ _ _ _ _ Hwf Ha) as Hwf'.
  revert Ha Hwf'. destruct (malloc (heap w)) as [l|] eqn:Hm.
  2:{ rewrite attach_enomem by done. by intros [= _ <-]. }
  pose proof (malloc_fresh _ _ Hm) as Hl.
  destruct (find_group (heap w) (listeners_groups (em w)) t) as [g|] eqn:Hf.
  2:{ rewrite (attach_missing _ _ _ _ _ (wf_lock _ Hwf) (wf_groups _ Hwf) Hm Hf).
      intros [= _ <-] _. by apply frame_same. }
  destruct (find_group_Some _ _ _ _ Hf) as (Hin & grp & Hg & <-).
  rewrite (attach_found _ _ _ _ _ _ _ (wf_lock _ Hwf) Hm Hf Hg).
  intros [= _ <-] Hwf'.
  assert (g ≠ l) as Hgl by (intros ->; apply group_at_Some in Hg; congruence).
  set (h' := <[g:=_]> (<[l:=_]> (heap w))).
  assert (∀ g0, g0 ∈ listeners_groups (em w) → g0 ≠ g →
                listeners_of h' g0 = listeners_of (heap w) g0) as Hls.
  { intros g0 Hg0 Hne. unfold listeners_of, h'.
    rewrite group_at_insert_ne by done.
    rewrite group_at_alloc; [done..|]. by apply wf_group. }
  assert (listeners_of h' g = listeners grp ++ [l]) as Hlsg.
  { unfold listeners_of, h'. by rewrite group_at_insert_group. }
  assert (listeners_of (heap w) g = listeners grp) as Hlsg0.
  { unfold listeners_of. by rewrite Hg. }
  assert (∀ k, k ∈ owned (mk_world h' (em w) (log w)) ↔ k ∈ owned w ∨ k = l)
    as Hown.
  { intros k. rewrite !elem_of_owned; simpl. split.
    - intros [Hk|(g0 & Hg0 & Hk)]; [by left; left|].
      destruct (decide (g0 = g)) as [->|Hne].
      + rewrite Hlsg in Hk.
        apply elem_of_app in Hk as [Hk|Hk%list_elem_of_singleton]; [|by right].
        left. right. exists g. by rewrite Hlsg0.
      + left. right. exists g0. by rewrite <- Hls.
    - intros [[Hk|(g0 & Hg0 & Hk)]| ->]; [by left| |].
      + right. exists g0. split; [done|].
        destruct (decide (g0 = g)) as [->|Hne].
        * rewrite Hlsg. apply elem_of_app. left. by rewrite <- Hlsg0.
        * by rewrite Hls.
      + right. exists g. split; [done|]. rewrite Hlsg. apply elem_of_app.
        right. by apply list_elem_of_singleton. }
  apply frame_step; try done.
  - intros k Hk Hk'. destruct Hk'. apply Hown. by left.
  - intros k [Hk| ->]%Hown Hk'; done.
  - intros k Hk Hk'. simpl. unfold h'.
    rewrite !lookup_insert_ne; [done| |].
    + intros <-. apply Hk'. apply Hown. by right.
    + intros <-. apply Hk. apply elem_of_owned. by left.
Qed.

Lemma frame_detach t cb d w s w' :
  wf w → vlc_event_detach t cb d w = Ret s w' → frame w' = frame w.
Proof.
  intros Hwf Hd. pose proof (wf_detach _ _ _ _ _ _ Hwf Hd) as Hwf'.
  revert Hd Hwf'.
  destruct (find_group (heap w) (listeners_groups (em w)) t) as [g|] eqn:Hf.
  2:{ rewrite detach_missing by (done || by rewrite Hf).
      intros [= _ <-] _. by apply frame_same. }
  destruct (find_group_Some _ _ _ _ Hf) as (Hin & grp & Hg & <-).
  destruct (find_listener (heap w) (listeners grp) cb d) as [i|] eqn:Hi.
  2:{ rewrite detach_missing; [|done|].
      - intros [= _ <-] _. by apply frame_same.
      - rewrite Hf. unfold listeners_of. by rewrite Hg. }
  destruct (detach_found _ _ _ _ _ _ _ (wf_lock _ Hwf) Hf Hg Hi) as (l & Hl & ->).
  intros [= _ <-] Hwf'.
  destruct (find_listener_Some _ _ _ _ _ Hi) as (l' & x & Hl' & Hx & _).
  assert (l' = l) as -> by congruence.
  assert (g ≠ l) as Hgl by (intros ->; eauto using group_not_listener).
  set (h' := delete l (<[g:=_]> (heap w))).
  assert (∀ g0, g0 ∈ listeners_groups (em w) → g0 ≠ g →
                listeners_of h' g0 = listeners_of (heap w) g0) as Hls.
  { intros g0 Hg0 Hne. unfold listeners_of, h'.
    destruct (wf_group _ _ Hwf Hg0) as [grp0 Hgrp0].
    rewrite group_at_delete_ne by (intros ->; eauto using group_not_listener).
    by rewrite group_at_insert_ne. }
  assert (listeners_of h' g = delete i (listeners grp)) as Hlsg.
  { unfold listeners_of, h'. rewrite group_at_delete_ne by done.
    by rewrite group_at_insert_group. }
  assert (listeners_of (heap w) g = listeners grp) as Hlsg0.
  { unfold listeners_of. by rewrite Hg. }
  assert (l ∈ owned w) as Hlown.
  { apply elem_of_owned. right. exists g. split; [done|]. rewrite Hlsg0.
    by eapply list_elem_of_lookup_2. }
  assert (l ∉ owned (mk_world h' (em w) (log w))) as Hlown'.
  { intros [b Hb]%(owned_allocated _ _ Hwf'). simpl in Hb. unfold h' in Hb.
    by rewrite lookup_delete_eq in Hb. }
  assert (∀ k, k ≠ l →
               k ∈ owned (mk_world h' (em w) (log w)) ↔ k ∈ owned w) as Hown.
  { intros k Hkl. rewrite !elem_of_owned; simpl.
    assert (k ∈ delete i (listeners grp) ↔ k ∈ listeners grp) as Hdel.
    { rewrite (delete_Permutation (listeners grp) i l Hl) at 2.
      rewrite elem_of_cons. tauto. }
    split; (intros [Hk|(g0 & Hg0 & Hk)]; [by left|]); right; exists g0;
      (split; [done|]); (destruct (decide (g0 = g)) as [->|Hne]).
    + rewrite Hlsg0. apply Hdel. by rewrite <- Hlsg.
    + by rewrite <- Hls.
    + rewrite Hlsg. apply Hdel. by rewrite <- Hlsg0.
    + by rewrite Hls. }
  apply frame_step; try done.
  - intros k Hk Hk'. destruct (decide (k = l)) as [->|Hkl].
    + simpl. unfold h'. by rewrite lookup_delete_eq.
    + destruct Hk'. by apply Hown.
  - intros k Hk Hk'. destruct (decide (k = l)) as [->|Hkl]; [done|].
    destruct Hk'. by apply Hown.
  - intros k Hk Hk'. simpl. unfold h'.
    rewrite lookup_delete_ne by (by intros <-).
    apply lookup_insert_ne. intros <-. apply Hk. apply elem_of_owned. by left.
Qed.

Lemma frame_send fuel ev w ev' w' :
  wf w → send fuel ev w = Ret ev' w' → wf w' ∧ frame w' = frame w.
Proof.
  intros Hwf Hs. revert Hwf.
  refine (send_R (fun w w' => wf w → wf w' ∧ frame w' = frame w)
            (fun _ => True) _ _ _ _ _ _ _ fuel ev w ev' w' Hs).
  - done.
  - intros w1 w2 w3 H12 H23 H1. destruct (H12 H1) as [H2 Hp12].
    destruct (H23 H2) as [H3 Hp23]. split; [done|congruence].
  - intros w0 e Hwf0. split; [by eapply wf_same|by apply frame_same].
  - intros t w0 s w0' _ Hr Hwf0.
    split; [by eapply wf_register|by eapply frame_register].
  - intros t cb d w0 s w0' _ Ha Hwf0.
    split; [by eapply wf_attach|by eapply frame_attach].
  - intros t cb d w0 s w0' _ Hd Hwf0.
    split; [by eapply wf_detach|by eapply frame_detach].
  - intros. by apply Forall_forall.
Qed.

Lemma reachable_from_frame h0 w :
  reachable_from malloc callback_body h0 w → wf w ∧ frame w = h0.
Proof.
  induction 1 as [p parent w s w' Hh H|fuel a w w' _ [Hwf IH] H].
  - split; [by eapply wf_init|]. by injection H as _ <-.
  - destruct a; simpl in H; apply bind_Ret in H as (? & ? & H & [= <-]).
    + split; [by eapply wf_register|]. by rewrite <- IH; eapply frame_register.
    + split; [by eapply wf_attach|]. by rewrite <- IH; eapply frame_attach.
    + split; [by eapply wf_detach|]. by rewrite <- IH; eapply frame_detach.
    + destruct (frame_send _ _ _ _ _ Hwf H) as [? ?]. split; congruence.
Qed.

(** X3: the balance of the blocks this file allocates.  Whatever sequence
    of register, attach, detach and send calls (with the calls the
    callbacks make) has followed [vlc_event_manager_init],
    [vlc_event_manager_fini] returns and leaves the heap of groups and
    listeners exactly as it was when init was called: every block the
    [malloc] calls of this file handed out is freed, once, and no other
    block was touched.  (The storage of the arrays themselves belongs to
    the macros of vlc_arrays.h and is not part of this heap.) *)
Theorem fini_restores_heap h0 w :
  reachable_from malloc callback_body h0 w →
  vlc_event_manager_fini w = Ret tt (mk_world h0 (em w) (log w)).
Proof.
  intros [Hwf <-]%reachable_from_frame. by apply fini_frame.
Qed.

(** X4: [vlc_event_manager_fini] frees the groups and leaves the array of
    group pointers of the manager as it is.  Once a type has been
    registered, a send, a detach or a second fini after fini reads a freed
    group: each is undefined behaviour, whatever the type and the fuel. *)
Theorem use_after_fini_undefined w :
  wf w → listeners_groups (em w) ≠ [] →
  ∃ w', vlc_event_manager_fini w = Ret tt w'
        ∧ listeners_groups (em w') = listeners_groups (em w)
        ∧ (∀ fuel ev, send fuel ev w' = Undef)
        ∧ (∀ t cb d, vlc_event_detach t cb d w' = Undef)
        ∧ vlc_event_manager_fini w' = Undef.
Proof.
  intros Hwf Hne. eexists. split; [by apply fini_frame|].
  pose proof (wf_lock _ Hwf) as Hlk.
  destruct (listeners_groups (em w)) as [|g gs] eqn:Hgs; [done|].
  assert (frame w !! g = None) as Hg.
  { rewrite lookup_frame, decide_True; [done|]. apply elem_of_owned. left.
    rewrite Hgs. by left. }
  split_and!; [done|..].
  - intros fuel ev. unfold vlc_event_send, send_with, bind at 1, get_em.
    unfold bind at 1. rewrite lock_free by done.
    unfold bind at 1, bind at 1. cbn [em with_lock set_lock listeners_groups].
    rewrite Hgs. cbn [send_groups]. unfold bind at 1, load_group. simpl.
    by rewrite Hg.
  - intros t cb d. unfold vlc_event_detach, bind at 1.
    rewrite lock_free by done. unfold bind at 1, get_em. unfold bind at 1.
    cbn [em with_lock set_lock listeners_groups].
    rewrite Hgs. cbn [detach_groups]. unfold bind at 1, load_group. simpl.
    by rewrite Hg.
  - unfold vlc_event_manager_fini, bind at 1, vlc_mutex_destroy. simpl.
    rewrite Hlk. unfold bind at 1, get_em. simpl. rewrite Hgs.
    cbn [fini_groups]. unfold bind at 1, load_group. simpl. by rewrite Hg.
Qed.

(** X1: [vlc_event_manager_init] always returns VLC_SUCCESS.  Whatever the
    manager record held, it now has the owner and the parent given, a free
    mutex and no group; heap and log are untouched and the state is
    well-formed.  On it every type is unregistered: a send changes nothing
    and only stamps the event, a detach warns and returns VLC_EGENERIC, an
    attach never succeeds and leaves heap and manager as they are. *)
Theorem init_gives_empty_manager p parent w :
  let w0 := mk_world (heap w) (mk_em p parent false []) (log w) in
  vlc_event_manager_init p parent w = Ret VLC_SUCCESS w0
  ∧ wf w0
  ∧ (∀ fuel ev, send fuel ev w0 = Ret (mk_event (ev_type ev) p (ev_u ev)) w0)
  ∧ (∀ t cb d,
        vlc_event_detach t cb d w0
        = Ret VLC_EGENERIC
            (mk_world (heap w) (mk_em p parent false [])
               (log w ++ [MsgWarn parent
                            "Can't detach to an object event manager event"])))
  ∧ (∀ t cb d s w', attach t cb d w0 = Ret s w' →
                    s ≠ VLC_SUCCESS ∧ heap w' = heap w ∧ em w' = em w0).
Proof.
  intros w0. assert (wf w0) as Hwf.
  { by apply (wf_init p parent w VLC_SUCCESS). }
  split; [done|]. split; [done|]. split; [|split].
  - intros fuel ev. by apply (send_missing fuel ev w0).
  - intros t cb d. by apply (detach_missing t cb d w0).
  - intros t cb d s w'. destruct (malloc (heap w0)) as [l|] eqn:Hm.
    + rewrite (attach_missing t cb d w0 l); try done.
      by intros [= <- <-].
    + rewrite attach_enomem by done. by intros [= <- <-].
Qed.

(** X7: the return code of [__vlc_event_attach] in a well-formed state.
    The call always returns: VLC_ENOMEM exactly when the listener cannot be
    allocated (nothing changes then, not even the log), VLC_EGENERIC
    exactly when it can and no group has the type, VLC_SUCCESS exactly when
    it can and a group has the type. *)
Theorem attach_status t cb d w :
  wf w →
  ∃ s w',
    attach t cb d w = Ret s w'
    ∧ (s = VLC_ENOMEM ↔ malloc (heap w) = None)
    ∧ (s = VLC_ENOMEM → w' = w)
    ∧ (s = VLC_EGENERIC ↔
       is_Some (malloc (heap w))
       ∧ find_group (heap w) (listeners_groups (em w)) t = None)
    ∧ (s = VLC_SUCCESS ↔
       is_Some (malloc (heap w))
       ∧ is_Some (find_group (heap w) (listeners_groups (em w)) t)).
Proof.
  intros Hwf. destruct (malloc (heap w)) as [l|] eqn:Hm.
  2:{ exists VLC_ENOMEM, w. split; [by apply attach_enomem|].
      split_and!; try done; split; try done; by intros [[? [=]] _]. }
  destruct (find_group (heap w) (listeners_groups (em w)) t) as [g|] eqn:Hf.
  - destruct (find_group_Some _ _ _ _ Hf) as (_ & grp & Hg & _).
    eexists _, _. split.
    { by apply (attach_found _ _ _ _ l g grp); [apply wf_lock|..]. }
    split_and!; try done; split; try done; by intros [_ [=]].
  - eexists _, _. split.
    { by apply (attach_missing _ _ _ _ l); [apply wf_lock|apply wf_groups|..]. }
    split_and!; try done; split; try done; by intros [_ [? [=]]].
Qed.

(** X10: a send of an event whose type is registered while the first group
    of the type has no listener returns, whatever the fuel, and leaves the
    whole state as it was; the event handed back carries the owner of the
    manager. *)
Theorem send_empty_group fuel ev w g :
  wf w →
  find_group (heap w) (listeners_groups (em w)) (ev_type ev) = Some g →
  listeners_of (heap w) g = [] →
  send fuel ev w = Ret (mk_event (ev_type ev) (p_obj (em w)) (ev_u ev)) w.
Proof.
  intros Hwf Hf Hls. pose proof (wf_lock _ Hwf) as Hlk.
  destruct (find_group_Some _ _ _ _ Hf) as (_ & grp & Hg & _).
  unfold listeners_of in Hls. rewrite Hg in Hls.
  rewrite (send_found _ _ _ _ Hlk Hf). unfold bind at 1.
  rewrite (loop_end fuel g _ 0%nat (with_lock true w) grp); [|done|by rewrite Hls].
  unfold bind. rewrite unlock_held by done.
  by rewrite with_lock_with_lock, with_lock_id.
Qed.

(** X11: only register, attach and detach change the registry.  When no
    callback calls one of them (they may send events, to any depth), a send
    that returns leaves the heap and the manager record as they were and
    only adds to the log. *)
Theorem send_keeps_registry fuel ev w ev' w' :
  (∀ f e u, Forall (fun a => ∃ ev0, a = ActSend ev0) (callback_body f e u)) →
  vlc_event_send malloc callback_body fuel ev w = Ret ev' w' →
  heap w' = heap w ∧ em w' = em w ∧ log w' = log w ++ new_log w w'.
Proof.
  intros Hb Hs.
  cut (heap w' = heap w ∧ em w' = em w ∧ ∃ es, log w' = log w ++ es).
  { intros (Hh & He & es & Hl). split_and!; try done.
    by rewrite (new_log_app _ _ es). }
  refine (send_R
            (fun w w' => heap w' = heap w ∧ em w' = em w
                         ∧ ∃ es, log w' = log w ++ es)
            (fun a => ∃ ev0, a = ActSend ev0)
            _ _ _ _ _ _ _ fuel ev w ev' w' Hs).
  - intros w0. split_and!; try done. exists []. by rewrite app_nil_r.
  - intros w1 w2 w3 (Hh12 & He12 & es1 & Hl12) (Hh23 & He23 & es2 & Hl23).
    split_and!; try congruence. exists (es1 ++ es2).
    by rewrite Hl23, Hl12, <- app_assoc.
  - intros w0 e. split_and!; try done. by exists [e].
  - by intros t w0 s w0' [? [=]].
  - by intros t cb d w0 s w0' [? [=]].
  - by intros t cb d w0 s w0' [? [=]].
  - done.
Qed.

(** *** Attach, then detach *)

Lemma find_listener_snoc h ls l cb d :
  (∀ l0, l0 ∈ ls →
         ∃ x0, listener_at h l0 = Some x0
               ∧ ¬ (pf_callback x0 = cb ∧ p_user_data x0 = d)) →
  listener_at h l = Some (mk_listener d cb) →
  find_listener h (ls ++ [l]) cb d = Some (length ls).
Proof.
  intros Hls Hl. induction ls as [|l0 ls IH]; simpl.
  - rewrite Hl. simpl. by rewrite !Z.eqb_refl.
  - destruct (Hls l0) as (x0 & -> & Hx0); [by left|].
    destruct (_ && _) eqn:Eb.
    { apply andb_prop in Eb. destruct Hx0. lia. }
    rewrite IH; [done|]. intros l1 Hl1. apply Hls. by right.
Qed.

Lemma entries_of_elem h g l x :
  l ∈ listeners_of h g → listener_at h l = Some x → x ∈ entries_of h g.
Proof. intros Hl Hx. apply list_elem_of_omap. by exists l. Qed.

Lemma wf_listeners_of w g l :
  wf w → g ∈ listeners_groups (em w) → l ∈ listeners_of (heap w) g →
  is_Some (listener_at (heap w) l).
Proof.
  intros Hwf Hg Hl. destruct (owned_listener _ _ _ Hwf Hg Hl) as [x Hx].
  exists x. by apply listener_at_Some.
Qed.

(** X8: attach, then detach of the same (type, callback, user data): when
    the first group of the type held no listener with this callback and
    this user data, the detach removes the listener just attached and the
    state is exactly the one before the attach, heap, manager and log. *)
Theorem attach_detach_round_trip t cb d w w1 g :
  wf w →
  find_group (heap w) (listeners_groups (em w)) t = Some g →
  Forall (fun x => ¬ (pf_callback x = cb ∧ p_user_data x = d))
         (entries_of (heap w) g) →
  attach t cb d w = Ret VLC_SUCCESS w1 →
  vlc_event_detach t cb d w1 = Ret VLC_SUCCESS w.
Proof.
  intros Hwf Hf Hno Ha.
  destruct (attach_view _ _ _ _ _ _ Hwf Hf Ha)
    as (Hwf1 & Hem & Hlog & Hfg & _ & Hfr & _).
  destruct (attach_success _ _ _ _ _ Hwf Ha)
    as (l & g' & grp & Hm & Hf' & Hg & ->).
  assert (g' = g) as -> by congruence.
  destruct (find_group_Some _ _ _ _ Hf) as [Hin _].
  pose proof (malloc_fresh _ _ Hm) as Hl.
  assert (g ≠ l) as Hgl by (intros ->; apply group_at_Some in Hg; congruence).
  set (h1 := <[g:=_]> (<[l:=_]> (heap w))) in Ha, Hwf1, Hem, Hlog, Hfg, Hfr |- *.
  assert (listener_at h1 l = Some (mk_listener d cb)) as Hxl.
  { unfold h1. rewrite listener_at_insert_ne by done.
    apply listener_at_insert_listener. }
  destruct (detach_found t cb d (mk_world h1 (em w) (log w)) g
              (mk_group (event_type grp) (listeners grp ++ [l]))
              (length (listeners grp))) as (l' & Hl' & ->).
  - by apply wf_lock.
  - simpl. by rewrite Hfg.
  - apply group_at_insert_group.
  - apply find_listener_snoc; [|done]. intros l0 Hl0.
    assert (l0 ∈ listeners_of (heap w) g) as Hl0'.
    { unfold listeners_of. by rewrite Hg. }
    destruct (wf_listeners_of _ _ _ Hwf Hin Hl0') as [x0 Hx0].
    exists x0. split.
    + simpl in Hfr. rewrite Hfr by (by exists x0). done.
    + apply (proj1 (Forall_forall _ _) Hno). by eapply entries_of_elem.
  - simpl in Hl'. rewrite lookup_app_r, Nat.sub_diag in Hl' by done.
    injection Hl' as <-. simpl.
    replace (delete (length (listeners grp)) (listeners grp ++ [l]))
      with (listeners grp).
    2:{ by rewrite delete_middle, app_nil_r. }
    unfold h1. rewrite insert_insert_eq.
    rewrite delete_insert_ne by done. rewrite delete_insert_eq.
    rewrite (delete_id _ l) by done.
    rewrite insert_id by (apply group_at_Some in Hg; by destruct grp).
    by destruct w.
Qed.

(** *** Detach, then send *)

Lemma omap_delete_valid {A B} (f : A → option B) (xs : list A) i :
  Forall (fun x => is_Some (f x)) xs →
  omap f (delete i xs) = delete i (omap f xs).
Proof.
  intros Hv. revert i. induction Hv as [|x xs [y Hy] _ IH]; intros i.
  - by destruct i.
  - destruct i as [|i]; csimpl; rewrite Hy; simpl; [done|]. by rewrite IH.
Qed.

Lemma detach_view t cb d w g i :
  wf w →
  find_group (heap w) (listeners_groups (em w)) t = Some g →
  find_listener (heap w) (listeners_of (heap w) g) cb d = Some i →
  ∃ w1, vlc_event_detach t cb d w = Ret VLC_SUCCESS w1
        ∧ wf w1 ∧ em w1 = em w ∧ log w1 = log w
        ∧ find_group (heap w1) (listeners_groups (em w)) t = Some g
        ∧ listeners_of (heap w1) g = delete i (listeners_of (heap w) g)
        ∧ entries_of (heap w1) g = delete i (entries_of (heap w) g).
Proof.
  intros Hwf Hf Hi.
  destruct (find_group_Some _ _ _ _ Hf) as (Hin & grp & Hg & Hty).
  assert (listeners_of (heap w) g = listeners grp) as Hls.
  { unfold listeners_of. by rewrite Hg. }
  rewrite Hls in Hi.
  destruct (detach_found _ _ _ _ _ _ _ (wf_lock _ Hwf) Hf Hg Hi)
    as (l & Hl & Hd).
  eexists. split; [exact Hd|].
  pose proof (wf_detach _ _ _ _ _ _ Hwf Hd) as Hwf1.
  destruct (find_listener_Some _ _ _ _ _ Hi) as (l' & x & Hl' & Hx & _).
  assert (l' = l) as -> by congruence.
  assert (g ≠ l) as Hgl by (intros ->; eauto using group_not_listener).
  set (h1 := delete l (<[g:=_]> (heap w))) in *.
  assert (listeners_of h1 g = delete i (listeners grp)) as Hls1.
  { unfold listeners_of, h1. rewrite group_at_delete_ne by done.
    by rewrite group_at_insert_group. }
  split_and!; try done.
  - simpl. rewrite <- Hf. apply find_group_types, Forall_forall. intros g0 Hg0.
    destruct (wf_group _ _ Hwf Hg0) as [grp0 Hgrp0]. unfold h1.
    rewrite group_at_delete_ne by (intros ->; eauto using group_not_listener).
    destruct (decide (g0 = g)) as [->|Hne].
    + by rewrite group_at_insert_group, Hg.
    + by rewrite group_at_insert_ne.
  - simpl. by rewrite Hls1, Hls.
  - unfold entries_of. simpl. rewrite Hls1, Hls.
    rewrite <- omap_delete_valid by (by eapply wf_listeners).
    apply omap_ext_in. intros l0 Hl0.
    assert (l0 ≠ l) as Hne.
    { intros ->. rewrite <- Hls1 in Hl0.
      destruct (owned_listener _ _ _ Hwf1 Hin Hl0) as [x0 Hx0].
      simpl in Hx0. unfold h1 in Hx0. by rewrite lookup_delete_eq in Hx0. }
    apply list_elem_of_delete_inv in Hl0.
    destruct (wf_listener _ _ _ _ Hwf Hin Hg Hl0) as [x0 Hx0].
    unfold h1. rewrite listener_at_delete_ne by done.
    by rewrite listener_at_insert_ne
      by (intros <-; eauto using group_not_listener).
Qed.

(** X9: in a well-formed state where the first group of the type holds a
    listener with this callback and this user data, detach succeeds and
    removes the first such listener from the array, keeping the others in
    order.  A send of the type whose listeners do not call back then
    invokes exactly the listeners that are left, in order; when the
    callback had no other listener on the type, it is not invoked. *)
Theorem detach_then_send t cb d ev w g i fuel :
  wf w →
  find_group (heap w) (listeners_groups (em w)) t = Some g →
  find_listener (heap w) (listeners_of (heap w) g) cb d = Some i →
  ev_type ev = t →
  Forall (fun x => callback_body (pf_callback x) (stamp (em w) ev)
                     (p_user_data x) = [])
         (entries_of (heap w) g) →
  (length (entries_of (heap w) g) ≤ S fuel)%nat →
  ∃ w1 w2,
    vlc_event_detach t cb d w = Ret VLC_SUCCESS w1
    ∧ entries_of (heap w1) g = delete i (entries_of (heap w) g)
    ∧ send fuel ev w1 = Ret (stamp (em w) ev) w2
    ∧ new_log w1 w2
      = dispatch_log (stamp (em w) ev) (delete i (entries_of (heap w) g))
    ∧ (Forall (fun x => pf_callback x ≠ cb) (delete i (entries_of (heap w) g)) →
       calls_to cb (new_log w1 w2) = []).
Proof.
  intros Hwf Hf Hi HT Hin Hfuel.
  destruct (detach_view _ _ _ _ _ _ Hwf Hf Hi)
    as (w1 & Hd & Hwf1 & Hem & Hlog & Hfg & Hls & Hent).
  assert (find_group (heap w1) (listeners_groups (em w1)) (ev_type ev)
          = Some g) as Hf1 by (by rewrite HT, Hem).
  destruct (find_listener_Some _ _ _ _ _ Hi) as (l & x & Hl & Hx & _).
  destruct (find_group_Some _ _ _ _ Hf) as [Hg _].
  assert (i < length (entries_of (heap w) g))%nat as Hlt.
  { unfold entries_of. rewrite omap_valid_length.
    - by eapply lookup_lt_Some.
    - apply Forall_forall. intros l0 Hl0. by eapply wf_listeners_of. }
  exists w1. eexists. split; [done|]. split; [done|].
  rewrite <- Hem. split.
  { apply (send_inert fuel ev w1 g Hwf1 Hf1).
    - rewrite Hent, Hem. apply Forall_forall. intros x0 Hx0.
      apply (proj1 (Forall_forall _ _) Hin).
      by eapply list_elem_of_delete_inv.
    - rewrite Hent, length_delete by (by apply lookup_lt_is_Some). lia. }
  rewrite new_log_mk, Hent. split; [done|].
  intros Hcb. rewrite calls_to_dispatch. by rewrite (filter_none _ _ Hcb).
Qed.

(** *** A registered type stays registered *)

Lemma categories_prefix_groups h h' gs : ∀ gs',
  map (fun g => (g, type_of h g)) gs
    `prefix_of` map (fun g => (g, type_of h' g)) gs' →
  gs `prefix_of` gs' ∧ Forall (fun g => type_of h' g = type_of h g) gs.
Proof.
  induction gs as [|g gs IH]; intros gs' Hp.
  - split; [apply prefix_nil|constructor].
  - destruct gs' as [|g' gs']; simpl in Hp.
    { by apply prefix_nil_not in Hp. }
    pose proof (prefix_cons_inv_1 _ _ _ _ Hp) as [= <- Hty].
    apply prefix_cons_inv_2 in Hp. destruct (IH gs' Hp) as [Hpre Hall].
    split; [by apply prefix_cons|by constructor].
Qed.

Lemma find_group_later w w' t g :
  wf w → wf w' → categories w `prefix_of` categories w' →
  find_group (heap w) (listeners_groups (em w)) t = Some g →
  find_group (heap w') (listeners_groups (em w')) t = Some g.
Proof.
  intros Hwf Hwf' Hp Hf.
  destruct (categories_prefix_groups _ _ _ _ Hp) as [[k Hk] Hty].
  rewrite Hk. apply find_group_app. rewrite <- Hf.
  apply find_group_types, Forall_forall. intros g0 Hg0.
  pose proof (proj1 (Forall_forall _ _) Hty g0 Hg0) as Ht. simpl in Ht.
  destruct (wf_group _ _ Hwf Hg0) as [grp0 E0].
  destruct (wf_group w' g0 Hwf') as [grp0' E0'].
  { rewrite Hk. apply elem_of_app. by left. }
  unfold type_of in Ht. rewrite E0, E0' in Ht. rewrite E0, E0'. simpl.
  by f_equal.
Qed.

Lemma run_action_categories fuel a w w' :
  wf w → run_action malloc (send fuel) a w = Ret tt w' →
  wf w' ∧ categories w `prefix_of` categories w'.
Proof.
  intros Hwf H.
  destruct a; simpl in H; apply bind_Ret in H as (s & ? & H & [= <-]).
  - split; [by eapply wf_register|].
    pose proof (categories_register _ _ _ _ Hwf H) as Hc.
    destruct s; try (by rewrite Hc).
    destruct Hc as (g & _ & _ & ->). by apply prefix_app_r.
  - split; [by eapply wf_attach|].
    by rewrite (categories_attach _ _ _ _ _ _ Hwf H).
  - split; [by eapply wf_detach|].
    by rewrite (categories_detach _ _ _ _ _ _ Hwf H).
  - by eapply categories_send_prefix.
Qed.

(** X12: a registered type stays registered, with the same group.  When
    the first group of type [t] is [g] in a well-formed state, it still is
    after any call of register, attach, detach or send that returns,
    whatever the callbacks do; so an attach to [t] made afterwards cannot
    fail with VLC_EGENERIC. *)
Theorem registered_stays_registered t g fuel a w w' :
  wf w →
  find_group (heap w) (listeners_groups (em w)) t = Some g →
  run_action malloc (send fuel) a w = Ret tt w' →
  find_group (heap w') (listeners_groups (em w')) t = Some g
  ∧ (∀ cb d s w'', attach t cb d w' = Ret s w'' → s ≠ VLC_EGENERIC).
Proof.
  intros Hwf Hf Ha.
  destruct (run_action_categories _ _ _ _ Hwf Ha) as [Hwf' Hp].
  pose proof (find_group_later _ _ _ _ Hwf Hwf' Hp Hf) as Hf'.
  split; [done|]. intros cb d s w''.
  destruct (malloc (heap w')) as [l|] eqn:Hm.
  2:{ rewrite attach_enomem by done. by intros [= <- _]. }
  destruct (find_group_Some _ _ _ _ Hf') as (_ & grp & Hg & _).
  rewrite (attach_found _ _ _ _ _ _ _ (wf_lock _ Hwf') Hm Hf' Hg).
  by intros [= <- _].
Qed.

(** *** What a registration makes known *)

Lemma find_group_snoc h gs g t :
  Forall (fun g => is_Some (group_at h g)) gs →
  find_group h (gs ++ [g]) t
  = match find_group h gs t with
    | Some g0 => Some g0
    | None => find_group h [g] t
    end.
Proof.
  induction 1 as [|g0 gs [grp0 E0] _ IH]; [done|].
  simpl. rewrite E0. simpl in IH. by destruct (_ =? _).
Qed.

(** X13: after a successful register of [t], the type has a group: the
    group it had before if it had one (the new group then comes later in
    the array and stays without listeners), the new block otherwise.  The
    group found for any other type is as before. *)
Theorem register_makes_known t w w1 :
  wf w →
  register t w = Ret VLC_SUCCESS w1 →
  ∃ gnew,
    malloc (heap w) = Some gnew
    ∧ group_at (heap w1) gnew = Some (mk_group t [])
    ∧ find_group (heap w1) (listeners_groups (em w1)) t
      = Some (default gnew
                (find_group (heap w) (listeners_groups (em w)) t))
    ∧ (∀ t', t' ≠ t →
             find_group (heap w1) (listeners_groups (em w1)) t'
             = find_group (heap w) (listeners_groups (em w)) t').
Proof.
  intros Hwf. destruct (malloc (heap w)) as [g|] eqn:Hm.
  2:{ by rewrite register_enomem. }
  rewrite (register_ok _ _ _ (wf_lock _ Hwf) Hm). intros [= <-].
  pose proof (malloc_fresh _ _ Hm) as Hg.
  exists g. simpl. split; [done|]. split; [apply group_at_insert_group|].
  set (h' := <[g:=BGroup (mk_group t [])]> (heap w)).
  assert (∀ t', find_group h' (listeners_groups (em w)) t'
                = find_group (heap w) (listeners_groups (em w)) t') as Hold.
  { intros t'. apply find_group_ext; [|by apply wf_groups].
    intros g0 _ Hg0. by apply group_at_alloc. }
  assert (Forall (fun g0 => is_Some (group_at h' g0)) (listeners_groups (em w)))
    as Hv.
  { eapply Forall_impl; [by apply wf_groups|]. intros g0 Hg0; simpl.
    unfold h'. by rewrite group_at_alloc. }
  split.
  - rewrite (find_group_snoc _ _ _ _ Hv), Hold.
    destruct (find_group (heap w) _ t); [done|]. simpl. unfold h'.
    by rewrite group_at_insert_group, Z.eqb_refl.
  - intros t' Hne. rewrite (find_group_snoc _ _ _ _ Hv), Hold.
    destruct (find_group (heap w) _ t'); [done|]. simpl. unfold h'.
    rewrite group_at_insert_group. simpl.
    destruct (t =? t') eqn:E; [lia|done].
Qed.

(** *** The types do not interfere *)

Lemma other_group_attach t cb d w s w1 t' g' :
  wf w → t' ≠ t →
  find_group (heap w) (listeners_groups (em w)) t' = Some g' →
  attach t cb d w = Ret s w1 →
  group_at (heap w1) g' = group_at (heap w) g'
  ∧ ∀ l, l ∈ listeners_of (heap w) g' →
         listener_at (heap w1) l = listener_at (heap w) l.
Proof.
  intros Hwf Hne Hf'.
  destruct (find_group_Some _ _ _ _ Hf') as (Hin' & grp' & Hg' & Hty').
  destruct (malloc (heap w)) as [l|] eqn:Hm.
  2:{ rewrite attach_enomem by done. by intros [= _ <-]. }
  pose proof (malloc_fresh _ _ Hm) as Hl.
  destruct (find_group (heap w) (listeners_groups (em w)) t) as [g|] eqn:Hf.
  2:{ rewrite (attach_missing _ _ _ _ _ (wf_lock _ Hwf) (wf_groups _ Hwf) Hm Hf).
      by intros [= _ <-]. }
  destruct (find_group_Some _ _ _ _ Hf) as (Hin & grp & Hg & Hty).
  rewrite (attach_found _ _ _ _ _ _ _ (wf_lock _ Hwf) Hm Hf Hg).
  intros [= _ <-]. simpl.
  assert (g ≠ g') as Hgg by (intros ->; congruence).
  split.
  - rewrite group_at_insert_ne by done. apply group_at_alloc; by eauto.
  - intros l0 Hl0. destruct (wf_listeners_of _ _ _ Hwf Hin' Hl0) as [x0 Hx0].
    rewrite listener_at_insert_ne
      by (intros <-; eauto using group_not_listener).
    apply listener_at_alloc; by eauto.
Qed.

Lemma other_group_detach t cb d w s w1 t' g' :
  wf w → t' ≠ t →
  find_group (heap w) (listeners_groups (em w)) t' = Some g' →
  vlc_event_detach t cb d w = Ret s w1 →
  group_at (heap w1) g' = group_at (heap w) g'
  ∧ ∀ l, l ∈ listeners_of (heap w) g' →
         listener_at (heap w1) l = listener_at (heap w) l.
Proof.
  intros Hwf Hne Hf' Hd.
  pose proof (wf_detach _ _ _ _ _ _ Hwf Hd) as Hwf1. revert Hd Hwf1.
  destruct (find_group_Some _ _ _ _ Hf') as (Hin' & grp' & Hg' & Hty').
  destruct (find_group (heap w) (listeners_groups (em w)) t) as [g|] eqn:Hf.
  2:{ rewrite detach_missing by (done || by rewrite Hf). by intros [= _ <-]. }
  destruct (find_group_Some _ _ _ _ Hf) as (Hin & grp & Hg & Hty).
  destruct (find_listener (heap w) (listeners grp) cb d) as [i|] eqn:Hi.
  2:{ rewrite detach_missing; [by intros [= _ <-]|done|].
      rewrite Hf. unfold listeners_of. by rewrite Hg. }
  destruct (detach_found _ _ _ _ _ _ _ (wf_lock _ Hwf) Hf Hg Hi) as (l & Hl & ->).
  destruct (find_listener_Some _ _ _ _ _ Hi) as (l' & x & Hl' & Hx & _).
  assert (l' = l) as -> by congruence.
  intros [= _ <-] Hwf1. simpl.
  assert (g ≠ g') as Hgg by (intros ->; congruence).
  assert (group_at (delete l (<[g:=BGroup (mk_group (event_type grp)
                                             (delete i (listeners grp)))]>
                                (heap w))) g' = group_at (heap w) g') as Hsame.
  { rewrite group_at_delete_ne by (intros ->; eauto using group_not_listener).
    by rewrite group_at_insert_ne. }
  split; [done|]. intros l0 Hl0.
  destruct (wf_listeners_of _ _ _ Hwf Hin' Hl0) as [x0 Hx0].
  assert (l0 ≠ l) as Hll.
  { intros ->.
    destruct (owned_listener _ g' l Hwf1) as [x1 Hx1]; [done| |].
    - simpl. unfold listeners_of in *. by rewrite Hsame.
    - simpl in Hx1. by rewrite lookup_delete_eq in Hx1. }
  rewrite listener_at_delete_ne by done.
  by rewrite listener_at_insert_ne
    by (intros <-; eauto using group_not_listener).
Qed.

(** X14: attach and detach on one type leave every other type alone.  For
    a type [t'] other than [t] with first group [g'], after an attach or a
    detach on [t], whatever it returns, [g'] is still the first group of
    [t'] and holds the same listeners in the same order; a send of [t']
    whose listeners do not call back invokes the same callbacks with the
    same arguments as it would have before. *)
Theorem other_types_untouched t cb d w s w1 t' g' fuel ev :
  wf w → t' ≠ t →
  find_group (heap w) (listeners_groups (em w)) t' = Some g' →
  attach t cb d w = Ret s w1 ∨ vlc_event_detach t cb d w = Ret s w1 →
  ev_type ev = t' →
  Forall (fun x => callback_body (pf_callback x) (stamp (em w) ev)
                     (p_user_data x) = [])
         (entries_of (heap w) g') →
  (length (entries_of (heap w) g') ≤ fuel)%nat →
  find_group (heap w1) (listeners_groups (em w1)) t' = Some g'
  ∧ listeners_of (heap w1) g' = listeners_of (heap w) g'
  ∧ entries_of (heap w1) g' = entries_of (heap w) g'
  ∧ ∃ ev' w2 w2',
      send fuel ev w = Ret ev' w2 ∧ send fuel ev w1 = Ret ev' w2'
      ∧ new_log w1 w2' = new_log w w2
      ∧ new_log w w2 = dispatch_log ev' (entries_of (heap w) g').
Proof.
  intros Hwf Hne Hf' Hop HT Hin Hfuel.
  assert (wf w1 ∧ categories w1 = categories w
          ∧ em w1 = em w
          ∧ group_at (heap w1) g' = group_at (heap w) g'
          ∧ ∀ l, l ∈ listeners_of (heap w) g' →
                 listener_at (heap w1) l = listener_at (heap w) l)
    as (Hwf1 & Hcat & Hem & Hg' & Hl').
  { destruct Hop as [Ha|Hd].
    - destruct (other_group_attach _ _ _ _ _ _ _ _ Hwf Hne Hf' Ha).
      destruct (attach_Ret t cb d w Hwf) as (s0 & w0 & Ha0 & _).
      split_and!; try done.
      + by eapply wf_attach.
      + by eapply categories_attach.
      + revert Ha. destruct (malloc (heap w)) as [l|] eqn:Hm.
        2:{ rewrite attach_enomem by done. by intros [= _ <-]. }
        destruct (find_group (heap w) (listeners_groups (em w)) t)
          as [g|] eqn:Hf.
        2:{ rewrite (attach_missing _ _ _ _ _ (wf_lock _ Hwf)
                       (wf_groups _ Hwf) Hm Hf). by intros [= _ <-]. }
        destruct (find_group_Some _ _ _ _ Hf) as (_ & grp & Hg & _).
        rewrite (attach_found _ _ _ _ _ _ _ (wf_lock _ Hwf) Hm Hf Hg).
        by intros [= _ <-].
    - destruct (other_group_detach _ _ _ _ _ _ _ _ Hwf Hne Hf' Hd).
      split_and!; try done.
      + by eapply wf_detach.
      + by eapply categories_detach.
      + revert Hd.
        destruct (find_group (heap w) (listeners_groups (em w)) t)
          as [g|] eqn:Hf.
        2:{ rewrite detach_missing by (done || by rewrite Hf).
            by intros [= _ <-]. }
        destruct (find_group_Some _ _ _ _ Hf) as (_ & grp & Hg & _).
        destruct (find_listener (heap w) (listeners grp) cb d) as [i|] eqn:Hi.
        2:{ rewrite detach_missing; [by intros [= _ <-]|done|].
            rewrite Hf. unfold listeners_of. by rewrite Hg. }
        destruct (detach_found _ _ _ _ _ _ _ (wf_lock _ Hwf) Hf Hg Hi)
          as (l & Hl & ->).
        by intros [= _ <-]. }
  assert (find_group (heap w1) (listeners_groups (em w1)) t' = Some g') as Hf1.
  { apply (find_group_later w w1); try done. by rewrite Hcat. }
  assert (listeners_of (heap w1) g' = listeners_of (heap w) g') as Hls.
  { unfold listeners_of. by rewrite Hg'. }
  assert (entries_of (heap w1) g' = entries_of (heap w) g') as Hent.
  { unfold entries_of. rewrite Hls. by apply omap_ext_in. }
  split_and!; try done.
  eexists _, _, _. split; [|split].
  - apply (send_inert fuel ev w g'); try done. by rewrite HT.
  - rewrite <- Hem.
    apply (send_inert fuel ev w1 g' Hwf1); [by rewrite HT| |by rewrite Hent].
    by rewrite Hent, Hem.
  - by rewrite !new_log_mk, Hent, Hem.
Qed.

(** *** Callbacks that attach *)

(** X15: the dispatch loop reads the size of the array again at every
    iteration, so a listener that a callback attaches to the type being
    sent is invoked by the same send.  With one listener A on the first
    group of the type, whose callback attaches B (which does not call
    back), one send invokes A, then B, and leaves B attached after A. *)
Theorem attach_during_send_is_invoked w T A dA B dB ev g la lb fuel :
  wf w →
  find_group (heap w) (listeners_groups (em w)) T = Some g →
  listeners_of (heap w) g = [la] →
  listener_at (heap w) la = Some (mk_listener dA A) →
  ev_type ev = T →
  callback_body A (stamp (em w) ev) dA = [ActAttach T B dB] →
  callback_body B (stamp (em w) ev) dB = [] →
  malloc (heap w) = Some lb →
  send (S (S fuel)) ev w
  = Ret (stamp (em w) ev)
      (mk_world
         (<[g:=BGroup (mk_group T [la; lb])]>
            (<[lb:=BListener (mk_listener dB B)]> (heap w)))
         (em w)
         (log w ++ [Call A (stamp (em w) ev) dA; Call B (stamp (em w) ev) dB])).
Proof.
  intros Hwf Hf Hls Hla HT HbA HbB Hm. pose proof (wf_lock _ Hwf) as Hlk.
  destruct (listeners_of_Some _ _ _ Hls) as (grp & Hg & Hgl); [done|].
  destruct (find_group_Some _ _ _ _ Hf) as (_ & grp' & Hg' & Hty).
  assert (grp' = grp) as -> by congruence.
  pose proof (malloc_fresh _ _ Hm) as Hlb.
  assert (g ≠ lb) as Hglb by (intros ->; apply group_at_Some in Hg; congruence).
  remember (S fuel) as n eqn:Hn.
  rewrite send_found with (g := g) by (done || by rewrite HT).
  unfold bind at 1.
  erewrite (loop_step _ _ _ _ (with_lock true w)); simpl;
    [|done|done|by rewrite Hgl|done].
  cbn [pf_callback p_user_data]. rewrite HbA.
  rewrite set_lock_set_lock, set_lock_id by done. simpl.
  unfold bind at 1. unfold bind at 1. unfold bind at 1.
  rewrite (attach_found T B dB
             (mk_world (heap w) (em w)
                (log w ++ [Call A (stamp (em w) ev) dA])) lb g grp);
    try done.
  simpl. rewrite Hgl, Hty. simpl.
  unfold bind at 1. rewrite lock_free by done. subst n.
  erewrite (loop_step fuel g _ 1%nat _ (mk_group T [la; lb]) lb
              (mk_listener dB B)); simpl.
  - cbn [pf_callback p_user_data]. rewrite HbB. simpl.
    rewrite set_lock_set_lock, set_lock_id by done.
    unfold bind at 1, ret at 1. unfold bind at 1. rewrite lock_free by done.
    erewrite loop_end; simpl.
    + unfold bind, vlc_mutex_unlock, ret, with_lock; simpl.
      rewrite set_lock_set_lock, set_lock_id by done.
      by rewrite <- app_assoc.
    + apply group_at_insert_group.
    + done.
  - done.
  - apply group_at_insert_group.
  - done.
  - rewrite listener_at_insert_ne by done. apply listener_at_insert_listener.
Qed.

Lemma loop_self_attach g ev fuel : ∀ i w,
  (∀ h, is_Some (malloc h)) →
  object_lock (em w) = true → wf (with_lock false w) →
  find_group (heap w) (listeners_groups (em w)) (ev_type ev) = Some g →
  Forall (fun x => callback_body (pf_callback x) ev (p_user_data x)
                   = [ActAttach (ev_type ev) (pf_callback x) (p_user_data x)])
         (entries_of (heap w) g) →
  (i < length (listeners_of (heap w) g))%nat →
  loop fuel g ev i w = Timeout.
Proof.
  induction fuel as [|fuel IH]; intros i w Hmal Hlk Hwf Hf Hb Hi.
  - destruct (find_group_Some _ _ _ _ Hf) as (Hin & grp & Hg & Hty).
    unfold listeners_of in Hi. rewrite Hg in Hi.
    destruct (lookup_lt_is_Some_2 _ _ Hi) as [l Hl].
    by eapply loop_timeout.
  - destruct (find_group_Some _ _ _ _ Hf) as (Hin & grp & Hg & Hty).
    pose proof Hi as Hi'. unfold listeners_of in Hi'. rewrite Hg in Hi'.
    destruct (lookup_lt_is_Some_2 _ _ Hi') as [l Hl].
    assert (l ∈ listeners_of (heap w) g) as Hlin.
    { unfold listeners_of. rewrite Hg. by eapply list_elem_of_lookup_2. }
    destruct (wf_listeners_of _ _ _ Hwf Hin Hlin) as [x Hx]. simpl in Hx.
    rewrite (loop_step _ _ _ _ _ _ _ _ Hlk Hg Hl Hx).
    rewrite (proj1 (Forall_forall _ _) Hb x) by (by eapply entries_of_elem).
    set (w1 := mk_world (heap w) (set_lock false (em w)) (log w ++ _)).
    assert (wf w1) as Hwf1 by (by eapply wf_same).
    destruct (Hmal (heap w1)) as [l' Hm].
    pose proof (attach_found (ev_type ev) (pf_callback x) (p_user_data x)
                  w1 l' g grp (wf_lock _ Hwf1) Hm Hf Hg) as Ha.
    destruct (attach_view _ _ _ _ _ _ Hwf1 Hf Ha)
      as (Hwf2 & Hem & _ & Hfg & Hent & _ & l2 & _ & Hls2 & _).
    unfold bind at 1. simpl. unfold bind at 1. unfold bind at 1.
    rewrite Ha. simpl. unfold bind at 1. rewrite lock_free by done.
    apply IH; try done.
    + simpl in *. by rewrite Hfg.
    + simpl in *. rewrite Hent. apply Forall_app. split; [done|].
      constructor; [|constructor]. simpl.
      apply (proj1 (Forall_forall _ _) Hb x). by eapply entries_of_elem.
    + simpl in *. rewrite Hls2, length_app. simpl. lia.
Qed.

(** X16: a callback that attaches itself again to the type being sent
    keeps the dispatch loop running: every invocation appends a listener
    to the array the loop is walking.  When the allocator never fails and
    every listener of the first group of the type does so, a send of the
    type to a group that is not empty does not return, whatever the
    fuel. *)
Theorem self_attach_never_returns w ev g fuel :
  wf w →
  (∀ h, is_Some (malloc h)) →
  find_group (heap w) (listeners_groups (em w)) (ev_type ev) = Some g →
  listeners_of (heap w) g ≠ [] →
  Forall (fun x => callback_body (pf_callback x) (stamp (em w) ev)
                     (p_user_data x)
                   = [ActAttach (ev_type ev) (pf_callback x) (p_user_data x)])
         (entries_of (heap w) g) →
  send fuel ev w = Timeout.
Proof.
  intros Hwf Hmal Hf Hne Hb. pose proof (wf_lock _ Hwf) as Hlk.
  rewrite (send_found _ _ _ _ Hlk Hf). unfold bind at 1.
  rewrite (loop_self_attach g (stamp (em w) ev) fuel 0%nat (with_lock true w));
    try done.
  - by rewrite with_lock_with_lock, with_lock_id.
  - simpl. destruct (listeners_of (heap w) g); [done|simpl; lia].
Qed.

(** X17: the return code of [vlc_event_manager_register_event_type] in a
    well-formed state.  The call always returns, and never VLC_EGENERIC:
    VLC_ENOMEM exactly when the group cannot be allocated, and then the
    state is as before; VLC_SUCCESS otherwise, with the new group, empty,
    in the block malloc returned, at the end of the array, the other
    blocks, the owner, the parent and the log as they were. *)
Theorem register_status t w :
  wf w →
  ∃ s w',
    register t w = Ret s w'
    ∧ s ≠ VLC_EGENERIC
    ∧ (s = VLC_ENOMEM ↔ malloc (heap w) = None)
    ∧ (s = VLC_ENOMEM → w' = w)
    ∧ (s = VLC_SUCCESS →
       ∃ g, malloc (heap w) = Some g
            ∧ heap w' = <[g:=BGroup (mk_group t [])]> (heap w)
            ∧ listeners_groups (em w') = listeners_groups (em w) ++ [g]
            ∧ p_obj (em w') = p_obj (em w)
            ∧ p_parent_object (em w') = p_parent_object (em w)
            ∧ log w' = log w).
Proof.
  intros Hwf. destruct (malloc (heap w)) as [g|] eqn:Hm.
  - eexists _, _. split; [by apply register_ok; [apply wf_lock|]|].
    split_and!; try done.
    intros _. by exists g.
  - exists VLC_ENOMEM, w. split; [by apply register_enomem|].
    split_and!; done.
Qed.

(** *** A callback that sends *)

(** X18: a callback can send an event on the manager it was called from:
    the mutex is released around the call.  With one listener A on the
    first group of the type, whose callback sends the event [e2], the
    listeners of the type of [e2] (which do not call back) are invoked
    inside the call of A, in order, each with [e2] stamped with the owner;
    the outer send then returns, and heap and manager are as before. *)
Theorem nested_send_is_dispatched w T A dA ev e2 g g2 la fuel :
  wf w →
  find_group (heap w) (listeners_groups (em w)) T = Some g →
  listeners_of (heap w) g = [la] →
  listener_at (heap w) la = Some (mk_listener dA A) →
  ev_type ev = T →
  callback_body A (stamp (em w) ev) dA = [ActSend e2] →
  find_group (heap w) (listeners_groups (em w)) (ev_type e2) = Some g2 →
  Forall (fun x => callback_body (pf_callback x) (stamp (em w) e2)
                     (p_user_data x) = [])
         (entries_of (heap w) g2) →
  (length (entries_of (heap w) g2) ≤ fuel)%nat →
  send (S fuel) ev w
  = Ret (stamp (em w) ev)
      (mk_world (heap w) (em w)
         (log w ++ Call A (stamp (em w) ev) dA
                   :: dispatch_log (stamp (em w) e2) (entries_of (heap w) g2))).
Proof.
  intros Hwf Hf Hls Hla HT HbA Hf2 Hin Hfuel.
  pose proof (wf_lock _ Hwf) as Hlk.
  destruct (listeners_of_Some _ _ _ Hls) as (grp & Hg & Hgl); [done|].
  rewrite send_found with (g := g) by (done || by rewrite HT).
  unfold bind at 1.
  erewrite (loop_step _ _ _ _ (with_lock true w)); simpl;
    [|done|done|by rewrite Hgl|done].
  cbn [pf_callback p_user_data]. rewrite HbA.
  rewrite set_lock_set_lock, set_lock_id by done. simpl.
  set (w1 := mk_world (heap w) (em w) (log w ++ [Call A (stamp (em w) ev) dA])).
  assert (wf w1) as Hwf1 by (by eapply wf_same).
  pose proof (send_inert fuel e2 w1 g2 Hwf1 Hf2 Hin Hfuel) as Hs.
  unfold vlc_event_send in Hs.
  unfold bind at 1. unfold bind at 1. unfold bind at 1. rewrite Hs. simpl.
  unfold bind at 1. rewrite lock_free by done.
  erewrite loop_end; simpl; [|exact Hg|by rewrite Hgl].
  unfold bind, vlc_mutex_unlock, ret, with_lock; simpl.
  rewrite set_lock_set_lock, set_lock_id by done.
  by rewrite <- app_assoc.
Qed.

End Properties.

(** ** The concrete environment is an instance *)

Lemma fresh_malloc_fresh h l : fresh_malloc h = Some l → h !! l = None.
Proof.
  intros [= <-]. apply not_elem_of_dom.
  pose proof (is_fresh ({[0]} ∪ dom h)). set_solver.
Qed.

(** Closed facts about the concrete states, by evaluation. *)
Ltac concrete :=
  first [ reflexivity
        | by vm_compute
        | apply (bool_decide_unpack _); vm_compute; exact I
        | vm_compute; repeat constructor ].

(** *** The operations on the concrete states *)

Example w_AB_state :
  map_to_list (heap w_AB)
  = [(3, BListener (mk_listener 8 200)); (2, BListener (mk_listener 7 100));
     (1, BGroup (mk_group 1 [2; 3]))]
  ∧ em w_AB = mk_em 55 66 false [1] ∧ log w_AB = [].
Proof. concrete. Qed.

(** Callbacks that do nothing: A, then B. *)
Example send_inert_AB :
  vlc_event_send fresh_malloc inert_body 2 (mk_event 1 0 42) w_AB
  = Ret (mk_event 1 55 42)
      (mk_world (heap w_AB) (em w_AB)
         [Call 100 (mk_event 1 55 42) 7; Call 200 (mk_event 1 55 42) 8]).
Proof. concrete. Qed.

(** A detaches itself: B is not called, and is called by the next send. *)
Example send_self_detach_AB :
  let send := vlc_event_send fresh_malloc self_detach_body 2 (mk_event 1 0 42) in
  let w' := world_of (send w_AB) w_AB in
  let w'' := world_of (send w') w' in
  log w' = [Call 100 (mk_event 1 55 42) 7]
  ∧ listeners_of (heap w') 1 = [3]
  ∧ new_log w' w'' = [Call 200 (mk_event 1 55 42) 8].
Proof. concrete. Qed.

(** Not enough fuel for the two callbacks. *)
Example send_timeout_AB :
  vlc_event_send fresh_malloc inert_body 1 (mk_event 1 0 42) w_AB = Timeout.
Proof. concrete. Qed.

(** Out of memory. *)
Example attach_no_memory :
  __vlc_event_attach no_malloc 1 100 7 w_AB = Ret VLC_ENOMEM w_AB.
Proof. concrete. Qed.

(** A call made while the mutex is held never returns: a callback can
    only call back because [vlc_event_send] releases the mutex around it. *)
Example detach_with_mutex_held :
  vlc_event_detach 1 100 7 (with_lock true w_AB) = Deadlock.
Proof. concrete. Qed.

(** fini frees the three blocks. *)
Example fini_AB :
  vlc_event_manager_fini w_AB = Ret tt (mk_world ∅ (em w_AB) (log w_AB)).
Proof. concrete. Qed.

(** The scan of [vlc_event_detach] has no [break]: in a state that no
    sequence of calls produces (it is not well-formed), where a second group
    of type 1 holds a listener, the listener is found there. *)
Example detach_scans_every_group :
  let w := mk_world {[ 1 := BGroup (mk_group 1 []);
                       2 := BGroup (mk_group 1 [3]);
                       3 := BListener (mk_listener 7 100) ]}
             (mk_em 55 66 false [1; 2]) [] in
  ¬ wf w
  ∧ vlc_event_detach 1 100 7 w
    = Ret VLC_SUCCESS
        (mk_world {[ 1 := BGroup (mk_group 1 []);
                     2 := BGroup (mk_group 1 []) ]}
           (mk_em 55 66 false [1; 2]) []).
Proof. split; concrete. Qed.

(** ** The theorems at concrete states *)

Lemma self_detach_skips_next_witness :
  let ev := mk_event 1 0 42 in
  wf w_AB
  ∧ find_group (heap w_AB) (listeners_groups (em w_AB)) 1 = Some 1
  ∧ listeners_of (heap w_AB) 1 = [2; 3]
  ∧ listener_at (heap w_AB) 2 = Some (mk_listener 7 100)
  ∧ listener_at (heap w_AB) 3 = Some (mk_listener 8 200)
  ∧ ev_type ev = 1
  ∧ self_detach_body 100 (stamp (em w_AB) ev) 7 = [ActDetach 1 100 7]
  ∧ self_detach_body 200 (stamp (em w_AB) ev) 8 = []
  ∧ ∃ w', vlc_event_send fresh_malloc self_detach_body 1 ev w_AB
          = Ret (stamp (em w_AB) ev) w'
          ∧ new_log w_AB w' = [Call 100 (stamp (em w_AB) ev) 7]
          ∧ (200 ≠ 100 → calls_to 200 (new_log w_AB w') = [])
          ∧ listeners_of (heap w') 1 = [3]
          ∧ listener_at (heap w') 3 = Some (mk_listener 8 200)
          ∧ ∃ w'', vlc_event_send fresh_malloc self_detach_body 1 ev w'
                   = Ret (stamp (em w_AB) ev) w''
                   ∧ new_log w' w'' = [Call 200 (stamp (em w_AB) ev) 8].
Proof.
  intros ev. assert (wf w_AB) as Hwf by concrete. split; [exact Hwf|].
  do 7 (split; [concrete|]).
  destruct (self_detach_skips_next fresh_malloc fresh_malloc_fresh
              self_detach_body w_AB 1 100 7 200 8 ev 1 2 3 0 Hwf)
    as (w' & Hs & Hlog & Hno & _ & _ & _ & Hls & Hlb & Hnext); [concrete..|].
  exists w'. split; [exact Hs|]. split; [exact Hlog|]. split; [exact Hno|].
  split; [exact Hls|]. split; [exact Hlb|].
  destruct (Hnext ev 0%nat) as (w'' & Hs2 & Hlog2 & _); [concrete..|].
  exists w''. split; [exact Hs2|exact Hlog2].
Defined.

(** C1 fails on the code: in the state [w_AB] the callback of A detaches A,
    and no send invokes the callback of B. *)
Lemma snapshot_dispatch_fails :
  ¬ snapshot_dispatch fresh_malloc self_detach_body w_AB 1 100 7 200 8
      (mk_event 1 0 42).
Proof.
  intros H.
  destruct (H 1 2 3) as (fuel & ev' & w' & Hs & Hc); try by vm_compute.
  destruct fuel as [|fuel]; [by vm_compute in Hs|].
  rewrite (send_self_detach fresh_malloc self_detach_body
             w_AB 1 100 7 3 (mk_event 1 0 42) 1 2 fuel) in Hs;
    try by vm_compute.
  injection Hs as _ <-. by vm_compute in Hc.
Qed.

Lemma detach_first_match_witness :
  wf w_AB
  ∧ find_group (heap w_AB) (listeners_groups (em w_AB)) 1 = Some 1
  ∧ find_listener (heap w_AB) (listeners_of (heap w_AB) 1) 200 8 = Some 1%nat
  ∧ ∃ l, listeners_of (heap w_AB) 1 !! 1%nat = Some l
         ∧ listener_at (heap w_AB) l = Some (mk_listener 8 200)
         ∧ vlc_event_detach 1 200 8 w_AB
           = Ret VLC_SUCCESS
               (mk_world
                  (delete l
                     (<[1:=BGroup
                             (mk_group 1
                                (delete 1%nat (listeners_of (heap w_AB) 1)))]>
                        (heap w_AB)))
                  (em w_AB) (log w_AB)).
Proof.
  assert (wf w_AB) as Hwf by concrete. split; [exact Hwf|].
  do 2 (split; [concrete|]).
  destruct (proj1 (detach_first_match 1 200 8 w_AB Hwf) 1 1%nat)
    as (l & Hl & Hx & _ & Hd); [concrete..|].
  exists l. split; [exact Hl|]. split; [exact Hx|exact Hd].
Defined.

Lemma attach_then_send_once_witness :
  let ev := mk_event 1 0 42 in
  wf w_reg
  ∧ find_group (heap w_reg) (listeners_groups (em w_reg)) 1 = Some 1
  ∧ __vlc_event_attach fresh_malloc 1 100 7 w_reg = Ret VLC_SUCCESS w_A
  ∧ ev_type ev = 1
  ∧ Forall (fun x => inert_body (pf_callback x) (stamp (em w_reg) ev)
                       (p_user_data x) = [])
           (entries_of (heap w_A) 1)
  ∧ (length (entries_of (heap w_A) 1) ≤ 1)%nat
  ∧ Forall (fun x => pf_callback x ≠ 100) (entries_of (heap w_reg) 1)
  ∧ ∃ ev' w2,
      vlc_event_send fresh_malloc inert_body 1 ev w_A = Ret ev' w2
      ∧ ev_p_obj ev' = p_obj (em w_reg)
      ∧ calls_to 100 (new_log w_A w2) = [Call 100 ev' 7].
Proof.
  intros ev. assert (wf w_reg) as Hwf by concrete. split; [exact Hwf|].
  do 5 (split; [concrete|]).
  assert (Forall (fun x => pf_callback x ≠ 100) (entries_of (heap w_reg) 1))
    as Hcb by concrete.
  split; [exact Hcb|].
  destruct (attach_then_send_once fresh_malloc fresh_malloc_fresh inert_body
              1 100 7 ev w_reg w_A 1 1 Hwf)
    as (ev' & w2 & Hs & Hobj & _ & _ & _ & Hcalls); [concrete..|].
  exists ev', w2. split; [exact Hs|]. split; [exact Hobj|exact (Hcalls Hcb)].
Defined.

(** C3 fails on the code without a condition on the callbacks: in the
    state [w_A], where the callback of A detaches A, the listener B =
    (200, 8) is attached behind A, and no send of type 1 invokes its
    callback: the loop resumes at index 1 of an array that has one entry
    left. *)
Lemma invoked_once_after_attach_fails :
  ¬ invoked_once_after_attach fresh_malloc self_detach_body w_A 1 200 8
      (mk_event 1 0 42).
Proof.
  intros H.
  destruct (H 1 w_AB) as (fuel & ev' & w2 & Hs & _ & Hc); [concrete..|].
  destruct fuel as [|fuel]; [by vm_compute in Hs|].
  rewrite (send_self_detach fresh_malloc self_detach_body
             w_AB 1 100 7 3 (mk_event 1 0 42) 1 2 fuel) in Hs;
    try by vm_compute.
  injection Hs as <- <-. by vm_compute in Hc.
Qed.

Lemma send_unregistered_noop_witness :
  wf w_AB
  ∧ Forall (fun g => type_of (heap w_AB) g ≠ 2) (listeners_groups (em w_AB))
  ∧ ∃ ev', vlc_event_send fresh_malloc inert_body 0 (mk_event 2 0 42) w_AB
           = Ret ev' w_AB.
Proof.
  assert (wf w_AB) as Hwf by concrete.
  assert (Forall (fun g => type_of (heap w_AB) g ≠ 2)
            (listeners_groups (em w_AB))) as Hty by concrete.
  split; [exact Hwf|]. split; [exact Hty|].
  exact (send_unregistered_noop fresh_malloc inert_body 0 (mk_event 2 0 42)
           w_AB Hwf Hty).
Defined.

Lemma attach_unregistered_witness :
  wf w_AB
  ∧ Forall (fun g => type_of (heap w_AB) g ≠ 2) (listeners_groups (em w_AB))
  ∧ fresh_malloc (heap w_AB) = Some 4
  ∧ __vlc_event_attach fresh_malloc 2 100 7 w_AB
    = Ret VLC_EGENERIC
        (mk_world (heap w_AB) (em w_AB)
           (log w_AB ++ [MsgErr 66
                           "Can't attach to an object event manager event"]))
  ∧ heap w_AB !! 4 = None.
Proof.
  assert (wf w_AB) as Hwf by concrete. split; [exact Hwf|].
  do 2 (split; [concrete|]).
  apply (attach_unregistered fresh_malloc fresh_malloc_fresh 2 100 7 w_AB 4
           Hwf); concrete.
Defined.

Lemma reachable_w_dup : reachable fresh_malloc inert_body w_dup.
Proof.
  apply (reach_call _ _ 0 (ActAttach 1 100 7) w_reg2); [|concrete].
  apply (reach_call _ _ 0 (ActRegister 1) w_reg); [|concrete].
  apply (reach_call _ _ 0 (ActRegister 1) w_init); [|concrete].
  apply (reach_init _ _ 55 66 (mk_world ∅ (mk_em 0 0 false []) []) VLC_SUCCESS).
  concrete.
Defined.

Lemma duplicate_registration_witness :
  reachable fresh_malloc inert_body w_dup
  ∧ categories w_dup = [(1, 1); (2, 1)]
  ∧ find_group (heap w_dup) (listeners_groups (em w_dup)) 1 = Some 1
  ∧ listeners_of (heap w_dup) 1 = [3]
  ∧ listeners_of (heap w_dup) 2 = [].
Proof.
  split; [exact reachable_w_dup|]. do 3 (split; [concrete|]).
  apply (duplicate_registration fresh_malloc fresh_malloc_fresh inert_body
           1 w_dup reachable_w_dup); concrete.
Defined.

Lemma attach_twice_send_twice_witness :
  let ev := mk_event 1 0 42 in
  wf w_reg
  ∧ find_group (heap w_reg) (listeners_groups (em w_reg)) 1 = Some 1
  ∧ __vlc_event_attach fresh_malloc 1 100 7 w_reg = Ret VLC_SUCCESS w_A
  ∧ __vlc_event_attach fresh_malloc 1 100 7 w_A = Ret VLC_SUCCESS w_AA
  ∧ ev_type ev = 1
  ∧ Forall (fun x => inert_body (pf_callback x) (stamp (em w_reg) ev)
                       (p_user_data x) = [])
           (entries_of (heap w_AA) 1)
  ∧ (length (entries_of (heap w_AA) 1) ≤ 2)%nat
  ∧ Forall (fun x => pf_callback x ≠ 100) (entries_of (heap w_reg) 1)
  ∧ (∃ l1 l2,
        l1 ≠ l2
        ∧ listeners_of (heap w_AA) 1 = listeners_of (heap w_reg) 1 ++ [l1; l2]
        ∧ listener_at (heap w_AA) l1 = Some (mk_listener 7 100)
        ∧ listener_at (heap w_AA) l2 = Some (mk_listener 7 100))
  ∧ ∃ ev' w3,
      vlc_event_send fresh_malloc inert_body 2 ev w_AA = Ret ev' w3
      ∧ calls_to 100 (new_log w_AA w3) = [Call 100 ev' 7; Call 100 ev' 7].
Proof.
  intros ev. assert (wf w_reg) as Hwf by concrete. split; [exact Hwf|].
  do 6 (split; [concrete|]).
  assert (Forall (fun x => pf_callback x ≠ 100) (entries_of (heap w_reg) 1))
    as Hcb by concrete.
  split; [exact Hcb|].
  destruct (attach_twice_send_twice fresh_malloc fresh_malloc_fresh inert_body
              1 100 7 w_reg w_A w_AA 1 Hwf) as (Hl & Hsend); [concrete..|].
  split; [exact Hl|].
  destruct (Hsend ev 2%nat) as (ev' & w3 & Hs & _ & Hcalls); [concrete..|].
  exists ev', w3. split; [exact Hs|exact (Hcalls Hcb)].
Defined.

(** C7 fails on the code without a condition on the callbacks: A = (100, 7),
    whose callback detaches A, is attached twice to category 1; the first
    invocation removes the first of the two entries, the loop resumes at
    index 1 of an array that has one entry left, and every send of type 1
    that returns has invoked the callback once. *)
Lemma invoked_twice_after_two_attaches_fails :
  ¬ invoked_twice_after_two_attaches fresh_malloc self_detach_body w_reg
      1 100 7 (mk_event 1 0 42).
Proof.
  intros H.
  destruct (H 1 w_A w_AA) as (fuel & ev' & w3 & Hs & Hc); [concrete..|].
  destruct fuel as [|fuel]; [by vm_compute in Hs|].
  rewrite (send_self_detach fresh_malloc self_detach_body
             w_AA 1 100 7 3 (mk_event 1 0 42) 1 2 fuel) in Hs;
    try by vm_compute.
  injection Hs as <- <-. by vm_compute in Hc.
Qed.

Lemma send_in_registration_order_witness :
  let ev := mk_event 1 0 42 in
  let xs := [mk_listener 7 100; mk_listener 8 200] in
  wf w_reg
  ∧ find_group (heap w_reg) (listeners_groups (em w_reg)) 1 = Some 1
  ∧ attach_each fresh_malloc 1 xs w_reg = Ret [VLC_SUCCESS; VLC_SUCCESS] w_AB
  ∧ ev_type ev = 1
  ∧ Forall (fun x => inert_body (pf_callback x) (stamp (em w_reg) ev)
                       (p_user_data x) = [])
           (entries_of (heap w_AB) 1)
  ∧ (length (entries_of (heap w_AB) 1) ≤ 2)%nat
  ∧ ∃ ev' w2,
      vlc_event_send fresh_malloc inert_body 2 ev w_AB = Ret ev' w2
      ∧ new_log w_AB w2 = dispatch_log ev' (entries_of (heap w_reg) 1 ++ xs).
Proof.
  intros ev xs. assert (wf w_reg) as Hwf by concrete. split; [exact Hwf|].
  do 5 (split; [concrete|]).
  apply (send_in_registration_order fresh_malloc fresh_malloc_fresh inert_body
           1 xs ev w_reg [VLC_SUCCESS; VLC_SUCCESS] w_AB 1 2 Hwf); concrete.
Defined.

Lemma categories_append_only_witness :
  wf w_AB
  ∧ categories w_AB = [(1, 1)]
  ∧ (∀ t s w',
        vlc_event_manager_register_event_type fresh_malloc t w_AB = Ret s w' →
        match s with
        | VLC_SUCCESS =>
            (∃ g, fresh_malloc (heap w_AB) = Some g
                  ∧ (g ∉ listeners_groups (em w_AB))
                  ∧ categories w' = categories w_AB ++ [(g, t)])
        | _ => categories w' = categories w_AB
        end)
  ∧ (∀ fuel ev ev' w',
        vlc_event_send fresh_malloc self_detach_body fuel ev w_AB = Ret ev' w' →
        categories w' = categories w_AB).
Proof.
  assert (wf w_AB) as Hwf by concrete. split; [exact Hwf|].
  split; [concrete|].
  destruct (categories_append_only fresh_malloc fresh_malloc_fresh
              self_detach_body w_AB Hwf) as (Hr & _ & _ & _ & Hs).
  split; [exact Hr|]. apply Hs.
  intros f e u t. unfold self_detach_body.
  destruct (f =? 100); [|apply not_elem_of_nil].
  intros [=]%list_elem_of_singleton.
Defined.

Lemma send_stamps_source_witness :
  wf w_AB
  ∧ Forall (fun g => type_of (heap w_AB) g ≠ 2) (listeners_groups (em w_AB))
  ∧ (∀ ev' w',
        vlc_event_send fresh_malloc inert_body 0 (mk_event 2 0 42) w_AB
        = Ret ev' w' →
        ev' = mk_event 2 55 42)
  ∧ vlc_event_send fresh_malloc inert_body 0 (mk_event 2 0 42) w_AB
    = Ret (mk_event 2 55 42) w_AB.
Proof.
  assert (wf w_AB) as Hwf by concrete. split; [exact Hwf|].
  split; [concrete|].
  destruct (send_stamps_source fresh_malloc inert_body 0 (mk_event 2 0 42)
              w_AB Hwf) as [H1 H2].
  split; [exact H1|]. apply H2. concrete.
Defined.

(** ** More theorems at concrete states *)

Lemma reachable_from_w_AB : reachable_from fresh_malloc inert_body ∅ w_AB.
Proof.
  apply (from_call _ _ _ 0 (ActAttach 1 200 8) w_A); [|concrete].
  apply (from_call _ _ _ 0 (ActAttach 1 100 7) w_reg); [|concrete].
  apply (from_call _ _ _ 0 (ActRegister 1) w_init); [|concrete].
  apply (from_init _ _ _ 55 66 (mk_world ∅ (mk_em 0 0 false []) [])
           VLC_SUCCESS); concrete.
Defined.

Lemma init_gives_empty_manager_witness :
  let w := mk_world ∅ (mk_em 0 0 false []) [] in
  vlc_event_manager_init 55 66 w = Ret VLC_SUCCESS w_init
  ∧ wf w_init
  ∧ (∀ fuel ev,
        vlc_event_send fresh_malloc inert_body fuel ev w_init
        = Ret (mk_event (ev_type ev) 55 (ev_u ev)) w_init)
  ∧ (∀ t cb d s w',
        __vlc_event_attach fresh_malloc t cb d w_init = Ret s w' →
        s ≠ VLC_SUCCESS ∧ heap w' = ∅ ∧ em w' = em w_init).
Proof.
  intros w.
  destruct (init_gives_empty_manager fresh_malloc fresh_malloc_fresh inert_body
              55 66 w) as (H1 & H2 & H3 & _ & H5).
  split; [exact H1|]. split; [exact H2|]. split; [exact H3|exact H5].
Defined.

Lemma fini_frees_every_block_witness :
  wf w_AB
  ∧ ∃ h', vlc_event_manager_fini w_AB
          = Ret tt (mk_world h' (em w_AB) (log w_AB))
          ∧ (∀ g, g ∈ listeners_groups (em w_AB) → h' !! g = None)
          ∧ dom h' = dom (heap w_AB) ∖ list_to_set (owned w_AB).
Proof.
  assert (wf w_AB) as Hwf by concrete. split; [exact Hwf|].
  destruct (fini_frees_every_block w_AB Hwf) as (h' & H1 & H2 & _ & _ & H5).
  exists h'. split; [exact H1|]. split; [exact H2|exact H5].
Defined.

Lemma fini_restores_heap_witness :
  reachable_from fresh_malloc inert_body ∅ w_AB
  ∧ vlc_event_manager_fini w_AB = Ret tt (mk_world ∅ (em w_AB) (log w_AB)).
Proof.
  split; [exact reachable_from_w_AB|].
  exact (fini_restores_heap fresh_malloc fresh_malloc_fresh inert_body ∅ w_AB
           reachable_from_w_AB).
Defined.

Lemma use_after_fini_undefined_witness :
  wf w_AB
  ∧ listeners_groups (em w_AB) ≠ []
  ∧ ∃ w', vlc_event_manager_fini w_AB = Ret tt w'
          ∧ listeners_groups (em w') = listeners_groups (em w_AB)
          ∧ (∀ fuel ev, vlc_event_send fresh_malloc inert_body fuel ev w'
                        = Undef)
          ∧ (∀ t cb d, vlc_event_detach t cb d w' = Undef)
          ∧ vlc_event_manager_fini w' = Undef.
Proof.
  assert (wf w_AB) as Hwf by concrete.
  assert (listeners_groups (em w_AB) ≠ []) as Hne by concrete.
  split; [exact Hwf|]. split; [exact Hne|].
  exact (use_after_fini_undefined fresh_malloc inert_body w_AB Hwf Hne).
Defined.

Lemma calls_never_go_wrong_witness :
  let call :=
    run_action fresh_malloc (vlc_event_send fresh_malloc self_detach_body 2)
      (ActSend (mk_event 1 0 42)) w_AB in
  wf w_AB
  ∧ call ≠ Undef ∧ call ≠ Deadlock
  ∧ (∀ w', call = Ret tt w' → wf w' ∧ object_lock (em w') = false).
Proof.
  intros call. assert (wf w_AB) as Hwf by concrete. split; [exact Hwf|].
  destruct (calls_never_go_wrong fresh_malloc fresh_malloc_fresh
              self_detach_body w_AB (ActSend (mk_event 1 0 42)) 2 Hwf)
    as (H1 & H2 & H3 & _).
  split; [exact H1|]. split; [exact H2|exact H3].
Defined.

Lemma manager_invariant_witness :
  reachable fresh_malloc inert_body w_dup
  ∧ object_lock (em w_dup) = false
  ∧ (∀ g, g ∈ listeners_groups (em w_dup) →
          ∃ grp, heap w_dup !! g = Some (BGroup grp))
  ∧ NoDup (listeners_groups (em w_dup))
  ∧ NoDup (all_listeners (heap w_dup) (listeners_groups (em w_dup))).
Proof.
  split; [exact reachable_w_dup|].
  destruct (manager_invariant fresh_malloc fresh_malloc_fresh inert_body w_dup
              reachable_w_dup) as (H1 & H2 & _ & H4 & H5 & _).
  split; [exact H1|]. split; [exact H2|]. split; [exact H4|exact H5].
Defined.

Lemma attach_status_witness :
  wf w_AB
  ∧ ∃ s w',
      __vlc_event_attach fresh_malloc 1 100 7 w_AB = Ret s w'
      ∧ (s = VLC_SUCCESS ↔
         is_Some (fresh_malloc (heap w_AB))
         ∧ is_Some (find_group (heap w_AB) (listeners_groups (em w_AB)) 1)).
Proof.
  assert (wf w_AB) as Hwf by concrete. split; [exact Hwf|].
  destruct (attach_status fresh_malloc fresh_malloc_fresh 1 100 7 w_AB Hwf)
    as (s & w' & H1 & _ & _ & _ & H5).
  exists s, w'. split; [exact H1|exact H5].
Defined.

Lemma register_status_witness :
  wf w_AB
  ∧ ∃ s w',
      vlc_event_manager_register_event_type fresh_malloc 2 w_AB = Ret s w'
      ∧ s ≠ VLC_EGENERIC
      ∧ (s = VLC_ENOMEM ↔ fresh_malloc (heap w_AB) = None).
Proof.
  assert (wf w_AB) as Hwf by concrete. split; [exact Hwf|].
  destruct (register_status fresh_malloc 2 w_AB Hwf)
    as (s & w' & H1 & H2 & H3 & _).
  exists s, w'. split; [exact H1|]. split; [exact H2|exact H3].
Defined.

Lemma attach_detach_round_trip_witness :
  wf w_reg
  ∧ find_group (heap w_reg) (listeners_groups (em w_reg)) 1 = Some 1
  ∧ Forall (fun x => ¬ (pf_callback x = 100 ∧ p_user_data x = 7))
           (entries_of (heap w_reg) 1)
  ∧ __vlc_event_attach fresh_malloc 1 100 7 w_reg = Ret VLC_SUCCESS w_A
  ∧ vlc_event_detach 1 100 7 w_A = Ret VLC_SUCCESS w_reg.
Proof.
  assert (wf w_reg) as Hwf by concrete. split; [exact Hwf|].
  do 3 (split; [concrete|]).
  apply (attach_detach_round_trip fresh_malloc fresh_malloc_fresh inert_body
           1 100 7 w_reg w_A 1 Hwf); concrete.
Defined.

Lemma detach_then_send_witness :
  let ev := mk_event 1 0 42 in
  wf w_AB
  ∧ find_group (heap w_AB) (listeners_groups (em w_AB)) 1 = Some 1
  ∧ find_listener (heap w_AB) (listeners_of (heap w_AB) 1) 100 7 = Some 0%nat
  ∧ ev_type ev = 1
  ∧ Forall (fun x => inert_body (pf_callback x) (stamp (em w_AB) ev)
                       (p_user_data x) = [])
           (entries_of (heap w_AB) 1)
  ∧ (length (entries_of (heap w_AB) 1) ≤ 2)%nat
  ∧ Forall (fun x => pf_callback x ≠ 100)
           (delete 0%nat (entries_of (heap w_AB) 1))
  ∧ ∃ w1 w2,
      vlc_event_detach 1 100 7 w_AB = Ret VLC_SUCCESS w1
      ∧ vlc_event_send fresh_malloc inert_body 1 ev w1
        = Ret (stamp (em w_AB) ev) w2
      ∧ new_log w1 w2 = [Call 200 (mk_event 1 55 42) 8]
      ∧ calls_to 100 (new_log w1 w2) = [].
Proof.
  intros ev. assert (wf w_AB) as Hwf by concrete. split; [exact Hwf|].
  do 5 (split; [concrete|]).
  assert (Forall (fun x => pf_callback x ≠ 100)
            (delete 0%nat (entries_of (heap w_AB) 1))) as Hcb by concrete.
  split; [exact Hcb|].
  destruct (detach_then_send fresh_malloc inert_body 1 100 7 ev w_AB 1 0 1 Hwf)
    as (w1 & w2 & Hd & _ & Hs & Hlog & Hcalls); [concrete..|].
  exists w1, w2. split; [exact Hd|]. split; [exact Hs|].
  split; [exact Hlog|exact (Hcalls Hcb)].
Defined.

Lemma send_empty_group_witness :
  wf w_reg
  ∧ find_group (heap w_reg) (listeners_groups (em w_reg)) 1 = Some 1
  ∧ listeners_of (heap w_reg) 1 = []
  ∧ vlc_event_send fresh_malloc inert_body 0 (mk_event 1 0 42) w_reg
    = Ret (mk_event 1 55 42) w_reg.
Proof.
  assert (wf w_reg) as Hwf by concrete. split; [exact Hwf|].
  do 2 (split; [concrete|]).
  apply (send_empty_group fresh_malloc inert_body 0 (mk_event 1 0 42) w_reg 1
           Hwf); concrete.
Defined.

Lemma send_keeps_registry_witness :
  let ev := mk_event 1 0 42 in
  let ev' := mk_event 1 55 42 in
  let w' := mk_world (heap w_AB) (em w_AB) [Call 100 ev' 7; Call 200 ev' 8] in
  (∀ f e u, Forall (fun a => ∃ ev0, a = ActSend ev0) (resend_body f e u))
  ∧ vlc_event_send fresh_malloc resend_body 2 ev w_AB = Ret ev' w'
  ∧ heap w' = heap w_AB ∧ em w' = em w_AB
  ∧ log w' = log w_AB ++ new_log w_AB w'.
Proof.
  intros ev ev' w'.
  assert (∀ f e u, Forall (fun a => ∃ ev0, a = ActSend ev0) (resend_body f e u))
    as Hb.
  { intros f e u. unfold resend_body. destruct (f =? 100); [|constructor].
    constructor; [|constructor]. eexists. reflexivity. }
  assert (vlc_event_send fresh_malloc resend_body 2 ev w_AB = Ret ev' w')
    as Hs by concrete.
  split; [exact Hb|]. split; [exact Hs|].
  exact (send_keeps_registry fresh_malloc resend_body 2 ev w_AB ev' w' Hb Hs).
Defined.

Lemma registered_stays_registered_witness :
  let call :=
    run_action fresh_malloc (vlc_event_send fresh_malloc inert_body 0)
      (ActRegister 1) w_reg in
  wf w_reg
  ∧ find_group (heap w_reg) (listeners_groups (em w_reg)) 1 = Some 1
  ∧ call = Ret tt w_reg2
  ∧ find_group (heap w_reg2) (listeners_groups (em w_reg2)) 1 = Some 1
  ∧ (∀ cb d s w'',
        __vlc_event_attach fresh_malloc 1 cb d w_reg2 = Ret s w'' →
        s ≠ VLC_EGENERIC).
Proof.
  intros call. assert (wf w_reg) as Hwf by concrete. split; [exact Hwf|].
  do 2 (split; [concrete|]).
  apply (registered_stays_registered fresh_malloc fresh_malloc_fresh inert_body
           1 1 0 (ActRegister 1) w_reg w_reg2 Hwf); concrete.
Defined.

Lemma register_makes_known_witness :
  wf w_init
  ∧ vlc_event_manager_register_event_type fresh_malloc 1 w_init
    = Ret VLC_SUCCESS w_reg
  ∧ ∃ gnew,
      fresh_malloc (heap w_init) = Some gnew
      ∧ group_at (heap w_reg) gnew = Some (mk_group 1 [])
      ∧ find_group (heap w_reg) (listeners_groups (em w_reg)) 1
        = Some (default gnew
                  (find_group (heap w_init) (listeners_groups (em w_init)) 1)).
Proof.
  assert (wf w_init) as Hwf by concrete. split; [exact Hwf|].
  split; [concrete|].
  destruct (register_makes_known fresh_malloc fresh_malloc_fresh 1 w_init w_reg
              Hwf) as (gnew & H1 & H2 & H3 & _); [concrete|].
  exists gnew. split; [exact H1|]. split; [exact H2|exact H3].
Defined.

Lemma other_types_untouched_witness :
  let ev := mk_event 1 0 42 in
  wf w_AB2
  ∧ 1 ≠ 2
  ∧ find_group (heap w_AB2) (listeners_groups (em w_AB2)) 1 = Some 1
  ∧ __vlc_event_attach fresh_malloc 2 300 9 w_AB2 = Ret VLC_SUCCESS w_AB2C
  ∧ ev_type ev = 1
  ∧ Forall (fun x => inert_body (pf_callback x) (stamp (em w_AB2) ev)
                       (p_user_data x) = [])
           (entries_of (heap w_AB2) 1)
  ∧ (length (entries_of (heap w_AB2) 1) ≤ 2)%nat
  ∧ find_group (heap w_AB2C) (listeners_groups (em w_AB2C)) 1 = Some 1
  ∧ entries_of (heap w_AB2C) 1 = entries_of (heap w_AB2) 1
  ∧ ∃ ev' w2 w2',
      vlc_event_send fresh_malloc inert_body 2 ev w_AB2 = Ret ev' w2
      ∧ vlc_event_send fresh_malloc inert_body 2 ev w_AB2C = Ret ev' w2'
      ∧ new_log w_AB2C w2' = new_log w_AB2 w2.
Proof.
  intros ev. assert (wf w_AB2) as Hwf by concrete. split; [exact Hwf|].
  assert (1 ≠ 2) as Hne by lia. split; [exact Hne|].
  do 5 (split; [concrete|]).
  destruct (other_types_untouched fresh_malloc fresh_malloc_fresh inert_body
              2 300 9 w_AB2 VLC_SUCCESS w_AB2C 1 1 2 ev Hwf Hne)
    as (H1 & _ & H3 & ev' & w2 & w2' & Hs & Hs' & Hl & _);
    [concrete|left; concrete|concrete..|].
  split; [exact H1|]. split; [exact H3|].
  exists ev', w2, w2'. split; [exact Hs|]. split; [exact Hs'|exact Hl].
Defined.

Lemma attach_during_send_is_invoked_witness :
  let ev := mk_event 1 0 42 in
  let ev' := mk_event 1 55 42 in
  wf w_A
  ∧ find_group (heap w_A) (listeners_groups (em w_A)) 1 = Some 1
  ∧ listeners_of (heap w_A) 1 = [2]
  ∧ listener_at (heap w_A) 2 = Some (mk_listener 7 100)
  ∧ ev_type ev = 1
  ∧ attach_other_body 100 (stamp (em w_A) ev) 7 = [ActAttach 1 200 8]
  ∧ attach_other_body 200 (stamp (em w_A) ev) 8 = []
  ∧ fresh_malloc (heap w_A) = Some 3
  ∧ vlc_event_send fresh_malloc attach_other_body 2 ev w_A
    = Ret ev' (mk_world (heap w_AB) (em w_A) [Call 100 ev' 7; Call 200 ev' 8]).
Proof.
  intros ev ev'. assert (wf w_A) as Hwf by concrete. split; [exact Hwf|].
  do 7 (split; [concrete|]).
  rewrite (attach_during_send_is_invoked fresh_malloc fresh_malloc_fresh
             attach_other_body w_A 1 100 7 200 8 ev 1 2 3 0 Hwf);
    concrete.
Defined.

Lemma self_attach_never_returns_witness :
  let ev := mk_event 1 0 42 in
  wf w_A
  ∧ (∀ h, is_Some (fresh_malloc h))
  ∧ find_group (heap w_A) (listeners_groups (em w_A)) (ev_type ev) = Some 1
  ∧ listeners_of (heap w_A) 1 ≠ []
  ∧ Forall (fun x => self_attach_body (pf_callback x) (stamp (em w_A) ev)
                       (p_user_data x)
                     = [ActAttach (ev_type ev) (pf_callback x) (p_user_data x)])
           (entries_of (heap w_A) 1)
  ∧ vlc_event_send fresh_malloc self_attach_body 5 ev w_A = Timeout.
Proof.
  intros ev. assert (wf w_A) as Hwf by concrete. split; [exact Hwf|].
  assert (∀ h, is_Some (fresh_malloc h)) as Hm.
  { intros h. eexists. reflexivity. }
  split; [exact Hm|]. do 3 (split; [concrete|]).
  apply (self_attach_never_returns fresh_malloc fresh_malloc_fresh
           self_attach_body w_A ev 1 5 Hwf Hm); concrete.
Defined.

Lemma nested_send_is_dispatched_witness :
  let ev := mk_event 2 0 42 in
  let e2 := mk_event 1 0 0 in
  wf w_AB2C
  ∧ find_group (heap w_AB2C) (listeners_groups (em w_AB2C)) 2 = Some 4
  ∧ listeners_of (heap w_AB2C) 4 = [5]
  ∧ listener_at (heap w_AB2C) 5 = Some (mk_listener 9 300)
  ∧ ev_type ev = 2
  ∧ relay_body 300 (stamp (em w_AB2C) ev) 9 = [ActSend e2]
  ∧ find_group (heap w_AB2C) (listeners_groups (em w_AB2C)) (ev_type e2)
    = Some 1
  ∧ Forall (fun x => relay_body (pf_callback x) (stamp (em w_AB2C) e2)
                       (p_user_data x) = [])
           (entries_of (heap w_AB2C) 1)
  ∧ (length (entries_of (heap w_AB2C) 1) ≤ 2)%nat
  ∧ vlc_event_send fresh_malloc relay_body 3 ev w_AB2C
    = Ret (mk_event 2 55 42)
        (mk_world (heap w_AB2C) (em w_AB2C)
           [Call 300 (mk_event 2 55 42) 9; Call 100 (mk_event 1 55 0) 7;
            Call 200 (mk_event 1 55 0) 8]).
Proof.
  intros ev e2. assert (wf w_AB2C) as Hwf by concrete. split; [exact Hwf|].
  do 8 (split; [concrete|]).
  apply (nested_send_is_dispatched fresh_malloc relay_body w_AB2C 2 300 9 ev e2
           4 1 5 2 Hwf); concrete.
Defined.
